(** * Secure fog simulation: dynamic topology and monitors

    A shallow embedding of [secure_fog_simulation.py]: the anomaly
    classifier [AI_Monitor], the mobility monitor [MovementManager], the
    rekeying monitor [RekeyingManager], the topology built by
    [run_simulation] and the router [BroadcastShortestPath.get_path],
    together with the parts of the [networkx] graph class and of
    [hashlib] / [random] that these functions call. *)

From Stdlib Require Import ZArith String Ascii List Lia DecimalString.
From stdpp Require Import gmap strings list fin_maps.

Local Open Scope Z_scope.
Local Open Scope string_scope.
Local Open Scope list_scope.

(** ** Python primitives *)

Module Py.

(** Exceptions that the embedded code can raise. *)
Inductive exn : Type :=
| KeyError
| IndexError
| NetworkXError
| NodeNotFound
| NetworkXNoPath
| Diverges.  (* not a Python exception: a loop bound of the model ran out *)

(** A computation either returns or raises. *)
Inductive result (A : Type) : Type :=
| Ok (a : A)
| Raise (e : exn).
Arguments Ok {A} a.
Arguments Raise {A} e.

Definition bind {A B} (m : result A) (k : A -> result B) : result B :=
  match m with
  | Ok a => k a
  | Raise e => Raise e
  end.

Definition returns {A} (m : result A) : Prop := exists a, m = Ok a.

(** An insertion-ordered dictionary: keys are unique, iteration follows
    the order of first insertion, assignment to an existing key keeps
    its position. *)
Section Dict.
Context {K V : Type} `{EqDecision K}.

Definition dict : Type := list (K * V).

Fixpoint dict_get (d : dict) (k : K) : option V :=
  match d with
  | [] => None
  | (k', v) :: d' => if decide (k' = k) then Some v else dict_get d' k
  end.

Definition dict_has (d : dict) (k : K) : bool :=
  match dict_get d k with Some _ => true | None => false end.

Fixpoint dict_set (d : dict) (k : K) (v : V) : dict :=
  match d with
  | [] => [(k, v)]
  | (k', v') :: d' =>
      if decide (k' = k) then (k', v) :: d' else (k', v') :: dict_set d' k v
  end.

Fixpoint dict_del (d : dict) (k : K) : dict :=
  match d with
  | [] => []
  | (k', v') :: d' =>
      if decide (k' = k) then d' else (k', v') :: dict_del d' k
  end.

Definition dict_keys (d : dict) : list K := map fst d.
End Dict.
Arguments dict : clear implicits.

(** [random.choice(seq)]: the element at a drawn index; the draw [r]
    stands for the random source, any index is reached by some draw.
    An empty sequence raises IndexError. *)
Definition choice {A} (r : nat) (seq : list A) : result A :=
  match seq with
  | [] => Raise IndexError
  | x :: _ => Ok (nth (r mod length seq) seq x)
  end.

(** Truth value of an optional string: [None] and the empty string are
    false. *)
Definition truthy (o : option string) : bool :=
  match o with
  | None => false
  | Some s => negb (String.eqb s "")
  end.

End Py.

Import Py.

Notation "'let*' x ':=' m 'in' k" := (Py.bind m (fun x => k))
  (at level 10, x name, m at level 100, k at level 200).
Notation "'let*' ' p ':=' m 'in' k" :=
  (Py.bind m (fun x => match x with p => k end))
  (at level 10, p strict pattern, m at level 100, k at level 200).

(** ** The graph class of networkx, as far as the simulation uses it *)

Module Nx.

Inductive NodeKind : Type := LEADER | CLUSTER | MOBILE.

#[global] Instance NodeKind_eq_dec : EqDecision NodeKind.
Proof. solve_decision. Defined.

(** Node attribute dictionary; a node created implicitly by [add_edge]
    has no attribute. *)
Record NodeData : Type := mkNodeData {
  type : option NodeKind;
  IPT : option Z;
  RAM : option Z
}.

Definition no_data : NodeData := mkNodeData None None None.

(** Edge attribute dictionary. *)
Record EdgeData : Type := mkEdgeData { BW : Z; PR : Z }.

(** Adjacency of one node: neighbour -> edge data, in insertion order. *)
Definition Adj : Type := dict string EdgeData.

(** [Graph]: node -> (attributes, adjacency).  networkx keeps [_node]
    and [_adj] as two dictionaries with the same keys in the same
    order; they are merged here. *)
Definition Graph : Type := dict string (NodeData * Adj).

Definition empty : Graph := [].

Definition has_node (g : Graph) (n : string) : bool := dict_has g n.

Definition node_data (g : Graph) (n : string) : result NodeData :=
  match dict_get g n with
  | Some (d, _) => Ok d
  | None => Raise KeyError
  end.

Definition adj (g : Graph) (n : string) : option Adj :=
  snd <$> dict_get g n.

(** [G.add_node(n, type=.., IPT=.., RAM=..)] *)
Definition add_node (g : Graph) (n : string) (d : NodeData) : Graph :=
  match dict_get g n with
  | Some (_, a) => dict_set g n (d, a)
  | None => dict_set g n (d, [])
  end.

Definition ensure_node (g : Graph) (n : string) : Graph :=
  if has_node g n then g else dict_set g n (no_data, []).

Definition set_adj (g : Graph) (u v : string) (e : EdgeData) : Graph :=
  match dict_get g u with
  | Some (d, a) => dict_set g u (d, dict_set a v e)
  | None => g
  end.

(** [G.add_edge(u, v, BW=.., PR=..)]: missing end points are created,
    an existing edge keeps its place and takes the new attributes. *)
Definition add_edge (g : Graph) (u v : string) (e : EdgeData) : Graph :=
  let g1 := ensure_node g u in
  let g2 := ensure_node g1 v in
  let g3 := set_adj g2 u v e in
  set_adj g3 v u e.

(** [G.has_edge(u, v)]: [v in self._adj[u]], False on KeyError. *)
Definition has_edge (g : Graph) (u v : string) : bool :=
  match adj g u with
  | Some a => dict_has a v
  | None => false
  end.

Definition del_adj (g : Graph) (u v : string) : result Graph :=
  match dict_get g u with
  | Some (d, a) =>
      if dict_has a v then Ok (dict_set g u (d, dict_del a v))
      else Raise NetworkXError
  | None => Raise NetworkXError
  end.

(** [G.remove_edge(u, v)] *)
Definition remove_edge (g : Graph) (u v : string) : result Graph :=
  let* g1 := del_adj g u v in
  if decide (u = v) then Ok g1 else del_adj g1 v u.

(** [G.neighbors(n)] *)
Definition neighbors (g : Graph) (n : string) : result (list string) :=
  match adj g n with
  | Some a => Ok (dict_keys a)
  | None => Raise NetworkXError
  end.

(** [G.nodes(data=True)] *)
Definition nodes_data (g : Graph) : list (string * NodeData) :=
  map (fun '(n, (d, _)) => (n, d)) g.

Definition nodes (g : Graph) : list string := dict_keys g.

(** *** Unweighted shortest path

    [nx.shortest_path(G, source, target)] without a weight runs
    [bidirectional_shortest_path]: two breadth-first searches, one from
    each end, that always expand the smaller fringe; [pred] and [succ]
    map a reached node to the node it was reached from ([None] for the
    two end points). *)

Abbreviation Links := (gmap string (option string)).

Inductive scan_result : Type :=
| Meet (mine : Links) (w : string)
| Next (mine : Links) (fringe : list string).

(** [for w in G.adj[v]]: record [w] when it is new on this side, stop as
    soon as [w] is known to the other side. *)
Fixpoint scan_adj (v : string) (ws : list string)
    (mine other : Links) (fringe : list string) : scan_result :=
  match ws with
  | [] => Next mine fringe
  | w :: ws' =>
      let '(mine', fringe') :=
        match mine !! w with
        | None => (<[w := Some v]> mine, fringe ++ [w])
        | Some _ => (mine, fringe)
        end in
      match other !! w with
      | Some _ => Meet mine' w
      | None => scan_adj v ws' mine' other fringe'
      end
  end.

(** [for v in this_level: for w in G.adj[v]: ...] *)
Fixpoint scan_level (g : Graph) (level : list string)
    (mine other : Links) (fringe : list string) : result scan_result :=
  match level with
  | [] => Ok (Next mine fringe)
  | v :: level' =>
      match adj g v with
      | None => Raise KeyError
      | Some a =>
          match scan_adj v (dict_keys a) mine other fringe with
          | Meet mine' w => Ok (Meet mine' w)
          | Next mine' fringe' => scan_level g level' mine' other fringe'
          end
      end
  end.

(** [while forward_fringe and reverse_fringe: ...]; leaving the loop
    raises NetworkXNoPath. *)
Fixpoint search (fuel : nat) (g : Graph) (pred succ : Links)
    (forward_fringe reverse_fringe : list string)
    : result (Links * Links * string) :=
  match forward_fringe, reverse_fringe with
  | [], _ | _, [] => Raise NetworkXNoPath
  | _, _ =>
      match fuel with
      | O => Raise Diverges
      | S fuel' =>
          if (length forward_fringe <=? length reverse_fringe)%nat then
            let* r := scan_level g forward_fringe pred succ [] in
            match r with
            | Meet pred' w => Ok (pred', succ, w)
            | Next pred' fringe' => search fuel' g pred' succ fringe' reverse_fringe
            end
          else
            let* r := scan_level g reverse_fringe succ pred [] in
            match r with
            | Meet succ' w => Ok (pred, succ', w)
            | Next succ' fringe' => search fuel' g pred succ' forward_fringe fringe'
            end
      end
  end.

(** Every name that can enter [pred] or [succ]. *)
Definition all_neighbors (g : Graph) : list string :=
  concat (map (fun '(_, (_, a)) => dict_keys a) g).

Definition search_bound (g : Graph) : nat :=
  (2 * (2 + length (all_neighbors g)) + 1)%nat.

Definition _bidirectional_pred_succ (g : Graph) (source target : string)
    : result (Links * Links * string) :=
  if decide (target = source) then
    Ok ({[target := None]}, {[source := None]}, source)
  else
    search (search_bound g) g {[source := None]} {[target := None]}
      [source] [target].

(** [while w is not None: path.append(w); w = links[w]] *)
Fixpoint follow (fuel : nat) (links : Links) (w : option string)
    : result (list string) :=
  match w with
  | None => Ok []
  | Some x =>
      match fuel with
      | O => Raise Diverges
      | S fuel' =>
          match links !! x with
          | None => Raise KeyError
          | Some nxt =>
              let* rest := follow fuel' links nxt in
              Ok (x :: rest)
          end
      end
  end.

Definition bidirectional_shortest_path (g : Graph) (source target : string)
    : result (list string) :=
  if negb (has_node g source) || negb (has_node g target) then
    Raise NodeNotFound
  else
    let* '(pred, succ, w) := _bidirectional_pred_succ g source target in
    let* back := follow (S (size pred)) pred (Some w) in
    let path := reverse back in
    match succ !! w with
    | None => Raise KeyError
    | Some nxt =>
        let* onward := follow (S (size succ)) succ nxt in
        Ok (path ++ onward)
    end.

Definition shortest_path := bidirectional_shortest_path.

End Nx.

(** ** hashlib.sha256 (FIPS 180-4), on 32-bit words held in [Z] *)

Module Hashlib.

Definition mask32 : Z := 0xffffffff.
Definition w32 (x : Z) : Z := Z.land x mask32.
Definition add32 (x y : Z) : Z := w32 (x + y).
Definition rotr (n x : Z) : Z :=
  Z.lor (Z.shiftr x n) (w32 (Z.shiftl x (32 - n))).
Definition shr (n x : Z) : Z := Z.shiftr x n.
Definition not32 (x : Z) : Z := Z.lxor x mask32.

Definition Ch (x y z : Z) : Z := Z.lxor (Z.land x y) (Z.land (not32 x) z).
Definition Maj (x y z : Z) : Z :=
  Z.lxor (Z.lxor (Z.land x y) (Z.land x z)) (Z.land y z).
Definition bsig0 (x : Z) : Z := Z.lxor (Z.lxor (rotr 2 x) (rotr 13 x)) (rotr 22 x).
Definition bsig1 (x : Z) : Z := Z.lxor (Z.lxor (rotr 6 x) (rotr 11 x)) (rotr 25 x).
Definition ssig0 (x : Z) : Z := Z.lxor (Z.lxor (rotr 7 x) (rotr 18 x)) (shr 3 x).
Definition ssig1 (x : Z) : Z := Z.lxor (Z.lxor (rotr 17 x) (rotr 19 x)) (shr 10 x).

(** The round constants are the first 32 bits of the fractional parts of
    the cube roots of the first 64 primes, the initial hash value those of
    the square roots of the first 8 primes. *)
Definition is_prime (n : Z) : bool :=
  forallb (fun d => negb (Z.eqb (n mod d) 0))
    (map Z.of_nat (seq 2 (Z.to_nat n - 2))).

Definition primes (count : nat) : list Z :=
  take count (filter (fun n => is_prime n = true) (map Z.of_nat (seq 2 310))).

(** Largest [r + x] with [x < 2^bits] and [(r + x)^3 <= n]. *)
Fixpoint cube_root (bits : nat) (n r : Z) : Z :=
  match bits with
  | O => r
  | S bits' =>
      let r' := r + 2 ^ Z.of_nat bits' in
      if Z.leb (r' * r' * r') n then cube_root bits' n r'
      else cube_root bits' n r
  end.

Definition cube_root_fraction (p : Z) : Z :=
  w32 (cube_root 40 (p * 2 ^ 96) 0).

Definition square_root_fraction (p : Z) : Z := w32 (Z.sqrt (p * 2 ^ 64)).

Definition K256 : list Z :=
  Eval vm_compute in map cube_root_fraction (primes 64).

(** The eight working variables / the intermediate hash value. *)
Record state : Type := mkState { ha : Z; hb : Z; hc : Z; hd : Z;
                                 he : Z; hf : Z; hg : Z; hh : Z }.

Definition H256 : list Z :=
  Eval vm_compute in map square_root_fraction (primes 8).

Definition init_state : state :=
  let h (i : nat) := nth i H256 0 in
  mkState (h 0%nat) (h 1%nat) (h 2%nat) (h 3%nat)
          (h 4%nat) (h 5%nat) (h 6%nat) (h 7%nat).

(** Padding: a 1 bit, zeros up to 56 mod 64, the bit length on 8 bytes. *)
Definition be_bytes (n : nat) (x : Z) : list Z :=
  map (fun i => Z.land (Z.shiftr x (8 * Z.of_nat (n - 1 - i))) 255)
      (seq 0 n).

Definition pad (msg : list Z) : list Z :=
  let l := Z.of_nat (length msg) in
  let zeros := Z.to_nat ((55 - l) mod 64) in
  msg ++ [128] ++ repeat 0 zeros ++ be_bytes 8 (8 * l).

Fixpoint be_word (bs : list Z) : Z :=
  match bs with
  | [] => 0
  | b :: bs' => Z.lor (Z.shiftl b (8 * Z.of_nat (length bs'))) (be_word bs')
  end.

(** Cut into [n] pieces of [size] elements. *)
Fixpoint chunks {A} (size n : nat) (l : list A) : list (list A) :=
  match n with
  | O => []
  | S n' => take size l :: chunks size n' (drop size l)
  end.

Definition words_of_block (block : list Z) : list Z :=
  map be_word (chunks 4 16 block).

(** Message schedule: [W] grows from 16 to 64 words. *)
Fixpoint schedule (n : nat) (W : list Z) : list Z :=
  match n with
  | O => W
  | S n' =>
      let t := length W in
      let at_ (k : nat) := nth (t - k) W 0 in
      let w := add32 (add32 (add32 (ssig1 (at_ 2%nat)) (at_ 7%nat))
                            (ssig0 (at_ 15%nat))) (at_ 16%nat) in
      schedule n' (W ++ [w])
  end.

Definition round (s : state) (kw : Z * Z) : state :=
  let '(k, w) := kw in
  let t1 := add32 (add32 (add32 (add32 (hh s) (bsig1 (he s)))
                                (Ch (he s) (hf s) (hg s))) k) w in
  let t2 := add32 (bsig0 (ha s)) (Maj (ha s) (hb s) (hc s)) in
  mkState (add32 t1 t2) (ha s) (hb s) (hc s)
          (add32 (hd s) t1) (he s) (hf s) (hg s).

Definition compress (h : state) (block : list Z) : state :=
  let W := schedule 48 (words_of_block block) in
  let s := fold_left round (combine K256 W) h in
  mkState (add32 (ha h) (ha s)) (add32 (hb h) (hb s))
          (add32 (hc h) (hc s)) (add32 (hd h) (hd s))
          (add32 (he h) (he s)) (add32 (hf h) (hf s))
          (add32 (hg h) (hg s)) (add32 (hh h) (hh s)).

Definition sha256 (msg : list Z) : state :=
  let padded := pad msg in
  fold_left compress (chunks 64 (length padded / 64) padded) init_state.

Definition hexdigits : list ascii :=
  list_ascii_of_string "0123456789abcdef".

Definition hexdigit (d : Z) : ascii :=
  nth (Z.to_nat (Z.land d 15)) hexdigits "0"%char.

(** Eight hexadecimal characters of a word, most significant first. *)
Definition hex8 (x : Z) (rest : string) : string :=
  String (hexdigit (Z.shiftr x 28)) (String (hexdigit (Z.shiftr x 24))
  (String (hexdigit (Z.shiftr x 20)) (String (hexdigit (Z.shiftr x 16))
  (String (hexdigit (Z.shiftr x 12)) (String (hexdigit (Z.shiftr x 8))
  (String (hexdigit (Z.shiftr x 4)) (String (hexdigit x) rest))))))).

Definition hexdigest (h : state) : string :=
  hex8 (ha h) (hex8 (hb h) (hex8 (hc h) (hex8 (hd h)
  (hex8 (he h) (hex8 (hf h) (hex8 (hg h) (hex8 (hh h) ""))))))).

(** [str.encode()]: the bytes of the string. *)
Definition encode (s : string) : list Z :=
  map (fun c => Z.of_N (N_of_ascii c)) (list_ascii_of_string s).

End Hashlib.

Import Nx.

(** ** The simulation *)

Module Fog.

Inductive Status : Type := NORMAL | ATTACKER.

(** Entries of [simulation_log]. *)
Inductive Event : Type :=
| INITIAL (time : Z) (node location : string)
| MOVE (time : Z) (node : string) (from : option string) (to : string)
       (status : Status)
| REKEY (time : Z) (seed key : string).

(** *** AI_Monitor *)

Record AI_Monitor : Type := mkAI {
  move_counts : gmap string (list Z);
  suspicion_threshold : nat
}.

Definition AI_Monitor_init : AI_Monitor :=
  {| move_counts := ∅; suspicion_threshold := 3 |}.

Definition recent (time : Z) (history : list Z) : list Z :=
  filter (fun t => time - t < 300) history.

Definition check_node_movement (self : AI_Monitor) (node_id : string)
    (time : Z) : AI_Monitor * Status :=
  let counts0 :=
    match move_counts self !! node_id with
    | None => <[node_id := []]> (move_counts self)
    | Some _ => move_counts self
    end in
  let counts1 := alter (fun l => l ++ [time]) node_id counts0 in
  let counts2 := alter (recent time) node_id counts1 in
  let self' := {| move_counts := counts2;
                  suspicion_threshold := suspicion_threshold self |} in
  if (suspicion_threshold self <? length (default [] (counts2 !! node_id)))%nat
  then (self', ATTACKER)
  else (self', NORMAL).

(** *** MovementManager *)

Record MovementManager : Type := mkMM {
  ai_monitor : AI_Monitor;
  mobile_nodes : list string;
  cluster_nodes : list string;
  initialized : bool;
  node_locations : gmap string string
}.

Definition MovementManager_init (ai : AI_Monitor) : MovementManager :=
  {| ai_monitor := ai; mobile_nodes := []; cluster_nodes := [];
     initialized := false; node_locations := ∅ |}.

Record Sim : Type := mkSim { G : Graph; now : Z }.

Record Routing : Type := mkRouting { invalid_cache_value : bool }.

Record World : Type := mkWorld {
  sim : Sim;
  routing : Routing;
  movement_manager : MovementManager;
  simulation_log : list Event
}.

(** The inner loop of [initialize]: the first neighbour of type CLUSTER. *)
Fixpoint first_cluster (g : Graph) (ns : list string)
    : result (option string) :=
  match ns with
  | [] => Ok None
  | neighbor :: ns' =>
      let* d := node_data g neighbor in
      if decide (type d = Some CLUSTER) then Ok (Some neighbor)
      else first_cluster g ns'
  end.

Definition initialize_node (g : Graph) (self : MovementManager)
    (node_id : string) (data : NodeData) : result MovementManager :=
  if decide (type data = Some MOBILE) then
    let mobile := mobile_nodes self ++ [node_id] in
    let* ns := neighbors g node_id in
    let* c := first_cluster g ns in
    Ok {| ai_monitor := ai_monitor self;
          mobile_nodes := mobile;
          cluster_nodes := cluster_nodes self;
          initialized := initialized self;
          node_locations :=
            match c with
            | Some neighbor => <[node_id := neighbor]> (node_locations self)
            | None => node_locations self
            end |}
  else if decide (type data = Some CLUSTER) then
    Ok {| ai_monitor := ai_monitor self;
          mobile_nodes := mobile_nodes self;
          cluster_nodes := cluster_nodes self ++ [node_id];
          initialized := initialized self;
          node_locations := node_locations self |}
  else Ok self.

Fixpoint initialize_loop (g : Graph) (self : MovementManager)
    (items : list (string * NodeData)) : result MovementManager :=
  match items with
  | [] => Ok self
  | (node_id, data) :: items' =>
      let* self' := initialize_node g self node_id data in
      initialize_loop g self' items'
  end.

Definition initialize (self : MovementManager) (s : Sim)
    : result MovementManager :=
  let* self' := initialize_loop (G s) self (nodes_data (G s)) in
  Ok {| ai_monitor := ai_monitor self';
        mobile_nodes := mobile_nodes self';
        cluster_nodes := cluster_nodes self';
        initialized := true;
        node_locations := node_locations self' |}.

Definition with_manager (w : World) (mm : MovementManager) : World :=
  {| sim := sim w; routing := routing w; movement_manager := mm;
     simulation_log := simulation_log w |}.

Definition attachment : EdgeData := mkEdgeData 5 2.

(** [if current_location_id and G.has_edge(node, current_location_id):
    G.remove_edge(node, current_location_id)] *)
Definition detach (g : Graph) (node : string) (current : option string)
    : result Graph :=
  match current with
  | Some cur =>
      if truthy current && has_edge g node cur then remove_edge g node cur
      else Ok g
  | None => Ok g
  end.

(** [MovementManager.__call__]; [r_node] and [r_cluster] are the draws of
    the two [random.choice] calls. *)
(** [if not self.initialized: self.initialize(sim)] *)
Definition ready (w : World) : result MovementManager :=
  if initialized (movement_manager w) then Ok (movement_manager w)
  else initialize (movement_manager w) (sim w).

Definition MovementManager_call (w : World) (r_node r_cluster : nat)
    : result World :=
  let* self := ready w in
  match mobile_nodes self with
  | [] => Ok (with_manager w self)
  | _ =>
      let* node_to_move := choice r_node (mobile_nodes self) in
      let current_location_id := node_locations self !! node_to_move in
      let possible_new_locations :=
        filter (fun c => Some c <> current_location_id) (cluster_nodes self) in
      match possible_new_locations with
      | [] => Ok (with_manager w self)
      | _ =>
          let* new_location_id := choice r_cluster possible_new_locations in
          let '(ai, status) :=
            check_node_movement (ai_monitor self) node_to_move (now (sim w)) in
          let log :=
            simulation_log w ++
            [MOVE (now (sim w)) node_to_move current_location_id
                  new_location_id status] in
          let* g1 := detach (G (sim w)) node_to_move current_location_id in
          let g2 := add_edge g1 node_to_move new_location_id attachment in
          Ok {| sim := {| G := g2; now := now (sim w) |};
                routing := {| invalid_cache_value := true |};
                movement_manager :=
                  {| ai_monitor := ai;
                     mobile_nodes := mobile_nodes self;
                     cluster_nodes := cluster_nodes self;
                     initialized := initialized self;
                     node_locations :=
                       <[node_to_move := new_location_id]> (node_locations self) |};
                simulation_log := log |}
      end
  end.

(** *** Seeds and keys *)

Definition ascii_letters : string :=
  "abcdefghijklmnopqrstuvwxyzABCDEFGHIJKLMNOPQRSTUVWXYZ".
Definition digits : string := "0123456789".

(** [random.choices(population, k=k)]: [k] independent draws; [rnd i] is
    the i-th draw of the random source. *)
Fixpoint choices {A} (rnd : nat -> nat) (population : list A) (k : nat)
    : result (list A) :=
  match k with
  | O => Ok []
  | S k' =>
      let* x := choice (rnd O) population in
      let* xs := choices (fun i => rnd (S i)) population k' in
      Ok (x :: xs)
  end.

Definition generate_seed (rnd : nat -> nat) (length : nat) : result string :=
  let* cs := choices rnd
               (list_ascii_of_string (String.append ascii_letters digits))
               length in
  Ok (string_of_list_ascii cs).

Definition derive_key (seed : string) : string :=
  substring 0 8 (Hashlib.hexdigest (Hashlib.sha256 (Hashlib.encode seed))).

(** *** RekeyingManager *)

Definition RekeyingManager_call (w : World) (rnd : nat -> nat)
    : result World :=
  let* seed := generate_seed rnd 8 in
  let derived := derive_key seed in
  Ok {| sim := sim w; routing := routing w;
        movement_manager := movement_manager w;
        simulation_log :=
          simulation_log w ++ [REKEY (now (sim w)) seed derived] |}.

(** *** The topology and the log built by [run_simulation] *)

Definition str (i : nat) : string :=
  NilZero.string_of_uint (Nat.to_uint i).

Definition cluster_name (i : nat) : string := String.append "cluster_" (str i).

Definition add_cluster (g : Graph) (i : nat) : Graph :=
  let g1 := add_node g (cluster_name i)
              (mkNodeData (Some CLUSTER) (Some 2000) (Some 10000)) in
  add_edge g1 "area_leader" (cluster_name i) (mkEdgeData 10 1).

Definition fixed_topology : Graph :=
  fold_left add_cluster (seq 1 3)
    (add_node Nx.empty "area_leader"
       (mkNodeData (Some LEADER) (Some 5000) (Some 4000))).

Definition mobile_node_names : list string :=
  map (fun i => String.append "iot_" (str i)) (seq 0 5).

Definition cluster_names : list string := map cluster_name (seq 1 3).

(** [for name in mobile_node_names: ...] *)
Fixpoint place_mobile (rnd : nat -> nat) (names : list string)
    (g : Graph) (log : list Event) : result (Graph * list Event) :=
  match names with
  | [] => Ok (g, log)
  | name :: names' =>
      let* start_cluster := choice (rnd O) cluster_names in
      let g1 := add_node g name
                  (mkNodeData (Some MOBILE) (Some 1000) (Some 1000)) in
      let g2 := add_edge g1 name start_cluster attachment in
      place_mobile (fun i => rnd (S i)) names' g2
        (log ++ [INITIAL 0 name start_cluster])
  end.

(** The state in which [sim.run] starts; [routing0] is the freshly
    constructed router. *)
Definition run_simulation_setup (rnd : nat -> nat) (routing0 : Routing)
    : result World :=
  let* '(g, log) := place_mobile rnd mobile_node_names fixed_topology [] in
  Ok {| sim := {| G := g; now := 0 |};
        routing := routing0;
        movement_manager := MovementManager_init AI_Monitor_init;
        simulation_log := log |}.

(** *** BroadcastShortestPath.get_path *)

Record Routes : Type := mkRoutes {
  paths : list (list string);
  dst_idDES : list nat;
  warnings : list (string * string)   (* No path from .. to .. *)
}.

(** [for des in DES_dst_list: ...] *)
Fixpoint get_path_loop (g : Graph) (node_src : string)
    (alloc_DES : gmap nat string) (DES_dst_list : list nat) (acc : Routes)
    : result Routes :=
  match DES_dst_list with
  | [] => Ok acc
  | des :: rest =>
      match alloc_DES !! des with
      | None => Raise KeyError
      | Some dst_node =>
          match shortest_path g node_src dst_node with
          | Ok path =>
              get_path_loop g node_src alloc_DES rest
                (mkRoutes (paths acc ++ [path]) (dst_idDES acc ++ [des])
                          (warnings acc))
          | Raise NetworkXNoPath =>
              get_path_loop g node_src alloc_DES rest
                (mkRoutes (paths acc) (dst_idDES acc)
                          (warnings acc ++ [(node_src, dst_node)]))
          | Raise e => Raise e
          end
      end
  end.

Definition get_path (s : Sim) (app_name message_dst topology_src : string)
    (alloc_DES : gmap nat string)
    (alloc_module : gmap string (gmap string (list nat)))
    : result Routes :=
  match alloc_module !! app_name with
  | None => Raise KeyError
  | Some modules =>
      match modules !! message_dst with
      | None => Raise KeyError
      | Some DES_dst_list =>
          get_path_loop (G s) topology_src alloc_DES DES_dst_list
            (mkRoutes [] [] [])
      end
  end.

(** *** The driver's callbacks

    The driver owns the clock, fires the two monitors on their schedules
    and asks the router for paths when a message is sent. *)

Record Send : Type := mkSend {
  app_name : string;
  message_dst : string;
  topology_src : string;
  alloc_DES : gmap nat string;
  alloc_module : gmap string (gmap string (list nat))
}.

Inductive Action : Type :=
| Move (t : Z) (r_node r_cluster : nat)
| Rekey (t : Z) (rnd : nat -> nat)
| Route (t : Z) (m : Send).

Definition time_of (a : Action) : Z :=
  match a with
  | Move t _ _ | Rekey t _ | Route t _ => t
  end.

Definition at_time (w : World) (t : Z) : World :=
  {| sim := {| G := G (sim w); now := t |}; routing := routing w;
     movement_manager := movement_manager w;
     simulation_log := simulation_log w |}.

(** What a router call returned, with the graph it was computed on. *)
Record Routed : Type := mkRouted { graph_then : Graph; routes : Routes }.

Definition step (w : World) (a : Action) : result (World * list Routed) :=
  let w0 := at_time w (time_of a) in
  match a with
  | Move _ r_node r_cluster =>
      let* w' := MovementManager_call w0 r_node r_cluster in Ok (w', [])
  | Rekey _ rnd =>
      let* w' := RekeyingManager_call w0 rnd in Ok (w', [])
  | Route _ m =>
      let* r := get_path (sim w0) (app_name m) (message_dst m)
                  (topology_src m) (alloc_DES m) (alloc_module m) in
      Ok (w0, [mkRouted (G (sim w0)) r])
  end.

Fixpoint run (w : World) (actions : list Action)
    : result (World * list Routed) :=
  match actions with
  | [] => Ok (w, [])
  | a :: actions' =>
      let* '(w1, out1) := step w a in
      let* '(w2, out2) := run w1 actions' in
      Ok (w2, out1 ++ out2)
  end.

End Fog.

Import Fog.

(** ** Notions used in the statements *)

Module Props.

(** The classifier after a sequence of calls, from its initial state. *)
Definition classified (calls : list (string * Z)) : AI_Monitor :=
  fold_left (fun ai c => fst (check_node_movement ai c.1 c.2)) calls
    AI_Monitor_init.

(** The times at which [node] was classified. *)
Definition node_times (node : string) (calls : list (string * Z)) : list Z :=
  map snd (filter (fun c => c.1 = node) calls).

Fixpoint nondecreasing (ts : list Z) : bool :=
  match ts with
  | t1 :: ((t2 :: _) as rest) => (t1 <=? t2)%Z && nondecreasing rest
  | _ => true
  end.

(** The type attribute of a node, if the node exists and has one. *)
Definition kind (g : Graph) (n : string) : option NodeKind :=
  match dict_get g n with
  | Some (d, _) => type d
  | None => None
  end.

Definition neighbor_list (g : Graph) (n : string) : list string :=
  match adj g n with
  | Some a => dict_keys a
  | None => []
  end.

(** The attachment edges of a node: its neighbours of type CLUSTER. *)
Definition attachments (g : Graph) (n : string) : list string :=
  filter (fun v => kind g v = Some CLUSTER) (neighbor_list g n).

(** An edge between [u] and [v], in either adjacency. *)
Definition edge (g : Graph) (u v : string) : Prop :=
  has_edge g u v = true \/ has_edge g v u = true.

(** Every two consecutive nodes of [p] are joined by an edge of [g]. *)
Fixpoint is_path (g : Graph) (p : list string) : Prop :=
  match p with
  | x :: ((y :: _) as rest) => edge g x y /\ is_path g rest
  | _ => True
  end.

(** [p] leads from [s] to [t] along edges of [g]. *)
Definition path_from_to (g : Graph) (s t : string) (p : list string) : Prop :=
  head p = Some s /\ last p = Some t /\ is_path g p.

(** [p] goes along the edge between [u] and [v], in one direction or the
    other. *)
Fixpoint traverses (p : list string) (u v : string) : Prop :=
  match p with
  | x :: ((y :: _) as rest) =>
      (x = u /\ y = v) \/ (x = v /\ y = u) \/ traverses rest u v
  | _ => False
  end.

(** [chain m w l]: following the links of [m] from [w] visits exactly [l]
    and ends at an entry that links to nothing. *)
Inductive chain (m : Links) : string -> list string -> Prop :=
| chain_end w : m !! w = Some None -> chain m w [w]
| chain_link w v l :
    m !! w = Some (Some v) -> chain m v l -> chain m w (w :: l).

(** The state of one side of the search: every entry leads back to [root]
    in at most [size m] steps, along edges of [g]. *)
Definition good (g : Graph) (root : string) (m : Links) : Prop :=
  (forall w, is_Some (m !! w) ->
     exists l, chain m w l /\ (length l <= size m)%nat)
  /\ (forall w, m !! w = Some None -> w = root)
  /\ (forall w v, m !! w = Some (Some v) -> has_edge g v w = true).

Definition known (m : Links) (x : string) : Prop := is_Some (m !! x).

(** The names a search from [s] to [t] can ever record. *)
Definition universe (g : Graph) (s t : string) : gset string :=
  list_to_set (s :: t :: all_neighbors g).

(** The search finds a path from [src] to the node that hosts [des]. *)
Definition routable (g : Graph) (src : string) (alloc : gmap nat string)
    (des : nat) : bool :=
  match alloc !! des with
  | Some n => match shortest_path g src n with Ok _ => true | Raise _ => false end
  | None => false
  end.

(** [des] is placed on a node of the graph. *)
Definition hosted (g : Graph) (alloc : gmap nat string) (des : nat) : Prop :=
  exists n, alloc !! des = Some n /\ has_node g n = true.

(** [p] is the path the search returns for [des]. *)
Definition routed (g : Graph) (src : string) (alloc : gmap nat string)
    (des : nat) (p : list string) : Prop :=
  exists n, alloc !! des = Some n /\ shortest_path g src n = Ok p
            /\ path_from_to g src n p.

(** The attributes of the edge from [u] to [v], if there is one. *)
Definition edge_data (g : Graph) (u v : string) : option EdgeData :=
  match adj g u with
  | Some a => dict_get a v
  | None => None
  end.

(** How many entries the adjacency of [u] holds for [v]. *)
Definition edge_count (g : Graph) (u v : string) : nat :=
  length (filter (fun x => x = v) (neighbor_list g u)).

(** No node and no neighbour is listed twice. *)
Definition simple (g : Graph) : Prop :=
  NoDup (nodes g) /\ Forall (fun '(_, (_, a)) => NoDup (dict_keys a)) g.

(** The place of a mobile node: its first neighbour. *)
Definition place (g : Graph) (n : string) : string :=
  default "" (head (neighbor_list g n)).

(** The node a log record is about. *)
Definition node_of (e : Event) : option string :=
  match e with
  | INITIAL _ n _ => Some n
  | MOVE _ n _ _ _ => Some n
  | REKEY _ _ _ => None
  end.

(** The records of the log that are about [n], in log order. *)
Definition records_of (n : string) (log : list Event) : list Event :=
  filter (fun e => node_of e = Some n) log.

(** Replaying the moves of one node from location [loc]: every record must
    be a MOVE that leaves from where the previous record put the node; the
    result is where the node ends up. *)
Fixpoint replay (loc : string) (records : list Event) : option string :=
  match records with
  | [] => Some loc
  | MOVE _ _ from to _ :: rest =>
      if decide (from = Some loc) then replay to rest else None
  | _ => None
  end.

(** The node attributes in every graph of a simulation run. *)
Definition all_nodes_data : list (string * NodeData) :=
  nodes_data fixed_topology ++
  map (fun n => (n, mkNodeData (Some MOBILE) (Some 1000) (Some 1000)))
    mobile_node_names.

(** Worlds that a run of the simulation can be in. *)
Definition reachable_from (w0 w : World) : Prop :=
  exists actions outs, run w0 actions = Ok (w, outs).

Definition reachable (w : World) : Prop :=
  exists rnd routing0 w0,
    run_simulation_setup rnd routing0 = Ok w0 /\ reachable_from w0 w.

(** Where the run started from [w0] has put the mobile node [n]: it hangs
    on cluster [c] and on nothing else, the Location Map (once seeded) says
    so, and so does the log, whose records for [n] start with INITIAL at
    time 0 at the cluster [n] was attached to in [w0]. *)
Definition placed (w0 w : World) (n c : string) : Prop :=
  c ∈ cluster_names
  /\ neighbor_list (G (sim w)) n = [c]
  /\ has_edge (G (sim w)) c n = true
  /\ (initialized (movement_manager w) = true ->
      node_locations (movement_manager w) !! n = Some c)
  /\ exists c0 rest,
       records_of n (simulation_log w) = INITIAL 0 n c0 :: rest
       /\ attachments (G (sim w0)) n = [c0]
       /\ replay c0 rest = Some c.

Definition manager_ok (mm : MovementManager) : Prop :=
  if initialized mm
  then mobile_nodes mm = mobile_node_names /\ cluster_nodes mm = cluster_names
  else mobile_nodes mm = [] /\ cluster_nodes mm = [] /\ node_locations mm = ∅.

(** The invariant of a run. *)
Definition consistent (w0 w : World) : Prop :=
  nodes_data (G (sim w)) = all_nodes_data
  /\ simple (G (sim w))
  /\ manager_ok (movement_manager w)
  /\ Forall (fun n => exists c, placed w0 w n c) mobile_node_names
  /\ Forall (fun e => forall n, node_of e = Some n -> n ∈ mobile_node_names)
       (simulation_log w).

#[global] Instance Status_eq_dec : EqDecision Status.
Proof. solve_decision. Defined.

#[global] Instance Event_eq_dec : EqDecision Event.
Proof. solve_decision. Defined.

#[global] Instance NodeData_eq_dec : EqDecision NodeData.
Proof. solve_decision. Defined.

(** A computable check of what [run_simulation] has built: the nodes, no
    duplicates, and every mobile node on exactly one cluster, with its
    INITIAL record. *)
Definition placement_ok (g : Graph) (log : list Event) : bool :=
  bool_decide (nodes_data g = all_nodes_data)
  && bool_decide (NoDup (nodes g))
  && forallb (fun '(_, (_, a)) => bool_decide (NoDup (dict_keys a))) g
  && forallb
       (fun n =>
          match neighbor_list g n with
          | [c] =>
              bool_decide (c ∈ cluster_names) && has_edge g c n
              && bool_decide (records_of n log = [INITIAL 0 n c])
          | _ => false
          end)
       mobile_node_names
  && forallb
       (fun e =>
          match node_of e with
          | Some n => bool_decide (n ∈ mobile_node_names)
          | None => true
          end)
       log.

(** Every neighbour is a node of the graph (networkx keeps it so). *)
Definition closedb (g : Graph) : bool :=
  forallb (fun '(_, (_, a)) => forallb (has_node g) (dict_keys a)) g.

(** Character classes, by code point. *)
Definition in_range (lo hi c : ascii) : bool :=
  (N_of_ascii lo <=? N_of_ascii c)%N && (N_of_ascii c <=? N_of_ascii hi)%N.

Definition is_alnum (c : ascii) : bool :=
  in_range "0" "9" c || in_range "A" "Z" c || in_range "a" "z" c.

Definition is_hex (c : ascii) : bool :=
  in_range "0" "9" c || in_range "a" "f" c.

Definition all_chars (p : ascii -> bool) (s : string) : bool :=
  forallb p (list_ascii_of_string s).

(** The time and the type field of a log record. *)
Definition event_time (e : Event) : Z :=
  match e with
  | INITIAL t _ _ | MOVE t _ _ _ _ | REKEY t _ _ => t
  end.

Definition event_type (e : Event) : string :=
  match e with
  | INITIAL _ _ _ => "INITIAL"
  | MOVE _ _ _ _ _ => "MOVE"
  | REKEY _ _ _ => "REKEY"
  end.

Definition stamp (e : Event) : string * Z := (event_type e, event_time e).

(** What the firing of a monitor is expected to leave in the log; a router
    call leaves nothing. *)
Definition firing (a : Action) : option (string * Z) :=
  match a with
  | Move t _ _ => Some ("MOVE", t)
  | Rekey t _ => Some ("REKEY", t)
  | Route _ _ => None
  end.

Definition is_monitor (a : Action) : bool :=
  match a with
  | Route _ _ => false
  | _ => true
  end.

(** The classify calls that the MOVE records of a log stand for. *)
Definition moves_of (log : list Event) : list (string * Z) :=
  omap (fun e => match e with
                 | MOVE t n _ _ _ => Some (n, t)
                 | _ => None
                 end) log.

(** Every MOVE record carries the answer the classifier gives after the
    moves recorded before it. *)
Definition audited (log : list Event) : Prop :=
  forall pre t n from to st post,
    log = pre ++ MOVE t n from to st :: post ->
    st = (check_node_movement (classified (moves_of pre)) n t).2.

(** The Location Map entry of [n] after [initialize] on graph [g], when it
    was [old] before: a MOBILE node gets its first CLUSTER neighbour, if it
    has one. *)
Definition located (g : Graph) (old : gmap string string) (n : string)
    : option string :=
  if decide (kind g n = Some MOBILE) then
    match head (attachments g n) with
    | Some c => Some c
    | None => old !! n
    end
  else old !! n.

(** The adjacency of an undirected graph is symmetric. *)
Definition undirected (g : Graph) : Prop :=
  forall u v, has_edge g u v = true -> has_edge g v u = true.

Definition symmetricb (g : Graph) : bool :=
  forallb (fun '(u, (_, a)) => forallb (fun v => has_edge g v u) (dict_keys a))
    g.

(** The edges [run_simulation] and the Mobility Monitor ever put into the
    graph: leader to cluster with BW 10 and PR 1, mobile node to cluster
    with BW 5 and PR 2, each in both directions. *)
Definition allowed (x y : string) (e : EdgeData) : Prop :=
  (x = "area_leader" /\ y ∈ cluster_names /\ e = mkEdgeData 10 1)
  \/ (y = "area_leader" /\ x ∈ cluster_names /\ e = mkEdgeData 10 1)
  \/ (x ∈ mobile_node_names /\ y ∈ cluster_names /\ e = mkEdgeData 5 2)
  \/ (y ∈ mobile_node_names /\ x ∈ cluster_names /\ e = mkEdgeData 5 2).

Definition only_allowed (g : Graph) : Prop :=
  forall x y e, edge_data g x y = Some e -> allowed x y e.

(** The shape of a graph: its nodes in order and, for each node, its
    neighbours in adjacency order.  Node and edge attributes are left
    out. *)
Definition shape (g : Graph) : list (string * list string) :=
  map (fun '(n, (_, a)) => (n, dict_keys a)) g.

(** One side of the search has looked at the neighbours of every node it
    knows, the nodes still in its fringe apart. *)
Definition expanded (g : Graph) (m : Links) (fringe : list string) : Prop :=
  forall v w, known m v -> v ∉ fringe -> has_edge g v w = true -> known m w.

(** The two sides have not met. *)
Definition apart (m1 m2 : Links) : Prop :=
  forall x, known m1 x -> ~ known m2 x.

(** [x] is at most [k] links away from the root of its side. *)
Definition within (m : Links) (x : string) (k : nat) : Prop :=
  exists l, chain m x l /\ (length l <= S k)%nat.

(** A path of at most [k] edges leads from [root] to [x]. *)
Definition near (g : Graph) (root x : string) (k : nat) : Prop :=
  exists p, path_from_to g root x p /\ (length p <= S k)%nat.

(** One side of the search after [k] levels: it knows the nodes at most
    [k] edges from its root, each at most [k] links away, and has looked at
    the neighbours of all of them but those in the fringe. *)
Definition layered (g : Graph) (root : string) (m : Links)
    (fringe : list string) (k : nat) : Prop :=
  (forall x, known m x -> within m x k)
  /\ Forall (known m) fringe
  /\ expanded g m fringe
  /\ (forall x, near g root x k -> known m x).

End Props.

Import Props.

(** ** Small worlds used as test inputs *)

Module Examples.

Definition world_of (g : Graph) : World :=
  {| sim := {| G := g; now := 0 |};
     routing := {| invalid_cache_value := false |};
     movement_manager := MovementManager_init AI_Monitor_init;
     simulation_log := [] |}.

Definition cluster_data : NodeData :=
  mkNodeData (Some CLUSTER) (Some 2000) (Some 10000).
Definition mobile_data : NodeData :=
  mkNodeData (Some MOBILE) (Some 1000) (Some 1000).

(** One cluster with one mobile node attached to it. *)
Definition one_cluster : Graph :=
  add_edge (add_node (add_node Nx.empty "cluster_1" cluster_data)
              "iot_0" mobile_data)
    "iot_0" "cluster_1" attachment.

(** Two clusters and a mobile node with no edge at all. *)
Definition detached : Graph :=
  add_node (add_node (add_node Nx.empty "cluster_1" cluster_data)
              "cluster_2" cluster_data)
    "iot_0" mobile_data.

(** A mobile node attached to two clusters at once. *)
Definition two_attachments : Graph :=
  add_edge
    (add_edge
       (add_node (add_node (add_node Nx.empty "cluster_1" cluster_data)
                    "cluster_2" cluster_data)
          "iot_0" mobile_data)
       "iot_0" "cluster_1" attachment)
    "iot_0" "cluster_2" (mkEdgeData 7 7).

(** The fixed topology and a mobile node that is attached nowhere. *)
Definition stray : Graph := add_node fixed_topology "iot_0" mobile_data.

(** Instances 1, 2, 3 on the clusters, 4 on the mobile node. *)
Definition placement : gmap nat string :=
  list_to_map [(1%nat, "cluster_1"); (2%nat, "cluster_2");
               (3%nat, "cluster_3"); (4%nat, "iot_0")].

Definition cluster_leaders (DES : list nat) : gmap string (list nat) :=
  {[ "ClusterLeader" := DES ]}.

Definition deployed (DES : list nat) : gmap string (gmap string (list nat)) :=
  {[ "SecureApp" := cluster_leaders DES ]}.

(** A message from the leader to the cluster leaders and one mobile node. *)
Definition broadcast : Send :=
  mkSend "SecureApp" "ClusterLeader" "area_leader" placement
    (deployed [1; 2; 3; 4]%nat).

Definition draws : nat -> nat := fun i => (i * 7 + 1)%nat.

(** The world a run starts in when the random source yields [draws]. *)
Definition start : World :=
  match run_simulation_setup draws (mkRouting false) with
  | Ok w => w
  | Raise _ => world_of Nx.empty
  end.

(** The leader and the three clusters, no mobile node. *)
Definition no_mobile : World := world_of fixed_topology.

(** The world after a first move at time 30. *)
Definition moved : World :=
  match step start (Move 30 0 0) with
  | Ok (w, _) => w
  | Raise _ => start
  end.

(** Four moves of the same node within 300 time units. *)
Definition restless : list Action :=
  [Move 30 0 0; Move 60 0 0; Move 90 0 0; Move 120 0 0].

End Examples.

(** ** The anomaly classifier *)

Section Classifier.

Implicit Types (ai : AI_Monitor) (node : string) (now t : Z).

Lemma recent_app now (l1 l2 : list Z) :
  recent now (l1 ++ l2) = recent now l1 ++ recent now l2.
Proof. apply filter_app. Qed.

Lemma recent_recent now T (l : list Z) :
  now <= T -> recent T (recent now l) = recent T l.
Proof.
  intros Hle. unfold recent. induction l as [|t l IH]; [done|].
  rewrite !filter_cons. destruct (decide (now - t < 300)) as [Hn|Hn].
  - rewrite filter_cons. destruct (decide (T - t < 300)); by rewrite IH.
  - rewrite IH. destruct (decide (T - t < 300)); [lia | done].
Qed.

(** The three assignments of [check_node_movement] amount to one
    update of the node's entry. *)
Lemma check_node_movement_counts ai node now :
  move_counts (check_node_movement ai node now).1 =
  <[node := recent now (default [] (move_counts ai !! node) ++ [now])]>
    (move_counts ai).
Proof.
  unfold check_node_movement.
  set (c0 := match move_counts ai !! node with
             | None => <[node := []]> (move_counts ai)
             | Some _ => move_counts ai end).
  assert (Hc0 : c0 !! node = Some (default [] (move_counts ai !! node))).
  { subst c0. destruct (move_counts ai !! node) eqn:E; simpl; [done|].
    by rewrite lookup_insert_eq. }
  assert (Hc0' : forall k, k <> node -> c0 !! k = move_counts ai !! k).
  { intros k Hk. subst c0. destruct (move_counts ai !! node); [done|].
    by rewrite lookup_insert_ne. }
  match goal with |- context [if ?b then _ else _] => destruct b end; simpl;
    apply map_eq; intros k; destruct (decide (k = node)) as [->|Hk];
    rewrite ?lookup_alter_eq, ?lookup_insert_eq, ?Hc0; try done;
    rewrite !lookup_alter_ne, lookup_insert_ne, ?Hc0' by done; done.
Qed.

Lemma check_node_movement_status ai node now :
  (check_node_movement ai node now).2 =
  if (suspicion_threshold ai <?
      length (recent now (default [] (move_counts ai !! node) ++ [now])))%nat
  then ATTACKER else NORMAL.
Proof.
  pose proof (check_node_movement_counts ai node now) as Hc.
  unfold check_node_movement in *.
  match goal with
  | |- context [alter (recent now) node ?m] =>
      set (c2 := alter (recent now) node m) in *
  end.
  assert (Hl : c2 !! node =
               Some (recent now (default [] (move_counts ai !! node) ++ [now]))).
  { destruct (_ <? _)%nat; simpl in Hc; rewrite Hc; apply lookup_insert_eq. }
  rewrite Hl.
  match goal with
  | |- (if ?b then _ else _).2 = (if ?b' then _ else _) =>
      change b' with b; destruct b; reflexivity
  end.
Qed.

Lemma check_node_movement_threshold ai node now :
  suspicion_threshold (check_node_movement ai node now).1 =
  suspicion_threshold ai.
Proof. unfold check_node_movement. by destruct (_ <? _)%nat. Qed.

Lemma classified_snoc calls node now :
  classified (calls ++ [(node, now)]) =
  (check_node_movement (classified calls) node now).1.
Proof. unfold classified. by rewrite fold_left_app. Qed.

Lemma classified_threshold calls :
  suspicion_threshold (classified calls) = 3%nat.
Proof.
  induction calls as [|[n t] calls IH] using rev_ind; [done|].
  by rewrite classified_snoc, check_node_movement_threshold.
Qed.

Lemma node_times_snoc node calls n t :
  node_times node (calls ++ [(n, t)]) =
  node_times node calls ++ (if decide (n = node) then [t] else []).
Proof.
  unfold node_times. rewrite filter_app, map_app. f_equal.
  rewrite filter_cons, filter_nil. simpl. by destruct (decide (n = node)).
Qed.

Lemma nondecreasing_snoc (ts : list Z) now :
  nondecreasing (ts ++ [now]) = true ->
  nondecreasing ts = true /\ forall t, t ∈ ts -> t <= now.
Proof.
  induction ts as [|t1 ts IH]; simpl.
  - intros _. split; [done|]. intros t Ht. by apply elem_of_nil in Ht.
  - destruct ts as [|t2 ts].
    + simpl. intros H. apply andb_true_iff in H as [H _].
      split; [done|]. intros t Ht. apply list_elem_of_singleton in Ht. lia.
    + intros H. change ((t2 :: ts) ++ [now]) with (t2 :: (ts ++ [now])) in H.
      apply andb_true_iff in H as [H1 H2].
      destruct (IH H2) as [IH1 IH2]. split.
      * apply andb_true_iff. done.
      * intros t Ht. apply elem_of_cons in Ht as [->|Ht]; [|by apply IH2].
        assert (t2 <= now) by (apply IH2; left). lia.
Qed.

(** What is stored agrees with the complete call history on every window
    that ends at or after the last call. *)
Lemma classified_history calls node T :
  nondecreasing (map snd calls) = true ->
  (forall t, t ∈ map snd calls -> t <= T) ->
  recent T (default [] (move_counts (classified calls) !! node)) =
  recent T (node_times node calls).
Proof.
  revert T. induction calls as [|[n now] calls IH] using rev_ind; intros T.
  - done.
  - rewrite map_app. simpl. intros Hs HT.
    apply nondecreasing_snoc in Hs as [Hs Hnow].
    assert (now <= T) by (apply HT, elem_of_app; right; left).
    rewrite classified_snoc, check_node_movement_counts, node_times_snoc.
    destruct (decide (n = node)) as [->|Hn].
    + rewrite lookup_insert_eq. simpl.
      rewrite recent_recent, !recent_app by done. f_equal.
      apply IH; [done|]. intros t Ht. specialize (Hnow t Ht). lia.
    + rewrite lookup_insert_ne, app_nil_r by done.
      apply IH; [done|]. intros t Ht. apply HT, elem_of_app. by left.
Qed.

End Classifier.

(** C2.  After any sequence of classify calls with non-decreasing times, a
    call [check_node_movement node now] appends [now] to the node's
    history, drops every stored [t] with [now - t >= 300], and answers
    ATTACKER exactly when strictly more than 3 entries remain (the entry
    [now] among them), NORMAL otherwise.  The entries that remain are the
    times of all calls for that node, this one included, that lie less
    than 300 before [now]. *)
Theorem check_node_movement_window
    (calls : list (string * Z)) (node : string) (now : Z) :
  nondecreasing (map snd calls ++ [now]) = true ->
  let ai := classified calls in
  let history := default [] (move_counts ai !! node) in
  let kept := filter (fun t => ~ (now - t >= 300)) (history ++ [now]) in
  let r := check_node_movement ai node now in
  move_counts r.1 = <[node := kept]> (move_counts ai)
  /\ now ∈ kept
  /\ kept = filter (fun t => now - t < 300) (node_times node calls ++ [now])
  /\ (r.2 = ATTACKER <-> (3 < length kept)%nat)
  /\ (r.2 = NORMAL <-> (length kept <= 3)%nat).
Proof.
  intros Hs ai history kept r.
  apply nondecreasing_snoc in Hs as [Hs Hnow].
  assert (Hk : kept = recent now (history ++ [now])).
  { subst kept. unfold recent. apply list_filter_iff. intros t. lia. }
  rewrite Hk. split; [apply check_node_movement_counts|].
  split.
  { unfold recent. rewrite filter_app. apply elem_of_app. right.
    rewrite filter_cons, decide_True by lia. left. }
  split.
  { fold (recent now (node_times node calls ++ [now])).
    rewrite !recent_app. f_equal. subst history ai.
    apply classified_history; [done|]. intros t Ht. by apply Hnow. }
  subst r. rewrite check_node_movement_status.
  subst ai. rewrite classified_threshold. fold history.
  destruct (3 <? length (recent now (history ++ [now])))%nat eqn:E.
  - apply Nat.ltb_lt in E. split; split; (done || lia).
  - apply Nat.ltb_ge in E. split; split; (done || lia).
Qed.

(** The scenario of moves at 10, 20, 30 and 40: the fourth is flagged. *)
Lemma check_node_movement_window_witness :
  nondecreasing (map snd [("iot_0", 10); ("iot_0", 20); ("iot_0", 30)] ++ [40])
    = true
  /\ (check_node_movement
        (classified [("iot_0", 10); ("iot_0", 20); ("iot_0", 30)])
        "iot_0" 40).2 = ATTACKER.
Proof.
  split; [reflexivity|].
  apply (check_node_movement_window
           [("iot_0", 10); ("iot_0", 20); ("iot_0", 30)] "iot_0" 40 eq_refl).
  vm_compute. lia.
Defined.

(** ** The rekeying monitor *)

Section Rekeying.

Lemma choice_elem {A} (r : nat) (l : list A) :
  l <> [] -> exists x, choice r l = Ok x /\ x ∈ l.
Proof.
  destruct l as [|a l]; [done|]. intros _. unfold choice. eexists. split; [done|].
  apply list_elem_of_In, nth_In.
  apply Nat.mod_upper_bound. done.
Qed.

Lemma choices_spec {A} (population : list A) (k : nat) :
  population <> [] ->
  forall rnd, exists xs,
    choices rnd population k = Ok xs /\ length xs = k /\
    Forall (fun x => x ∈ population) xs.
Proof.
  intros Hne. induction k as [|k IH]; intros rnd; simpl.
  - exists []. by repeat split.
  - destruct (choice_elem (rnd O) population Hne) as (x & -> & Hx).
    destruct (IH (fun i => rnd (S i))) as (xs & -> & Hl & Hxs). simpl.
    exists (x :: xs). repeat split; [simpl; by f_equal|by constructor].
Qed.

Lemma length_string_of_list_ascii (cs : list ascii) :
  String.length (string_of_list_ascii cs) = length cs.
Proof. induction cs; simpl; by f_equal. Qed.

Lemma alphabet_alnum :
  Forall (fun c => is_alnum c = true)
    (list_ascii_of_string (String.append ascii_letters digits)).
Proof.
  apply Forall_forall. intros c Hc%list_elem_of_In. revert c Hc.
  apply forallb_forall. vm_compute. reflexivity.
Qed.

Lemma generate_seed_spec (rnd : nat -> nat) (k : nat) :
  exists seed, generate_seed rnd k = Ok seed /\
    String.length seed = k /\ all_chars is_alnum seed = true.
Proof.
  unfold generate_seed.
  destruct (choices_spec
              (list_ascii_of_string (String.append ascii_letters digits)) k
              ltac:(done) rnd) as (cs & -> & Hl & Hcs).
  simpl. eexists. split; [done|]. split.
  - by rewrite length_string_of_list_ascii.
  - unfold all_chars. rewrite list_ascii_of_string_of_list_ascii.
    apply forallb_forall. intros c Hc.
    rewrite Forall_forall in Hcs. apply list_elem_of_In, Hcs in Hc.
    pose proof alphabet_alnum as Ha. rewrite Forall_forall in Ha. by apply Ha.
Qed.

Lemma hexdigit_is_hex (d : Z) : is_hex (Hashlib.hexdigit d) = true.
Proof.
  unfold Hashlib.hexdigit.
  assert (H : (Z.to_nat (Z.land d 15) < 16)%nat).
  { change 15 with (Z.ones 4). rewrite Z.land_ones by lia.
    pose proof (Z.mod_pos_bound d (2 ^ 4) ltac:(lia)). lia. }
  revert H. generalize (Z.to_nat (Z.land d 15)). intros n Hn.
  do 16 (destruct n as [|n]; [reflexivity|]). lia.
Qed.

(** The first eight characters of a digest are the first word in
    hexadecimal. *)
Lemma hexdigest_prefix (h : Hashlib.state) :
  substring 0 8 (Hashlib.hexdigest h) = Hashlib.hex8 (Hashlib.ha h) "".
Proof. reflexivity. Qed.

Lemma hex8_hex (x : Z) :
  String.length (Hashlib.hex8 x "") = 8%nat /\
  all_chars is_hex (Hashlib.hex8 x "") = true.
Proof.
  split; [reflexivity|].
  unfold all_chars, Hashlib.hex8. cbn [list_ascii_of_string forallb].
  by rewrite !hexdigit_is_hex.
Qed.

Lemma derive_key_hex (seed : string) :
  String.length (derive_key seed) = 8%nat /\
  all_chars is_hex (derive_key seed) = true.
Proof.
  unfold derive_key. rewrite hexdigest_prefix.
  generalize (Hashlib.ha (Hashlib.sha256 (Hashlib.encode seed))).
  apply hex8_hex.
Qed.

Lemma hexdigest_length (h : Hashlib.state) :
  String.length (Hashlib.hexdigest h) = 64%nat.
Proof. reflexivity. Qed.

End Rekeying.

(** C7.  A Rekeying Monitor invocation returns, and appends exactly one
    record [REKEY now seed key] to the log; the seed has exactly 8
    characters, all alphanumeric, the key is the first 8 hexadecimal
    characters of the SHA-256 digest of the seed; the graph, the router and
    the mobility monitor are left as they were. *)
Theorem RekeyingManager_call_spec (w : World) (rnd : nat -> nat) :
  exists w' seed key,
    RekeyingManager_call w rnd = Ok w'
    /\ simulation_log w' = simulation_log w ++ [REKEY (now (sim w)) seed key]
    /\ String.length seed = 8%nat
    /\ all_chars is_alnum seed = true
    /\ key = substring 0 8
               (Hashlib.hexdigest (Hashlib.sha256 (Hashlib.encode seed)))
    /\ String.length key = 8%nat
    /\ all_chars is_hex key = true
    /\ sim w' = sim w
    /\ routing w' = routing w
    /\ movement_manager w' = movement_manager w.
Proof.
  unfold RekeyingManager_call.
  destruct (generate_seed_spec rnd 8) as (seed & -> & Hl & Ha). simpl.
  eexists _, seed, (derive_key seed). split; [reflexivity|]. simpl.
  destruct (derive_key_hex seed) as [Hk1 Hk2].
  repeat split; done.
Qed.

(** The two seeds of the rekeying scenario and their keys. *)
Example derive_key_ABC12345 : derive_key "ABC12345" = "2221aa19".
Proof. vm_compute. reflexivity. Qed.

Example derive_key_XYZ98765 : derive_key "XYZ98765" = "e3f7ae65".
Proof. vm_compute. reflexivity. Qed.

Example K256_ends :
  length Hashlib.K256 = 64%nat /\ head Hashlib.K256 = Some 0x428a2f98
  /\ last Hashlib.K256 = Some 0xc67178f2.
Proof. vm_compute. auto. Qed.

Example H256_ends :
  head Hashlib.H256 = Some 0x6a09e667 /\ last Hashlib.H256 = Some 0x5be0cd19.
Proof. vm_compute. auto. Qed.

Example sha256_abc :
  Hashlib.hexdigest (Hashlib.sha256 (Hashlib.encode "abc")) =
  "ba7816bf8f01cfea414140de5dae2223b00361a396177a9cb410ff61f20015ad".
Proof. vm_compute. reflexivity. Qed.

(** ** Insertion-ordered dictionaries *)

Section DictFacts.
Context {K V : Type} `{EqDecision K}.
Implicit Types (d : dict K V) (k : K) (v : V).

Lemma dict_get_set_eq d k v : dict_get (dict_set d k v) k = Some v.
Proof.
  induction d as [|[k' v'] d IH]; simpl.
  - by rewrite decide_True.
  - destruct (decide (k' = k)); simpl; [by rewrite decide_True|].
    by rewrite decide_False.
Qed.

Lemma dict_get_set_ne d k k' v :
  k <> k' -> dict_get (dict_set d k v) k' = dict_get d k'.
Proof.
  intros Hne. induction d as [|[k0 v0] d IH]; simpl.
  - by rewrite decide_False.
  - destruct (decide (k0 = k)) as [->|]; simpl.
    + by rewrite !decide_False.
    + by rewrite IH.
Qed.

Lemma dict_get_None d k : dict_get d k = None <-> k ∉ dict_keys d.
Proof.
  unfold dict_keys. induction d as [|[k' v'] d IH]; simpl.
  - split; [intros _; apply not_elem_of_nil|done].
  - rewrite not_elem_of_cons. destruct (decide (k' = k)) as [->|Hne].
    + split; [done|]. by intros [? _].
    + rewrite IH. split; [by split|by intros [_ ?]].
Qed.

Lemma dict_get_Some d k v : dict_get d k = Some v -> (k, v) ∈ d.
Proof.
  induction d as [|[k' v'] d IH]; simpl; [done|].
  destruct (decide (k' = k)) as [->|Hne].
  - intros [= ->]. left.
  - intros H1. right. by apply IH.
Qed.

Lemma dict_has_keys d k : dict_has d k = true <-> k ∈ dict_keys d.
Proof.
  unfold dict_has. destruct (dict_get d k) eqn:E.
  - split; [intros _|done].
    destruct (decide (k ∈ dict_keys d)) as [|Hn]; [done|].
    apply dict_get_None in Hn. congruence.
  - apply dict_get_None in E. split; [done|]. intros. by destruct E.
Qed.

Lemma dict_has_false d k : dict_has d k = false <-> k ∉ dict_keys d.
Proof.
  rewrite <- dict_has_keys. destruct (dict_has d k); split; done.
Qed.

Lemma dict_keys_set_old d k v :
  k ∈ dict_keys d -> dict_keys (dict_set d k v) = dict_keys d.
Proof.
  unfold dict_keys. induction d as [|[k' v'] d IH]; simpl.
  - intros Hk. by apply elem_of_nil in Hk.
  - intros Hk. destruct (decide (k' = k)) as [->|Hne]; simpl; [done|].
    f_equal. apply IH. apply elem_of_cons in Hk as [?|?]; [congruence|done].
Qed.

Lemma dict_keys_set_new d k v :
  k ∉ dict_keys d -> dict_keys (dict_set d k v) = dict_keys d ++ [k].
Proof.
  unfold dict_keys. induction d as [|[k' v'] d IH]; simpl; [done|].
  intros Hk. apply not_elem_of_cons in Hk as [Hne Hk].
  rewrite decide_False by done. simpl. f_equal. by apply IH.
Qed.

Lemma dict_keys_set d k v :
  dict_keys (dict_set d k v) =
  if dict_has d k then dict_keys d else dict_keys d ++ [k].
Proof.
  destruct (dict_has d k) eqn:E.
  - apply dict_keys_set_old. by apply dict_has_keys.
  - apply dict_keys_set_new. by apply dict_has_false.
Qed.

Lemma dict_has_set d k k' v :
  dict_has (dict_set d k v) k' = if decide (k = k') then true else dict_has d k'.
Proof.
  unfold dict_has. destruct (decide (k = k')) as [->|Hne].
  - by rewrite dict_get_set_eq.
  - by rewrite dict_get_set_ne.
Qed.

Lemma dict_get_del_ne d k k' :
  k <> k' -> dict_get (dict_del d k) k' = dict_get d k'.
Proof.
  intros Hne. induction d as [|[k0 v0] d IH]; simpl; [done|].
  destruct (decide (k0 = k)) as [->|]; simpl.
  - by rewrite decide_False.
  - by rewrite IH.
Qed.

Lemma dict_has_del_ne d k k' :
  k <> k' -> dict_has (dict_del d k) k' = dict_has d k'.
Proof. intros. unfold dict_has. by rewrite dict_get_del_ne. Qed.

(** Deleting removes the first entry of that key. *)
Lemma dict_keys_del d k :
  exists l1 l2, (dict_keys d = l1 ++ (k :: l2)
                 /\ dict_keys (dict_del d k) = l1 ++ l2 /\ k ∉ l1)
                \/ ((k ∉ dict_keys d) /\ dict_del d k = d /\ l1 = [] /\ l2 = []).
Proof.
  unfold dict_keys. induction d as [|[k' v'] d IH]; simpl.
  - exists [], []. right. repeat split. apply not_elem_of_nil.
  - destruct (decide (k' = k)) as [->|Hne].
    + exists [], (map fst d). left. repeat split. apply not_elem_of_nil.
    + destruct IH as (l1 & l2 & [(H1 & H2 & H3)|(H1 & H2 & _ & _)]).
      * exists (k' :: l1), l2. left. simpl. rewrite H1, H2.
        repeat split. apply not_elem_of_cons. by split.
      * exists [], []. right. rewrite H2. repeat split.
        apply not_elem_of_cons. by split.
Qed.

Lemma dict_keys_del_NoDup d k :
  NoDup (dict_keys d) ->
  (NoDup (dict_keys (dict_del d k)) /\ k ∉ dict_keys (dict_del d k)).
Proof.
  intros Hnd.
  destruct (dict_keys_del d k) as (l1 & l2 & [(H1 & H2 & H3)|(H1 & H2 & _ & _)]).
  - rewrite H1 in Hnd. rewrite H2.
    apply NoDup_app in Hnd as (Hn1 & Hn2 & Hn3).
    apply NoDup_cons in Hn3 as [Hk Hn3]. split.
    + apply NoDup_app. repeat split; [done| |done].
      intros x Hx Hx2. apply (Hn2 x Hx). by right.
    + rewrite elem_of_app. by intros [?|?].
  - by rewrite H2.
Qed.

Lemma dict_keys_set_NoDup d k v :
  NoDup (dict_keys d) -> NoDup (dict_keys (dict_set d k v)).
Proof.
  intros Hnd. rewrite dict_keys_set. destruct (dict_has d k) eqn:E; [done|].
  apply dict_has_false in E. apply NoDup_app. repeat split; [done| |].
  - intros x Hx Hx2. apply list_elem_of_singleton in Hx2. by subst.
  - apply NoDup_singleton.
Qed.

(** Assigning to an existing key leaves every projection that ignores
    the changed part as it was. *)
Lemma dict_set_map {B} (f : K * V -> B) d k v v0 :
  dict_get d k = Some v0 -> f (k, v) = f (k, v0) ->
  map f (dict_set d k v) = map f d.
Proof.
  intros Hg Hf. induction d as [|[k' v'] d IH]; simpl in *; [done|].
  destruct (decide (k' = k)) as [->|Hne]; simpl.
  - injection Hg as ->. by rewrite Hf.
  - f_equal. by apply IH.
Qed.

End DictFacts.

(** ** Graph operations *)

Section GraphFacts.
Implicit Types (g : Graph) (u v n x : string) (e : EdgeData).

Lemma nodes_data_get g n :
  dict_get (nodes_data g) n = fst <$> dict_get g n.
Proof.
  unfold nodes_data. induction g as [|[k [d a]] g IH]; simpl; [done|].
  destruct (decide (k = n)); [done|apply IH].
Qed.

Lemma nodes_data_kind g g' n :
  nodes_data g = nodes_data g' -> kind g n = kind g' n.
Proof.
  intros Hn. pose proof (nodes_data_get g n) as H1.
  pose proof (nodes_data_get g' n) as H2. rewrite Hn in H1.
  rewrite H1 in H2. unfold kind.
  destruct (dict_get g n) as [[d a]|], (dict_get g' n) as [[d' a']|];
    simpl in H2; congruence.
Qed.

Lemma nodes_data_has_node g g' n :
  nodes_data g = nodes_data g' -> has_node g n = has_node g' n.
Proof.
  intros Hn. pose proof (nodes_data_get g n) as H1.
  pose proof (nodes_data_get g' n) as H2. rewrite Hn in H1.
  rewrite H1 in H2. unfold has_node, dict_has.
  destruct (dict_get g n), (dict_get g' n); simpl in H2; congruence.
Qed.

Lemma nodes_data_node_data g g' n :
  nodes_data g = nodes_data g' -> node_data g n = node_data g' n.
Proof.
  intros Hn. pose proof (nodes_data_get g n) as H1.
  pose proof (nodes_data_get g' n) as H2. rewrite Hn in H1.
  rewrite H1 in H2. unfold node_data.
  destruct (dict_get g n) as [[d a]|], (dict_get g' n) as [[d' a']|];
    simpl in H2; congruence.
Qed.

Lemma has_node_adj g n : has_node g n = true <-> is_Some (adj g n).
Proof.
  unfold has_node, dict_has, adj. destruct (dict_get g n); simpl.
  - split; [eauto|done].
  - split; [done|]. intros [? ?]. done.
Qed.

(** [set_adj] *)
Lemma adj_set_adj g u v e x :
  adj (set_adj g u v e) x =
  if decide (u = x) then (fun a => dict_set a v e) <$> adj g x else adj g x.
Proof.
  unfold set_adj, adj. destruct (dict_get g u) as [[d a]|] eqn:E.
  - destruct (decide (u = x)) as [->|Hne].
    + by rewrite dict_get_set_eq, E.
    + by rewrite dict_get_set_ne.
  - destruct (decide (u = x)) as [->|Hne]; [by rewrite E|done].
Qed.

Lemma nodes_data_set_adj g u v e : nodes_data (set_adj g u v e) = nodes_data g.
Proof.
  unfold set_adj. destruct (dict_get g u) as [[d a]|] eqn:E; [|done].
  unfold nodes_data. by eapply dict_set_map.
Qed.

(** [ensure_node] *)
Lemma ensure_node_old g n : has_node g n = true -> ensure_node g n = g.
Proof. unfold ensure_node. by intros ->. Qed.

Lemma adj_ensure_node g n x :
  adj (ensure_node g n) x =
  if has_node g n then adj g x
  else if decide (n = x) then Some [] else adj g x.
Proof.
  unfold ensure_node. destruct (has_node g n) eqn:E; [done|].
  unfold adj. destruct (decide (n = x)) as [->|Hne].
  - by rewrite dict_get_set_eq.
  - by rewrite dict_get_set_ne.
Qed.

Lemma has_node_ensure_node g n x :
  has_node (ensure_node g n) x = if decide (n = x) then true else has_node g x.
Proof.
  unfold ensure_node. destruct (has_node g n) eqn:E.
  - destruct (decide (n = x)) as [->|]; done.
  - unfold has_node. apply dict_has_set.
Qed.

(** [add_edge] between two existing nodes *)
Lemma add_edge_existing g u v e :
  has_node g u = true -> has_node g v = true ->
  add_edge g u v e = set_adj (set_adj g u v e) v u e.
Proof.
  intros Hu Hv. unfold add_edge.
  by rewrite (ensure_node_old g u Hu), (ensure_node_old g v Hv).
Qed.

Lemma nodes_data_add_edge g u v e :
  has_node g u = true -> has_node g v = true ->
  nodes_data (add_edge g u v e) = nodes_data g.
Proof.
  intros Hu Hv. rewrite add_edge_existing by done.
  by rewrite !nodes_data_set_adj.
Qed.

Lemma adj_add_edge g u v e x :
  has_node g u = true -> has_node g v = true ->
  adj (add_edge g u v e) x =
  (fun a => if decide (v = x) then dict_set a u e else a) <$>
    ((fun a => if decide (u = x) then dict_set a v e else a) <$> adj g x).
Proof.
  intros Hu Hv. rewrite add_edge_existing by done.
  rewrite !adj_set_adj.
  destruct (decide (v = x)), (decide (u = x)); destruct (adj g x); done.
Qed.

(** The edge is there after [add_edge], whatever the graph was. *)
Lemma has_edge_add_edge g u v e :
  has_edge (add_edge g u v e) u v = true /\
  has_edge (add_edge g u v e) v u = true.
Proof.
  unfold add_edge, has_edge.
  assert (Hu : is_Some (adj (ensure_node (ensure_node g u) v) u)).
  { apply has_node_adj. rewrite !has_node_ensure_node.
    rewrite (decide_True (P := u = u)) by done. by destruct (decide (v = u)). }
  assert (Hv : is_Some (adj (ensure_node (ensure_node g u) v) v)).
  { apply has_node_adj. rewrite !has_node_ensure_node.
    by rewrite (decide_True (P := v = v)) by done. }
  destruct Hu as [au Hu], Hv as [av Hv].
  rewrite !adj_set_adj, Hu, Hv.
  rewrite !(decide_True (P := u = u)), !(decide_True (P := v = v)) by done.
  split.
  - destruct (decide (v = u)) as [->|]; simpl;
      rewrite ?dict_has_set, ?decide_True; done.
  - destruct (decide (u = v)) as [->|]; simpl;
      rewrite ?dict_has_set, ?decide_True; done.
Qed.

(** [del_adj] and [remove_edge] *)
Lemma del_adj_Ok g u v g' :
  del_adj g u v = Ok g' ->
  has_edge g u v = true /\ nodes_data g' = nodes_data g /\
  forall x, adj g' x =
    if decide (u = x) then (fun a => dict_del a v) <$> adj g x else adj g x.
Proof.
  unfold del_adj, has_edge, adj.
  destruct (dict_get g u) as [[d a]|] eqn:E; [|done]. simpl.
  destruct (dict_has a v) eqn:Ev; [|done]. intros [= <-].
  split; [done|]. split.
  - unfold nodes_data. by eapply dict_set_map.
  - intros x. destruct (decide (u = x)) as [->|Hne].
    + by rewrite dict_get_set_eq, E.
    + by rewrite dict_get_set_ne.
Qed.

Lemma del_adj_returns g u v :
  has_edge g u v = true -> exists g', del_adj g u v = Ok g'.
Proof.
  unfold del_adj, has_edge, adj.
  destruct (dict_get g u) as [[d a]|] eqn:E; [|done]. simpl.
  intros ->. eauto.
Qed.

Lemma has_edge_adj g u v :
  has_edge g u v = true <-> v ∈ neighbor_list g u.
Proof.
  unfold has_edge, neighbor_list. destruct (adj g u).
  - apply dict_has_keys.
  - split; [done|]. intros H. by apply elem_of_nil in H.
Qed.

End GraphFacts.

(** ** The mobility monitor: one invocation *)

Section Mobility.
Implicit Types (g : Graph) (w : World) (self : MovementManager).

Lemma closedb_spec g u v :
  closedb g = true -> has_edge g u v = true -> has_node g v = true.
Proof.
  unfold closedb, has_edge, adj. intros Hc Hv.
  destruct (dict_get g u) as [[d a]|] eqn:E; [|done]. simpl in Hv.
  apply dict_get_Some, list_elem_of_In in E.
  rewrite forallb_forall in Hc. specialize (Hc _ E). simpl in Hc.
  rewrite forallb_forall in Hc. apply Hc, list_elem_of_In.
  by apply dict_has_keys.
Qed.

Lemma has_edge_has_node g u v : has_edge g u v = true -> has_node g u = true.
Proof.
  unfold has_edge. intros H. apply has_node_adj.
  destruct (adj g u); [eauto|done].
Qed.

Lemma has_edge_ensure_node g n u v :
  has_edge g u v = true -> has_edge (ensure_node g n) u v = true.
Proof.
  intros H. pose proof (has_edge_has_node _ _ _ H) as Hu.
  unfold has_edge in *. rewrite adj_ensure_node.
  destruct (has_node g n) eqn:E; [done|].
  destruct (decide (n = u)) as [->|]; [congruence|done].
Qed.

Lemma has_edge_set_adj g a b e u v :
  has_edge g u v = true -> has_edge (set_adj g a b e) u v = true.
Proof.
  unfold has_edge. rewrite adj_set_adj. destruct (adj g u) as [au|]; [|done].
  destruct (decide (a = u)); simpl; [|done].
  rewrite dict_has_set. intros ->. by destruct (decide (b = v)).
Qed.

(** Adding an edge removes none. *)
Lemma has_edge_add_edge_mono g a b e u v :
  has_edge g u v = true -> has_edge (add_edge g a b e) u v = true.
Proof.
  intros H. unfold add_edge.
  by apply has_edge_set_adj, has_edge_set_adj, has_edge_ensure_node,
    has_edge_ensure_node.
Qed.

(** [initialize] never touches the classifier. *)
Lemma initialize_node_ai g self n d self' :
  initialize_node g self n d = Ok self' -> ai_monitor self' = ai_monitor self.
Proof.
  unfold initialize_node. repeat case_decide.
  - destruct (neighbors g n); simpl; [|done].
    destruct (first_cluster g a); simpl; [|done]. by intros [= <-].
  - by intros [= <-].
  - by intros [= <-].
Qed.

Lemma initialize_loop_ai g items : forall self self',
  initialize_loop g self items = Ok self' -> ai_monitor self' = ai_monitor self.
Proof.
  induction items as [|[n d] items IH]; simpl; intros self self'.
  - by intros [= <-].
  - destruct (initialize_node g self n d) as [s1|] eqn:E; simpl; [|done].
    intros H. rewrite (IH _ _ H). by eapply initialize_node_ai.
Qed.

Lemma ready_ai w self : ready w = Ok self ->
  ai_monitor self = ai_monitor (movement_manager w).
Proof.
  unfold ready, initialize. destruct (initialized (movement_manager w)).
  - by intros [= <-].
  - destruct (initialize_loop _ _ _) as [s1|] eqn:E; simpl; [|done].
    intros [= <-]. simpl. by eapply initialize_loop_ai.
Qed.

Lemma ready_initialized w self :
  initialized (movement_manager w) = true -> ready w = Ok self ->
  self = movement_manager w.
Proof. unfold ready. intros ->. by intros [= <-]. Qed.

(** On a graph closed under neighbours, [initialize] returns. *)
Lemma first_cluster_returns g ns :
  Forall (fun v => has_node g v = true) ns ->
  exists c, first_cluster g ns = Ok c.
Proof.
  induction 1 as [|v ns Hv _ IH]; simpl; [eauto|].
  unfold node_data. unfold has_node, dict_has in Hv.
  destruct (dict_get g v) as [[d a]|]; [|done]. simpl.
  case_decide; eauto.
Qed.

Lemma initialize_node_returns g self n d :
  closedb g = true -> has_node g n = true ->
  exists self', initialize_node g self n d = Ok self'.
Proof.
  intros Hc Hn. unfold initialize_node. repeat case_decide; eauto.
  unfold neighbors. apply has_node_adj in Hn as [a Ha]. rewrite Ha. simpl.
  destruct (first_cluster_returns g (dict_keys a)) as [c ->]; simpl; eauto.
  apply Forall_forall. intros v Hv. apply (closedb_spec g n v Hc).
  unfold has_edge. rewrite Ha. by apply dict_has_keys.
Qed.

Lemma initialize_loop_returns g items :
  closedb g = true ->
  Forall (fun item => has_node g item.1 = true) items ->
  forall self, exists self', initialize_loop g self items = Ok self'.
Proof.
  intros Hc. induction 1 as [|[n d] items Hn _ IH]; simpl; intros self; [eauto|].
  destruct (initialize_node_returns g self n d Hc Hn) as [s1 ->]. simpl.
  apply IH.
Qed.

Lemma nodes_data_has_node_all g :
  Forall (fun item => has_node g item.1 = true) (nodes_data g).
Proof.
  apply Forall_forall. intros [n d] Hin. simpl.
  apply dict_has_keys. unfold nodes_data in Hin.
  apply list_elem_of_fmap in Hin as ([n' [d' a]] & Heq & Hin).
  injection Heq as -> ->. unfold dict_keys.
  apply list_elem_of_fmap. by exists (n', (d', a)).
Qed.

Lemma ready_returns w :
  closedb (G (sim w)) = true -> exists self, ready w = Ok self.
Proof.
  intros Hc. unfold ready, initialize.
  destruct (initialized (movement_manager w)); [eauto|].
  destruct (initialize_loop_returns (G (sim w)) (nodes_data (G (sim w))) Hc
              (nodes_data_has_node_all _) (movement_manager w)) as [s1 ->].
  simpl. eauto.
Qed.

(** The two early returns of [__call__]. *)
Lemma MovementManager_call_idle w r_node r_cluster self :
  ready w = Ok self ->
  (mobile_nodes self = [] \/
   exists node, choice r_node (mobile_nodes self) = Ok node /\
     forall c, c ∈ cluster_nodes self -> Some c = node_locations self !! node) ->
  MovementManager_call w r_node r_cluster = Ok (with_manager w self).
Proof.
  intros Hr Hcase. unfold MovementManager_call. rewrite Hr. simpl.
  destruct Hcase as [->|(node & Hn & Hall)]; [done|].
  destruct (mobile_nodes self) as [|m ms] eqn:Em; [done|].
  rewrite Hn. simpl.
  assert (Hf : filter (fun c => Some c <> node_locations self !! node)
                 (cluster_nodes self) = []).
  { induction (cluster_nodes self) as [|c cs IH]; [done|].
    rewrite filter_cons, decide_False.
    - apply IH. intros c' Hc'. apply Hall. by right.
    - intros Hne. apply Hne, Hall. left. }
  by rewrite Hf.
Qed.

End Mobility.

(** C8 (amended).  When, after the one-time initialisation, the monitor
    knows no MOBILE node, or every cluster it knows is the chosen node's
    current cluster, the invocation returns and leaves the event log, the
    simulation (graph and clock), the router flag and the classifier as
    they were; the monitor it leaves is the initialised one, so that an
    invocation of an already initialised monitor changes nothing at all,
    the Location Map included. *)
Theorem MovementManager_call_noop
    (w : World) (r_node r_cluster : nat) (self : MovementManager) :
  ready w = Ok self ->
  (mobile_nodes self = [] \/
   exists node, choice r_node (mobile_nodes self) = Ok node /\
     forall c, c ∈ cluster_nodes self -> Some c = node_locations self !! node) ->
  exists w',
    MovementManager_call w r_node r_cluster = Ok w'
    /\ simulation_log w' = simulation_log w
    /\ sim w' = sim w
    /\ routing w' = routing w
    /\ ai_monitor (movement_manager w') = ai_monitor (movement_manager w)
    /\ movement_manager w' = self
    /\ (initialized (movement_manager w) = true -> w' = w).
Proof.
  intros Hr Hcase. exists (with_manager w self).
  split; [by apply MovementManager_call_idle|].
  repeat split; simpl.
  - by apply ready_ai.
  - intros Hi. rewrite (ready_initialized w self Hi Hr). by destruct w.
Qed.

Lemma MovementManager_call_noop_witness :
  exists w',
    MovementManager_call Examples.no_mobile 0 0 = Ok w'
    /\ simulation_log w' = simulation_log Examples.no_mobile
    /\ sim w' = sim Examples.no_mobile.
Proof.
  destruct (MovementManager_call_noop Examples.no_mobile 0 0
              {| ai_monitor := AI_Monitor_init; mobile_nodes := [];
                 cluster_nodes := cluster_names; initialized := true;
                 node_locations := ∅ |}
              eq_refl (or_introl eq_refl)) as (w' & H1 & H2 & H3 & _).
  exists w'. repeat split; assumption.
Defined.

(** C8 as stated fails on the first invocation: with a single cluster and
    a mobile node attached to it there is no other cluster to move to, the
    invocation logs nothing and leaves the graph alone, but it fills the
    Location Map. *)
Lemma MovementManager_call_noop_seeds_locations :
  let w := Examples.world_of Examples.one_cluster in
  exists w',
    MovementManager_call w 0 0 = Ok w'
    /\ attachments (G (sim w)) "iot_0" = ["cluster_1"]
    /\ cluster_nodes (movement_manager w') = ["cluster_1"]
    /\ simulation_log w' = simulation_log w
    /\ G (sim w') = G (sim w)
    /\ node_locations (movement_manager w) !! "iot_0" = None
    /\ node_locations (movement_manager w') !! "iot_0" = Some "cluster_1"
    /\ node_locations (movement_manager w')
       <> node_locations (movement_manager w).
Proof.
  eexists. split; [vm_compute; reflexivity|].
  repeat split; try (vm_compute; reflexivity).
  intros H. apply (f_equal (fun m : gmap string string => m !! "iot_0")) in H.
  vm_compute in H. discriminate.
Qed.

Lemma filter_not_None (o : option string) (cs : list string) :
  o = None -> filter (fun c => Some c <> o) cs = cs.
Proof.
  intros ->. induction cs as [|c cs IH]; [done|].
  by rewrite filter_cons, decide_True, IH.
Qed.

(** C10.  On a graph closed under neighbours the invocation returns even
    when the chosen MOBILE node has no entry in the Location Map: all
    clusters are candidates, the target is drawn among all of them, no edge
    is removed, the MOVE record carries no [from], the new attachment edge
    is added and the Location Map is updated. *)
Theorem MovementManager_call_unlocated (w : World) (r_node r_cluster : nat) :
  closedb (G (sim w)) = true ->
  exists self,
    ready w = Ok self /\
    forall node,
      choice r_node (mobile_nodes self) = Ok node ->
      node_locations self !! node = None ->
      cluster_nodes self <> [] ->
      exists target w',
        choice r_cluster (cluster_nodes self) = Ok target
        /\ MovementManager_call w r_node r_cluster = Ok w'
        /\ G (sim w') = add_edge (G (sim w)) node target attachment
        /\ (forall u v, has_edge (G (sim w)) u v = true ->
                        has_edge (G (sim w')) u v = true)
        /\ has_edge (G (sim w')) node target = true
        /\ simulation_log w' =
             simulation_log w ++
             [MOVE (now (sim w)) node None target
                (check_node_movement (ai_monitor self) node (now (sim w))).2]
        /\ node_locations (movement_manager w') =
             <[node := target]> (node_locations self).
Proof.
  intros Hc. destruct (ready_returns w Hc) as [self Hr].
  exists self. split; [done|]. intros node Hn Hloc Hcl.
  destruct (choice_elem r_cluster (cluster_nodes self) Hcl) as (target & Ht & _).
  unfold MovementManager_call. rewrite Hr. simpl.
  destruct (mobile_nodes self) as [|m ms] eqn:Em; [done|].
  rewrite Hn. simpl. rewrite (filter_not_None _ _ Hloc), Hloc.
  destruct (cluster_nodes self) as [|c cs] eqn:Ec; [done|].
  rewrite Ht. simpl.
  destruct (check_node_movement (ai_monitor self) node (now (sim w)))
    as [ai st] eqn:Eai. simpl.
  eexists target, _. split; [done|]. split; [done|]. simpl.
  repeat split.
  - intros u v. apply has_edge_add_edge_mono.
  - apply has_edge_add_edge.
Qed.

Lemma MovementManager_call_unlocated_witness :
  closedb (G (sim (Examples.world_of Examples.detached))) = true
  /\ exists w',
       MovementManager_call (Examples.world_of Examples.detached) 0 1 = Ok w'
       /\ simulation_log w' = [MOVE 0 "iot_0" None "cluster_2" NORMAL]
       /\ has_edge (G (sim w')) "iot_0" "cluster_2" = true.
Proof.
  split; [reflexivity|].
  destruct (MovementManager_call_unlocated
              (Examples.world_of Examples.detached) 0 1 eq_refl)
    as (self & Hr & H).
  vm_compute in Hr. injection Hr as <-.
  destruct (H "iot_0" eq_refl eq_refl ltac:(discriminate))
    as (target & w' & Ht & Hcall & _ & _ & He & Hlog & _).
  vm_compute in Ht. injection Ht as <-.
  exists w'. split; [exact Hcall|]. split; [exact Hlog|exact He].
Defined.

(** ** Simple graphs: at most one edge per pair *)

Section Simple.
Implicit Types (g : Graph) (u v n x : string) (e : EdgeData).

Lemma Forall_dict_set {V} (P : string * V -> Prop) (d : dict string V)
    (k : string) (val : V) :
  Forall P d -> P (k, val) -> Forall P (dict_set d k val).
Proof.
  intros Hd Hk. induction Hd as [|[k' v'] d Hx Hd IH]; simpl.
  - by constructor.
  - destruct (decide (k' = k)) as [->|]; constructor; done.
Qed.

Lemma Forall_dict_get {V} (P : string * V -> Prop) (d : dict string V)
    (k : string) (val : V) :
  Forall P d -> dict_get d k = Some val -> P (k, val).
Proof.
  intros Hd Hg. apply dict_get_Some in Hg.
  rewrite Forall_forall in Hd. by apply Hd.
Qed.

Lemma simple_empty : simple Nx.empty.
Proof. split; constructor. Qed.

Lemma simple_add_node g n d : simple g -> simple (add_node g n d).
Proof.
  intros [Hn Ha]. unfold add_node.
  destruct (dict_get g n) as [[d0 a]|] eqn:E; split.
  - by apply dict_keys_set_NoDup.
  - apply Forall_dict_set; [done|]. by apply (Forall_dict_get _ _ _ _ Ha E).
  - by apply dict_keys_set_NoDup.
  - apply Forall_dict_set; [done|]. constructor.
Qed.

Lemma simple_ensure_node g n : simple g -> simple (ensure_node g n).
Proof.
  intros [Hn Ha]. unfold ensure_node. destruct (has_node g n); [done|]. split.
  - by apply dict_keys_set_NoDup.
  - apply Forall_dict_set; [done|]. constructor.
Qed.

Lemma simple_set_adj g u v e : simple g -> simple (set_adj g u v e).
Proof.
  intros [Hn Ha]. unfold set_adj.
  destruct (dict_get g u) as [[d a]|] eqn:E; [|done]. split.
  - by apply dict_keys_set_NoDup.
  - apply Forall_dict_set; [done|]. apply dict_keys_set_NoDup.
    by apply (Forall_dict_get _ _ _ _ Ha E).
Qed.

Lemma simple_add_edge g u v e : simple g -> simple (add_edge g u v e).
Proof.
  intros H. unfold add_edge.
  by apply simple_set_adj, simple_set_adj, simple_ensure_node,
    simple_ensure_node.
Qed.

Lemma simple_del_adj g u v g' : simple g -> del_adj g u v = Ok g' -> simple g'.
Proof.
  intros [Hn Ha]. unfold del_adj.
  destruct (dict_get g u) as [[d a]|] eqn:E; [|done].
  destruct (dict_has a v); [|done]. intros [= <-]. split.
  - by apply dict_keys_set_NoDup.
  - apply Forall_dict_set; [done|]. apply dict_keys_del_NoDup.
    by apply (Forall_dict_get _ _ _ _ Ha E).
Qed.

Lemma simple_remove_edge g u v g' :
  simple g -> remove_edge g u v = Ok g' -> simple g'.
Proof.
  intros Hs. unfold remove_edge.
  destruct (del_adj g u v) as [g1|] eqn:E1; simpl; [|done].
  pose proof (simple_del_adj _ _ _ _ Hs E1) as Hs1.
  case_decide; [by intros [= <-]|]. by apply simple_del_adj.
Qed.

Lemma filter_eq_absent (l : list string) v :
  v ∉ l -> filter (fun x => x = v) l = [].
Proof.
  induction l as [|y l IH]; [done|]. intros [Hne Hx]%not_elem_of_cons.
  rewrite filter_cons, decide_False by done. by apply IH.
Qed.

Lemma NoDup_filter_eq_length (l : list string) v :
  NoDup l -> (length (filter (fun x => x = v) l) <= 1)%nat.
Proof.
  induction 1 as [|x l Hx Hnd IH]; [simpl; lia|].
  rewrite filter_cons. case_decide as Hxv; [|done]. subst x. simpl.
  rewrite filter_eq_absent by done. simpl. lia.
Qed.

Lemma simple_edge_count g u v : simple g -> (edge_count g u v <= 1)%nat.
Proof.
  intros [_ Ha]. unfold edge_count, neighbor_list, adj.
  destruct (dict_get g u) as [[d a]|] eqn:E; simpl; [|lia].
  apply NoDup_filter_eq_length. by apply (Forall_dict_get _ _ _ _ Ha E).
Qed.

(** Adding an edge that is already there changes no adjacency list. *)
Lemma neighbor_list_add_edge_present g u v e x :
  has_edge g u v = true -> has_edge g v u = true ->
  neighbor_list (add_edge g u v e) x = neighbor_list g x.
Proof.
  intros Huv Hvu.
  pose proof (has_edge_has_node _ _ _ Huv) as Hu.
  pose proof (has_edge_has_node _ _ _ Hvu) as Hv.
  unfold neighbor_list. rewrite adj_add_edge by done.
  unfold has_edge in Huv, Hvu.
  destruct (adj g x) as [a|] eqn:Ea; simpl; [|done].
  destruct (decide (u = x)) as [->|Hux], (decide (v = x)) as [->|Hvx];
    rewrite ?Ea in *; rewrite ?dict_keys_set, ?dict_has_set, ?Huv, ?Hvu;
    repeat case_decide; done.
Qed.

Lemma edge_data_add_edge g u v e :
  edge_data (add_edge g u v e) u v = Some e /\
  edge_data (add_edge g u v e) v u = Some e.
Proof.
  unfold add_edge, edge_data.
  assert (Hu : is_Some (adj (ensure_node (ensure_node g u) v) u)).
  { apply has_node_adj. rewrite !has_node_ensure_node.
    rewrite (decide_True (P := u = u)) by done. by destruct (decide (v = u)). }
  assert (Hv : is_Some (adj (ensure_node (ensure_node g u) v) v)).
  { apply has_node_adj. rewrite !has_node_ensure_node.
    by rewrite (decide_True (P := v = v)) by done. }
  destruct Hu as [au Hu], Hv as [av Hv].
  rewrite !adj_set_adj, Hu, Hv.
  rewrite !(decide_True (P := u = u)), !(decide_True (P := v = v)) by done.
  split.
  - destruct (decide (v = u)) as [->|]; simpl; by rewrite dict_get_set_eq.
  - destruct (decide (u = v)) as [->|]; simpl; by rewrite dict_get_set_eq.
Qed.

End Simple.

(** C5 (amended).  In a graph that lists no node and no neighbour twice,
    no pair of nodes has more than one edge, and [add_node], [add_edge] and
    [remove_edge] keep it that way; [add_edge] on a pair that already has
    an edge does not fail: nodes and adjacency lists stay as they are and
    the edge takes the new attributes. *)
Theorem add_edge_existing_overwrites (g : Graph) (u v : string) (e : EdgeData) :
  simple g ->
  (forall a b, (edge_count g a b <= 1)%nat)
  /\ (forall n d, simple (add_node g n d))
  /\ (forall a b e', simple (add_edge g a b e'))
  /\ (forall a b g', remove_edge g a b = Ok g' -> simple g')
  /\ (has_edge g u v = true -> has_edge g v u = true ->
      nodes_data (add_edge g u v e) = nodes_data g
      /\ (forall x, neighbor_list (add_edge g u v e) x = neighbor_list g x)
      /\ edge_data (add_edge g u v e) u v = Some e
      /\ edge_data (add_edge g u v e) v u = Some e).
Proof.
  intros Hs. split; [intros; by apply simple_edge_count|].
  split; [intros; by apply simple_add_node|].
  split; [intros; by apply simple_add_edge|].
  split; [intros a b g'; by apply simple_remove_edge|].
  intros Huv Hvu. split.
  - apply nodes_data_add_edge; by eapply has_edge_has_node.
  - split; [intros; by apply neighbor_list_add_edge_present|].
    apply edge_data_add_edge.
Qed.

Lemma add_edge_existing_overwrites_witness :
  simple Examples.two_attachments
  /\ edge_data Examples.two_attachments "iot_0" "cluster_2"
     = Some (mkEdgeData 7 7)
  /\ edge_data (add_edge Examples.two_attachments "iot_0" "cluster_2" attachment)
       "iot_0" "cluster_2" = Some attachment
  /\ (edge_count (add_edge Examples.two_attachments "iot_0" "cluster_2" attachment)
        "iot_0" "cluster_2" <= 1)%nat.
Proof.
  assert (Hs : simple Examples.two_attachments).
  { unfold Examples.two_attachments.
    repeat (apply simple_add_edge || apply simple_add_node).
    apply simple_empty. }
  split; [exact Hs|]. split; [reflexivity|].
  destruct (add_edge_existing_overwrites Examples.two_attachments
              "iot_0" "cluster_2" attachment Hs) as (_ & _ & Hadd & _ & H).
  destruct (H eq_refl eq_refl) as (_ & _ & Hd & _).
  split; [exact Hd|].
  apply (add_edge_existing_overwrites _ "iot_0" "cluster_2" attachment
           (Hadd "iot_0" "cluster_2" attachment)).
Defined.

(** C5 as stated fails: a move onto a cluster the node already has an edge
    to runs [add_edge] on an existing edge; the invocation returns, the
    MOVE is logged and the edge has the new attributes. *)
Lemma MovementManager_call_existing_edge :
  let w := Examples.world_of Examples.two_attachments in
  has_edge (G (sim w)) "iot_0" "cluster_2" = true
  /\ exists w',
       MovementManager_call w 0 0 = Ok w'
       /\ simulation_log w' =
            [MOVE 0 "iot_0" (Some "cluster_1") "cluster_2" NORMAL]
       /\ edge_data (G (sim w)) "iot_0" "cluster_2" = Some (mkEdgeData 7 7)
       /\ edge_data (G (sim w')) "iot_0" "cluster_2" = Some attachment.
Proof.
  split; [reflexivity|]. eexists. split; [vm_compute; reflexivity|].
  repeat split; vm_compute; reflexivity.
Qed.

(** ** Paths *)

Section Paths.
Implicit Types (g : Graph) (p q : list string) (u v x y : string).

Lemma edge_sym g u v : edge g u v -> edge g v u.
Proof. unfold edge. tauto. Qed.

Lemma is_path_cons g x p :
  is_path g (x :: p) <->
  match p with [] => True | y :: _ => edge g x y /\ is_path g p end.
Proof. destruct p; simpl; tauto. Qed.

Lemma is_path_app g p q :
  is_path g p -> is_path g q ->
  (forall x y, last p = Some x -> head q = Some y -> edge g x y) ->
  is_path g (p ++ q).
Proof.
  induction p as [|a p IH]; intros Hp Hq Hj; [done|].
  destruct p as [|b p].
  - simpl. destruct q as [|c q]; [done|]. split; [|done]. by apply Hj.
  - change ((a :: b :: p) ++ q) with (a :: ((b :: p) ++ q)).
    destruct Hp as [Hab Hp]. apply is_path_cons. simpl. split; [done|].
    apply IH; [done|done|]. intros x y Hx Hy. apply Hj; [|done].
    by rewrite last_cons_cons.
Qed.

Lemma is_path_snoc g p x y :
  is_path g p -> last p = Some x -> edge g x y -> is_path g (p ++ [y]).
Proof.
  intros Hp Hl He. apply is_path_app; [done|done|].
  intros a b Ha Hb. simpl in Hb. congruence.
Qed.

Lemma is_path_reverse g p : is_path g p -> is_path g (reverse p).
Proof.
  induction p as [|a p IH]; [done|]. intros Hp. rewrite reverse_cons.
  destruct p as [|b p]; [done|]. destruct Hp as [Hab Hp].
  apply is_path_snoc with (x := b); [by apply IH| |by apply edge_sym].
  by rewrite last_reverse.
Qed.

Lemma is_path_not_traverses g p u v :
  is_path g p -> ~ edge g u v -> ~ traverses p u v.
Proof.
  intros Hp Hn. induction p as [|a p IH]; [simpl; tauto|].
  destruct p as [|b p]; [simpl; tauto|]. destruct Hp as [Hab Hp].
  intros [[-> ->]|[[-> ->]|Ht]]; [done|by apply Hn, edge_sym|by apply IH].
Qed.

End Paths.

(** ** Soundness of the bidirectional search *)

Section SearchSound.
Implicit Types (g : Graph) (m mine other pred succ : Links).
Implicit Types (u v w x root : string) (l fringe : list string).

Lemma chain_head m w l : chain m w l -> head l = Some w.
Proof. by destruct 1. Qed.

Lemma chain_known m w l : chain m w l -> known m w.
Proof. unfold known. destruct 1; eauto. Qed.

Lemma chain_insert m w l x o :
  m !! x = None -> chain m w l -> chain (<[x := o]> m) w l.
Proof.
  intros Hx. induction 1 as [w Hw|w v l Hw _ IH].
  - apply chain_end. rewrite lookup_insert_ne; [done|]. congruence.
  - apply chain_link with v; [|done].
    rewrite lookup_insert_ne; [done|]. congruence.
Qed.

Lemma chain_last g root m w l :
  good g root m -> chain m w l -> last l = Some root.
Proof.
  intros (_ & Hroot & _). induction 1 as [w Hw|w v l Hw Hc IH].
  - simpl. f_equal. by apply Hroot.
  - destruct Hc; by rewrite last_cons_cons.
Qed.

(** Read from [w] towards the root, a chain is a path. *)
Lemma chain_is_path g root m w l :
  good g root m -> chain m w l -> is_path g l.
Proof.
  intros (_ & _ & Hedge). induction 1 as [w Hw|w v l Hw Hc IH]; [done|].
  apply is_path_cons. pose proof (chain_head _ _ _ Hc) as Hh.
  destruct l as [|y l]; [done|]. injection Hh as ->.
  split; [|done]. right. by apply Hedge.
Qed.

Lemma follow_chain m w l fuel :
  chain m w l -> (length l <= fuel)%nat -> follow fuel m (Some w) = Ok l.
Proof.
  intros Hc. revert fuel. induction Hc as [w Hw|w v l Hw Hc IH]; intros fuel Hf.
  - destruct fuel as [|fuel]; [simpl in Hf; lia|]. simpl. rewrite Hw.
    by destruct fuel.
  - destruct fuel as [|fuel]; [simpl in Hf; lia|]. simpl. rewrite Hw.
    rewrite IH by (simpl in Hf; lia). done.
Qed.

Lemma good_singleton g root : good g root {[root := None]}.
Proof.
  split; [|split].
  - intros w [o Hw]. apply lookup_singleton_Some in Hw as [<- <-].
    exists [root]. split; [|rewrite map_size_singleton; simpl; lia].
    apply chain_end. apply lookup_singleton_eq.
  - intros w Hw. by apply lookup_singleton_Some in Hw as [<- _].
  - intros w v Hw. by apply lookup_singleton_Some in Hw as [_ ?].
Qed.

Lemma good_insert g root m v w :
  good g root m -> m !! w = None -> known m v -> has_edge g v w = true ->
  good g root (<[w := Some v]> m).
Proof.
  intros (Hchain & Hroot & Hedge) Hw Hv Hvw. split; [|split].
  - intros x Hx. rewrite map_size_insert_None by done.
    destruct (decide (x = w)) as [->|Hne].
    + destruct (Hchain v Hv) as (l & Hl & Hlen). exists (w :: l). split.
      * apply chain_link with v; [apply lookup_insert_eq|].
        by apply chain_insert.
      * simpl. lia.
    + rewrite lookup_insert_ne in Hx by done.
      destruct (Hchain x Hx) as (l & Hl & Hlen). exists l. split.
      * by apply chain_insert.
      * lia.
  - intros x Hx. destruct (decide (x = w)) as [->|Hne].
    + by rewrite lookup_insert_eq in Hx.
    + rewrite lookup_insert_ne in Hx by done. by apply Hroot.
  - intros x y Hx. destruct (decide (x = w)) as [->|Hne].
    + rewrite lookup_insert_eq in Hx. by injection Hx as <-.
    + rewrite lookup_insert_ne in Hx by done. by apply Hedge.
Qed.

(** One adjacency list. *)
Lemma scan_adj_good g root v ws : forall mine other fringe,
  good g root mine -> known mine v ->
  Forall (fun w => has_edge g v w = true) ws ->
  Forall (known mine) fringe ->
  match scan_adj v ws mine other fringe with
  | Meet mine' w => good g root mine' /\ known mine' w /\ known other w
  | Next mine' fringe' =>
      good g root mine' /\ Forall (known mine') fringe' /\
      (forall x, known mine x -> known mine' x)
  end.
Proof.
  induction ws as [|w ws IH]; intros mine other fringe Hg Hv Hws Hf; simpl.
  - done.
  - apply Forall_cons in Hws as [Hw Hws].
    destruct (mine !! w) as [o|] eqn:Emine.
    + destruct (other !! w) eqn:Eother.
      * split; [done|]. unfold known. rewrite Emine, Eother. eauto.
      * by apply IH.
    + assert (Hg' : good g root (<[w := Some v]> mine)) by by apply good_insert.
      assert (Hmono : forall x, known mine x -> known (<[w := Some v]> mine) x).
      { intros x [o Hx]. unfold known. rewrite lookup_insert_ne; [by eexists|].
        congruence. }
      assert (Hkw : known (<[w := Some v]> mine) w).
      { unfold known. rewrite lookup_insert_eq. by eexists. }
      destruct (other !! w) eqn:Eother.
      * split; [done|]. split; [done|]. unfold known. rewrite Eother. eauto.
      * specialize (IH (<[w := Some v]> mine) other (fringe ++ [w]) Hg'
                      (Hmono v Hv) Hws).
        destruct (scan_adj v ws (<[w := Some v]> mine) other (fringe ++ [w])).
        -- apply IH. apply Forall_app. split; [|by constructor].
           eapply Forall_impl; [exact Hf|]. exact Hmono.
        -- destruct IH as (H1 & H2 & H3).
           { apply Forall_app. split; [|by constructor].
             eapply Forall_impl; [exact Hf|]. exact Hmono. }
           split; [done|]. split; [done|]. intros x Hx. by apply H3, Hmono.
Qed.

Lemma adj_keys_has_edge g v a :
  adj g v = Some a -> Forall (fun w => has_edge g v w = true) (dict_keys a).
Proof.
  intros Ha. apply Forall_forall. intros w Hw. unfold has_edge. rewrite Ha.
  by apply dict_has_keys.
Qed.

(** One level. *)
Lemma scan_level_good g root level : forall mine other fringe r,
  good g root mine -> Forall (known mine) level ->
  Forall (known mine) fringe ->
  scan_level g level mine other fringe = Ok r ->
  match r with
  | Meet mine' w => good g root mine' /\ known mine' w /\ known other w
  | Next mine' fringe' =>
      good g root mine' /\ Forall (known mine') fringe' /\
      (forall x, known mine x -> known mine' x)
  end.
Proof.
  induction level as [|v level IH]; intros mine other fringe r Hg Hl Hf; simpl.
  - intros [= <-]. done.
  - apply Forall_cons in Hl as [Hv Hl].
    destruct (adj g v) as [a|] eqn:Ea; [|done].
    pose proof (scan_adj_good g root v (dict_keys a) mine other fringe Hg Hv
                  (adj_keys_has_edge _ _ _ Ea) Hf) as Hscan.
    destruct (scan_adj v (dict_keys a) mine other fringe) as [m' w|m' f'].
    + by intros [= <-].
    + destruct Hscan as (H1 & H2 & H3). intros Hr.
      specialize (IH m' other f' r H1).
      destruct r as [m'' w|m'' f''].
      * apply IH; [|done|done]. eapply Forall_impl; [exact Hl|]. exact H3.
      * destruct IH as (I1 & I2 & I3); [|done|done|].
        { eapply Forall_impl; [exact Hl|]. exact H3. }
        split; [done|]. split; [done|]. intros x Hx. by apply I3, H3.
Qed.

(** The whole search: where the two sides meet, both know the node. *)
Lemma search_good g source target fuel : forall pred succ ff rf pred' succ' w,
  good g source pred -> good g target succ ->
  Forall (known pred) ff -> Forall (known succ) rf ->
  search fuel g pred succ ff rf = Ok (pred', succ', w) ->
  good g source pred' /\ good g target succ' /\ known pred' w /\ known succ' w.
Proof.
  induction fuel as [|fuel IH]; intros pred succ ff rf pred' succ' w Hp Hs Hff Hrf.
  - simpl. by destruct ff, rf.
  - simpl. destruct ff as [|f0 ff]; [done|]. destruct rf as [|r0 rf]; [done|].
    destruct (length (f0 :: ff) <=? length (r0 :: rf))%nat.
    + destruct (scan_level g (f0 :: ff) pred succ []) as [r|] eqn:E; [|done].
      simpl. pose proof (scan_level_good g source _ _ _ _ _ Hp Hff
                           (Forall_nil_2 _) E) as Hr.
      destruct r as [p1 w1|p1 f1].
      * intros [= <- <- <-]. tauto.
      * destruct Hr as (H1 & H2 & H3). by apply IH.
    + destruct (scan_level g (r0 :: rf) succ pred []) as [r|] eqn:E; [|done].
      simpl. pose proof (scan_level_good g target _ _ _ _ _ Hs Hrf
                           (Forall_nil_2 _) E) as Hr.
      destruct r as [s1 w1|s1 f1].
      * intros [= <- <- <-]. tauto.
      * destruct Hr as (H1 & H2 & H3). by apply IH.
Qed.

Lemma known_singleton x : known {[x := None]} x.
Proof. unfold known. rewrite lookup_singleton_eq. by eexists. Qed.

Lemma _bidirectional_pred_succ_good g source target pred succ w :
  _bidirectional_pred_succ g source target = Ok (pred, succ, w) ->
  good g source pred /\ good g target succ /\ known pred w /\ known succ w.
Proof.
  unfold _bidirectional_pred_succ. case_decide as Heq.
  - intros [= <- <- <-]. subst target.
    split; [apply good_singleton|]. split; [apply good_singleton|].
    split; apply known_singleton.
  - apply search_good; try apply good_singleton;
      repeat constructor; apply known_singleton.
Qed.

End SearchSound.

Section ShortestPathSound.
Implicit Types (g : Graph) (p : list string) (s t : string).

Lemma chain_inv_link m w v l :
  chain m w l -> m !! w = Some (Some v) -> exists l', l = w :: l' /\ chain m v l'.
Proof.
  destruct 1 as [w Hw|w v' l Hw Hc]; intros Hv; [congruence|].
  rewrite Hw in Hv. injection Hv as ->. eauto.
Qed.

(** A returned path leads from the source to the target along edges of the
    graph. *)
Lemma shortest_path_sound g s t p :
  shortest_path g s t = Ok p -> path_from_to g s t p.
Proof.
  unfold shortest_path, bidirectional_shortest_path.
  destruct (negb (has_node g s) || negb (has_node g t)); [done|].
  destruct (_bidirectional_pred_succ g s t) as [[[pred succ] w]|] eqn:E; [|done].
  apply _bidirectional_pred_succ_good in E as (Hp & Hs & Hkp & Hks).
  cbn [bind].
  destruct (proj1 Hp w Hkp) as (l1 & Hl1 & Hlen1).
  rewrite (follow_chain pred w l1 (S (size pred)) Hl1) by lia. cbn [bind].
  destruct Hks as [nxt Hnxt]. rewrite Hnxt.
  pose proof (chain_head _ _ _ Hl1) as Hh1.
  pose proof (chain_last _ _ _ _ _ Hp Hl1) as Hla1.
  pose proof (chain_is_path _ _ _ _ _ Hp Hl1) as Hpath1.
  destruct nxt as [v|].
  - destruct (proj1 Hs w (ex_intro _ _ Hnxt)) as (l & Hl & Hlen).
    destruct (chain_inv_link _ _ _ _ Hl Hnxt) as (l2 & -> & Hl2).
    rewrite (follow_chain succ v l2 (S (size succ)) Hl2) by (simpl in Hlen; lia).
    cbn [bind]. intros [= <-].
    pose proof (chain_head _ _ _ Hl2) as Hh2.
    pose proof (chain_last _ _ _ _ _ Hs Hl2) as Hla2.
    split; [|split].
    + rewrite head_app, head_reverse, Hla1. done.
    + rewrite last_app, Hla2. done.
    + apply is_path_app.
      * by apply is_path_reverse.
      * by eapply chain_is_path.
      * intros x y Hx Hy. rewrite last_reverse, Hh1 in Hx. injection Hx as <-.
        rewrite Hh2 in Hy. injection Hy as <-.
        right. by apply (proj2 (proj2 Hs)).
  - destruct (S (size succ)); simpl; intros [= <-]; rewrite app_nil_r.
    all: assert (w = t) as -> by (by apply (proj1 (proj2 Hs)));
      split; [|split];
      [by rewrite head_reverse|by rewrite last_reverse|by apply is_path_reverse].
Qed.

End ShortestPathSound.

(** ** The search returns *)

Section SearchTotal.
Implicit Types (g : Graph) (m mine other pred succ : Links).
Implicit Types (u v w x s t : string) (l fringe : list string).

Lemma size_list_to_set_le (l : list string) :
  (size (list_to_set l : gset string) <= length l)%nat.
Proof.
  induction l as [|x l IH]; cbn [list_to_set length].
  - by rewrite size_empty.
  - rewrite size_union_alt, size_singleton.
    assert (size (list_to_set l ∖ {[x]} : gset string)
            <= size (list_to_set l : gset string))%nat
      by (apply subseteq_size; set_solver).
    lia.
Qed.

Lemma universe_size g s t :
  (size (universe g s t) <= 2 + length (all_neighbors g))%nat.
Proof.
  unfold universe.
  pose proof (size_list_to_set_le (s :: t :: all_neighbors g)) as H.
  cbn [length] in H. lia.
Qed.

Lemma neighbor_in_universe g s t v a w :
  adj g v = Some a -> w ∈ dict_keys a -> w ∈ universe g s t.
Proof.
  intros Ha Hw. unfold universe. apply elem_of_list_to_set. right. right.
  unfold all_neighbors, adj in *.
  destruct (dict_get g v) as [[d a']|] eqn:E; [|done]. injection Ha as ->.
  apply dict_get_Some in E.
  apply list_elem_of_In, in_concat. exists (dict_keys a). split.
  - apply in_map_iff. exists (v, (d, a)). split; [done|]. by apply list_elem_of_In.
  - by apply list_elem_of_In.
Qed.

Lemma links_size_le (U : gset string) m : dom m ⊆ U -> (size m <= size U)%nat.
Proof. intros H. rewrite <- size_dom. by apply subseteq_size. Qed.

Lemma scan_adj_total g (U : gset string) v ws : forall mine other fringe,
  dom mine ⊆ U ->
  Forall (fun w => w ∈ U /\ has_node g w = true) ws ->
  Forall (fun x => has_node g x = true) fringe ->
  match scan_adj v ws mine other fringe with
  | Meet _ _ => True
  | Next mine' fringe' =>
      dom mine' ⊆ U
      /\ (size mine' + length fringe = size mine + length fringe')%nat
      /\ Forall (fun x => has_node g x = true) fringe'
  end.
Proof.
  induction ws as [|w ws IH]; intros mine other fringe Hd Hws Hf; simpl.
  - done.
  - apply Forall_cons in Hws as [[HwU Hw] Hws].
    destruct (mine !! w) as [o|] eqn:Emine.
    + destruct (other !! w); [done|]. by apply IH.
    + destruct (other !! w); [done|].
      specialize (IH (<[w := Some v]> mine) other (fringe ++ [w])).
      destruct (scan_adj v ws (<[w := Some v]> mine) other (fringe ++ [w]));
        [done|].
      destruct IH as (H1 & H2 & H3).
      * rewrite dom_insert_L. set_solver.
      * done.
      * apply Forall_app. split; [done|by constructor].
      * split; [done|]. split; [|done].
        rewrite map_size_insert_None, length_app in H2 by done.
        simpl in H2. lia.
Qed.

Lemma scan_level_total g s t level : forall mine other fringe,
  closedb g = true ->
  Forall (fun x => has_node g x = true) level ->
  dom mine ⊆ universe g s t ->
  Forall (fun x => has_node g x = true) fringe ->
  exists r, scan_level g level mine other fringe = Ok r /\
    match r with
    | Meet _ _ => True
    | Next mine' fringe' =>
        dom mine' ⊆ universe g s t
        /\ (size mine' + length fringe = size mine + length fringe')%nat
        /\ Forall (fun x => has_node g x = true) fringe'
    end.
Proof.
  induction level as [|v level IH]; intros mine other fringe Hc Hl Hd Hf; simpl.
  - eexists. split; [done|]. split; [done|]. split; [lia|done].
  - apply Forall_cons in Hl as [Hv Hl].
    apply has_node_adj in Hv as [a Ha]. rewrite Ha.
    pose proof (scan_adj_total g (universe g s t) v (dict_keys a) mine other
                  fringe Hd) as Hscan.
    destruct (scan_adj v (dict_keys a) mine other fringe) as [m' w|m' f'].
    + eexists. done.
    + destruct Hscan as (H1 & H2 & H3); [|done|].
      { apply Forall_forall. intros w Hw. split.
        - by eapply neighbor_in_universe.
        - apply (closedb_spec g v w Hc). unfold has_edge. rewrite Ha.
          by apply dict_has_keys. }
      destruct (IH m' other f' Hc Hl H1 H3) as (r & Hr & Hpost).
      exists r. split; [done|]. destruct r as [|m'' f'']; [done|].
      destruct Hpost as (I1 & I2 & I3). split; [done|]. split; [lia|done].
Qed.

(** With enough fuel the loop ends: it meets, or one fringe runs empty. *)
Lemma search_total g s t fuel : forall pred succ ff rf,
  closedb g = true ->
  dom pred ⊆ universe g s t -> dom succ ⊆ universe g s t ->
  Forall (fun x => has_node g x = true) ff ->
  Forall (fun x => has_node g x = true) rf ->
  (2 * size (universe g s t) < fuel + size pred + size succ)%nat ->
  (exists r, search fuel g pred succ ff rf = Ok r)
  \/ search fuel g pred succ ff rf = Raise NetworkXNoPath.
Proof.
  induction fuel as [|fuel IH]; intros pred succ ff rf Hc Hp Hs Hff Hrf Hfuel.
  - apply links_size_le in Hp, Hs. lia.
  - simpl. destruct ff as [|f0 ff]; [by right|].
    destruct rf as [|r0 rf]; [by right|].
    destruct (length (f0 :: ff) <=? length (r0 :: rf))%nat.
    + destruct (scan_level_total g s t (f0 :: ff) pred succ [] Hc Hff Hp
                  (Forall_nil_2 _)) as (r & -> & Hpost).
      cbn [bind]. destruct r as [p1 w1|p1 f1]; [left; eauto|].
      destruct Hpost as (H1 & H2 & H3).
      destruct f1 as [|x f1]; [right; by destruct fuel|].
      apply IH; try done. simpl in H2. lia.
    + destruct (scan_level_total g s t (r0 :: rf) succ pred [] Hc Hrf Hs
                  (Forall_nil_2 _)) as (r & -> & Hpost).
      cbn [bind]. destruct r as [s1 w1|s1 f1]; [left; eauto|].
      destruct Hpost as (H1 & H2 & H3).
      destruct f1 as [|x f1]; [right; destruct fuel; by destruct f0|].
      apply IH; try done. simpl in H2. lia.
Qed.

(** On a graph closed under neighbours, between two of its nodes, the
    search either returns a path or reports that there is none. *)
Lemma shortest_path_total g s t :
  closedb g = true -> has_node g s = true -> has_node g t = true ->
  (exists p, shortest_path g s t = Ok p)
  \/ shortest_path g s t = Raise NetworkXNoPath.
Proof.
  intros Hc Hs Ht. unfold shortest_path, bidirectional_shortest_path.
  rewrite Hs, Ht. cbn [negb orb].
  destruct (_bidirectional_pred_succ g s t) as [[[pred succ] w]|e] eqn:E.
  - left. apply _bidirectional_pred_succ_good in E as (Hp & Hsu & Hkp & Hks).
    cbn [bind].
    destruct (proj1 Hp w Hkp) as (l1 & Hl1 & Hlen1).
    rewrite (follow_chain pred w l1 (S (size pred)) Hl1) by lia. cbn [bind].
    destruct Hks as [nxt Hnxt]. rewrite Hnxt. destruct nxt as [v|].
    + destruct (proj1 Hsu w (ex_intro _ _ Hnxt)) as (l & Hl & Hlen).
      destruct (chain_inv_link _ _ _ _ Hl Hnxt) as (l2 & -> & Hl2).
      rewrite (follow_chain succ v l2 (S (size succ)) Hl2)
        by (simpl in Hlen; lia).
      cbn [bind]. eauto.
    + simpl. eauto.
  - right. cbn [bind]. revert E. unfold _bidirectional_pred_succ.
    case_decide; [done|]. intros E.
    destruct (search_total g s t (search_bound g) {[s := None]} {[t := None]}
                [s] [t] Hc) as [[r Hr]|Hr]; try congruence.
    + rewrite dom_singleton_L. unfold universe. set_solver.
    + rewrite dom_singleton_L. unfold universe. set_solver.
    + by repeat constructor.
    + by repeat constructor.
    + rewrite !map_size_singleton. unfold search_bound.
      pose proof (universe_size g s t). lia.
Qed.

End SearchTotal.

(** ** The broadcast router *)

Section Router.
Implicit Types (g : Graph) (src : string) (alloc : gmap nat string).
Implicit Types (DES : list nat) (acc r : Routes).

Lemma get_path_loop_spec g src alloc DES : forall acc,
  closedb g = true -> has_node g src = true ->
  Forall (hosted g alloc) DES ->
  Forall2 (routed g src alloc) (dst_idDES acc) (paths acc) ->
  exists r,
    get_path_loop g src alloc DES acc = Ok r
    /\ dst_idDES r =
         dst_idDES acc ++ filter (fun des => routable g src alloc des = true) DES
    /\ Forall2 (routed g src alloc) (dst_idDES r) (paths r)
    /\ (forall w, w ∈ warnings acc -> w ∈ warnings r)
    /\ (forall des n, des ∈ DES -> alloc !! des = Some n ->
          routable g src alloc des = false -> (src, n) ∈ warnings r).
Proof.
  induction DES as [|des DES IH]; intros acc Hc Hs Hh Hacc; simpl.
  - exists acc. split; [done|]. split; [by rewrite app_nil_r|].
    split; [done|]. split; [done|]. intros des n Hin. by apply elem_of_nil in Hin.
  - apply Forall_cons in Hh as [(n & Hn & Hnode) Hh]. rewrite Hn.
    assert (Hrt : routable g src alloc des =
                  match shortest_path g src n with
                  | Ok _ => true | Raise _ => false end)
      by (unfold routable; by rewrite Hn).
    rewrite filter_cons.
    destruct (shortest_path_total g src n Hc Hs Hnode) as [[p Hp]|Hp];
      rewrite Hp in *.
    + destruct (IH (mkRoutes (paths acc ++ [p]) (dst_idDES acc ++ [des])
                      (warnings acc)) Hc Hs Hh) as (r & Hr & Hd & Hf & Hw & Hskip).
      { simpl. apply Forall2_app; [done|]. constructor; [|constructor].
        exists n. split; [done|]. split; [done|]. by apply shortest_path_sound. }
      exists r. split; [done|]. simpl in Hd, Hw. rewrite decide_True by done.
      split; [by rewrite Hd, <- app_assoc|]. split; [done|]. split; [done|].
      intros des' n' Hin Hn' Hnr. apply elem_of_cons in Hin as [->|Hin].
      * congruence.
      * by eapply Hskip.
    + destruct (IH (mkRoutes (paths acc) (dst_idDES acc)
                      (warnings acc ++ [(src, n)])) Hc Hs Hh)
        as (r & Hr & Hd & Hf & Hw & Hskip); [done|].
      exists r. split; [done|]. simpl in Hd, Hw.
      rewrite decide_False by (by rewrite Hrt).
      split; [done|]. split; [done|].
      split; [intros w Hin; apply Hw, elem_of_app; by left|].
      intros des' n' Hin Hn' Hnr. apply elem_of_cons in Hin as [->|Hin].
      * assert (n' = n) as -> by congruence.
        apply Hw, elem_of_app. right. left.
      * by eapply Hskip.
Qed.

Lemma routable_path g src alloc des n :
  alloc !! des = Some n -> routable g src alloc des = true ->
  exists p, path_from_to g src n p.
Proof.
  unfold routable. intros ->.
  destruct (shortest_path g src n) as [p|] eqn:E; [|done].
  intros _. exists p. by apply shortest_path_sound.
Qed.

End Router.

(** C4.  On a graph closed under neighbours, for a source node of the
    graph and destination instances hosted on nodes of the graph, the
    router returns; the two sequences have equal length; the resolved
    instances are the instances for which the search found a path, in input
    order; [paths[i]] leads from the source to the node that hosts
    [dst_idDES[i]]; and an instance with no path from the source is left
    out of both sequences, with a warning. *)
Theorem get_path_spec (s : Sim) (app dst src : string)
    (alloc : gmap nat string)
    (alloc_mod : gmap string (gmap string (list nat)))
    (modules : gmap string (list nat)) (DES : list nat) :
  closedb (G s) = true ->
  has_node (G s) src = true ->
  alloc_mod !! app = Some modules ->
  modules !! dst = Some DES ->
  Forall (fun des => exists n, alloc !! des = Some n /\ has_node (G s) n = true)
    DES ->
  exists r,
    get_path s app dst src alloc alloc_mod = Ok r
    /\ length (paths r) = length (dst_idDES r)
    /\ dst_idDES r = filter (fun des => routable (G s) src alloc des = true) DES
    /\ Forall2 (fun des p => exists n, alloc !! des = Some n
                  /\ path_from_to (G s) src n p)
         (dst_idDES r) (paths r)
    /\ (forall des n, des ∈ DES -> alloc !! des = Some n ->
          ~ (exists p, path_from_to (G s) src n p) ->
          (des ∉ dst_idDES r) /\ (src, n) ∈ warnings r).
Proof.
  intros Hc Hs Hmod HDES Hh. unfold get_path. rewrite Hmod, HDES.
  destruct (get_path_loop_spec (G s) src alloc DES (mkRoutes [] [] []) Hc Hs Hh)
    as (r & Hr & Hd & Hf & _ & Hskip); [constructor|].
  exists r. split; [done|]. simpl in Hd.
  split; [symmetry; by eapply Forall2_length|]. split; [done|]. split.
  - eapply Forall2_impl; [exact Hf|]. intros des p (n & H1 & _ & H3). eauto.
  - intros des n Hin Hn Hno.
    assert (Hnr : routable (G s) src alloc des = false).
    { destruct (routable (G s) src alloc des) eqn:E; [|done].
      destruct Hno. by eapply routable_path. }
    split; [|by eapply Hskip].
    rewrite Hd. intros [Hr' _]%list_elem_of_filter. congruence.
Qed.

Lemma get_path_spec_witness :
  closedb Examples.stray = true
  /\ exists r,
       get_path (mkSim Examples.stray 0) "SecureApp" "ClusterLeader"
         "area_leader" Examples.placement
         (Examples.deployed [1; 4; 2]%nat) = Ok r
       /\ dst_idDES r = [1; 2]%nat
       /\ length (paths r) = 2%nat
       /\ ("area_leader", "iot_0") ∈ warnings r.
Proof.
  split; [reflexivity|].
  destruct (get_path_spec (mkSim Examples.stray 0) "SecureApp" "ClusterLeader"
              "area_leader" Examples.placement
              (Examples.deployed [1; 4; 2]%nat)
              (Examples.cluster_leaders [1; 4; 2]%nat) [1; 4; 2]%nat
              eq_refl eq_refl eq_refl eq_refl)
    as (r & Hr & Hlen & Hd & _ & Hskip).
  { repeat constructor; eexists; split; reflexivity. }
  assert (Hd' : dst_idDES r = [1; 2]%nat)
    by (rewrite Hd; vm_compute; reflexivity).
  exists r. split; [exact Hr|]. split; [exact Hd'|].
  split; [by rewrite Hlen, Hd'|].
  vm_compute in Hr. injection Hr as <-. left.
Defined.

(** ** Executions *)

Section Executions.
Implicit Types (w : World) (a : Action) (actions pre post : list Action).

Lemma get_path_loop_sound g src alloc DES : forall acc r,
  get_path_loop g src alloc DES acc = Ok r ->
  Forall (is_path g) (paths acc) -> Forall (is_path g) (paths r).
Proof.
  induction DES as [|des DES IH]; intros acc r; simpl.
  - by intros [= <-].
  - destruct (alloc !! des) as [n|]; [|done].
    destruct (shortest_path g src n) as [p|e] eqn:E.
    + intros Hr Hacc. apply (IH _ _ Hr). simpl.
      apply Forall_app. split; [done|]. constructor; [|constructor].
      by apply (shortest_path_sound g src n p).
    + destruct e; try done. intros Hr Hacc. by apply (IH _ _ Hr).
Qed.

(** Every returned path runs along edges of the graph the router was given. *)
Lemma get_path_sound s app dst src alloc alloc_mod r :
  get_path s app dst src alloc alloc_mod = Ok r ->
  Forall (is_path (G s)) (paths r).
Proof.
  unfold get_path. destruct (alloc_mod !! app) as [modules|]; [|done].
  destruct (modules !! dst) as [DES|]; [|done].
  intros Hr. apply (get_path_loop_sound _ _ _ _ _ _ Hr). constructor.
Qed.

Lemma step_Route w t m w' out :
  step w (Route t m) = Ok (w', out) ->
  w' = at_time w t /\
  exists r, get_path (sim (at_time w t)) (app_name m) (message_dst m)
              (topology_src m) (alloc_DES m) (alloc_module m) = Ok r
            /\ out = [mkRouted (G (sim w)) r].
Proof.
  cbn [step time_of].
  destruct (get_path _ _ _ _ _ _) as [r|] eqn:E; cbn [bind]; [|done].
  intros [= <- <-]. eauto.
Qed.

Lemma step_not_Route w a w' out :
  (forall t m, a <> Route t m) -> step w a = Ok (w', out) -> out = [].
Proof.
  intros Hne. destruct a as [t r1 r2|t rnd|t m]; cbn [step time_of].
  - destruct (MovementManager_call _ _ _); cbn [bind]; [|done].
    by intros [= _ <-].
  - destruct (RekeyingManager_call _ _); cbn [bind]; [|done].
    by intros [= _ <-].
  - by destruct (Hne t m).
Qed.

Lemma step_routes_current w a w' out :
  step w a = Ok (w', out) ->
  Forall (fun o => Forall (is_path (graph_then o)) (paths (routes o))) out.
Proof.
  destruct a as [t r1 r2|t rnd|t m]; intros Hs.
  - assert (out = []) as -> by (eapply step_not_Route; [|exact Hs]; done).
    constructor.
  - assert (out = []) as -> by (eapply step_not_Route; [|exact Hs]; done).
    constructor.
  - apply step_Route in Hs as (_ & r & Hr & ->).
    constructor; [|constructor]. simpl. by apply get_path_sound in Hr.
Qed.

Lemma run_cons w a actions w' outs :
  run w (a :: actions) = Ok (w', outs) ->
  exists w1 o1 o2,
    step w a = Ok (w1, o1) /\ run w1 actions = Ok (w', o2) /\ outs = o1 ++ o2.
Proof.
  cbn [run]. destruct (step w a) as [[w1 o1]|]; cbn [bind]; [|done].
  destruct (run w1 actions) as [[w2 o2]|] eqn:E; cbn [bind]; [|done].
  intros [= <- <-]. exists w1, o1, o2. done.
Qed.

Lemma run_app w pre post w' outs :
  run w (pre ++ post) = Ok (w', outs) ->
  exists w1 o1 o2,
    run w pre = Ok (w1, o1) /\ run w1 post = Ok (w', o2) /\ outs = o1 ++ o2.
Proof.
  revert w outs. induction pre as [|a pre IH]; intros w outs.
  - simpl. intros H. exists w, [], outs. done.
  - change ((a :: pre) ++ post) with (a :: (pre ++ post)). intros H.
    apply run_cons in H as (w1 & o1 & o2 & Hs & Hr & ->).
    apply IH in Hr as (w2 & o3 & o4 & Hr1 & Hr2 & ->).
    exists w2, (o1 ++ o3), o4. cbn [run]. rewrite Hs. cbn [bind].
    rewrite Hr1. cbn [bind].
    split; [done|]. split; [done|]. by rewrite app_assoc.
Qed.

Lemma run_routes_current w actions : forall w' outs,
  run w actions = Ok (w', outs) ->
  Forall (fun o => Forall (is_path (graph_then o)) (paths (routes o))) outs.
Proof.
  revert w. induction actions as [|a actions IH]; intros w w' outs.
  - simpl. intros [= _ <-]. constructor.
  - intros H. apply run_cons in H as (w1 & o1 & o2 & Hs & Hr & ->).
    apply Forall_app. split; [by eapply step_routes_current|by eapply IH].
Qed.

End Executions.

(** C1.  In every execution, each path a router call returns runs along
    edges of the graph as it is at that call; and when a router call
    directly follows a move, none of its paths goes along an edge that the
    move took out of the graph. *)
Theorem router_paths_current
    (w : World) (actions : list Action) (w' : World) (outs : list Routed) :
  run w actions = Ok (w', outs) ->
  Forall (fun o => Forall (is_path (graph_then o)) (paths (routes o))) outs
  /\ forall pre t r_node r_cluster t' m post,
       actions = pre ++ Move t r_node r_cluster :: Route t' m :: post ->
       exists w1 o1 w2 r,
         run w pre = Ok (w1, o1)
         /\ step w1 (Move t r_node r_cluster) = Ok (w2, [])
         /\ get_path (sim (at_time w2 t')) (app_name m) (message_dst m)
              (topology_src m) (alloc_DES m) (alloc_module m) = Ok r
         /\ mkRouted (G (sim w2)) r ∈ outs
         /\ forall u v,
              edge (G (sim w1)) u v -> ~ edge (G (sim w2)) u v ->
              Forall (fun p => ~ traverses p u v) (paths r).
Proof.
  intros Hrun. split; [by eapply run_routes_current|].
  intros pre t r1 r2 t' m post ->.
  apply run_app in Hrun as (w1 & o1 & o2 & Hpre & Hrest & ->).
  apply run_cons in Hrest as (w2 & o3 & o4 & Hmove & Hrest & ->).
  apply run_cons in Hrest as (w3 & o5 & o6 & Hroute & _ & ->).
  assert (o3 = []) as -> by (eapply step_not_Route; [|exact Hmove]; done).
  apply step_Route in Hroute as (_ & r & Hr & ->).
  exists w1, o1, w2, r. split; [done|]. split; [done|]. split; [done|]. split.
  - apply elem_of_app. right. left.
  - intros u v _ Hgone. apply get_path_sound in Hr. simpl in Hr.
    eapply Forall_impl; [exact Hr|]. intros p Hp.
    by apply (is_path_not_traverses (G (sim w2))).
Qed.

Lemma router_paths_current_witness :
  exists w' outs,
    run Examples.start [Move 30 0 0; Route 41 Examples.broadcast]
      = Ok (w', outs)
    /\ Forall (fun o => Forall (is_path (graph_then o)) (paths (routes o))) outs.
Proof.
  destruct (run Examples.start [Move 30 0 0; Route 41 Examples.broadcast])
    as [[w' outs]|e] eqn:E; [|vm_compute in E; discriminate].
  exists w', outs. split; [reflexivity|].
  exact (proj1 (router_paths_current _ _ _ _ E)).
Defined.

(** ** Detaching and re-attaching a node *)

Ltac decide_all :=
  repeat first
    [ rewrite decide_True by congruence
    | rewrite decide_False by congruence
    | progress simpl ].

Section Reattach.
Implicit Types (g : Graph) (node c new x y : string) (e : EdgeData).

Lemma has_node_nodes_data g x : has_node g x = dict_has (nodes_data g) x.
Proof. unfold has_node, dict_has. rewrite nodes_data_get. by destruct (dict_get g x). Qed.

Lemma kind_nodes_data g x :
  kind g x = match dict_get (nodes_data g) x with
             | Some d => type d
             | None => None
             end.
Proof.
  unfold kind. rewrite nodes_data_get. by destruct (dict_get g x) as [[d a]|].
Qed.

Lemma neighbor_list_single g node c :
  neighbor_list g node = [c] ->
  exists e0, adj g node = Some [(c, e0)].
Proof.
  unfold neighbor_list. destruct (adj g node) as [a|]; [|done].
  destruct a as [|[k e0] [|? ?]]; try done. simpl. intros [= ->]. eauto.
Qed.

Lemma truthy_nonempty c : c <> "" -> truthy (Some c) = true.
Proof.
  intros Hc. unfold truthy. destruct (String.eqb_spec c ""); [done|done].
Qed.

Lemma remove_edge_Ok g node c g2 :
  remove_edge g node c = Ok g2 -> node <> c ->
  nodes_data g2 = nodes_data g /\
  forall x, adj g2 x =
    if decide (node = x) then (fun a => dict_del a c) <$> adj g x
    else if decide (c = x) then (fun a => dict_del a node) <$> adj g x
    else adj g x.
Proof.
  unfold remove_edge. destruct (del_adj g node c) as [g1|] eqn:E1; [|done].
  cbn [bind]. intros H2 Hne. rewrite decide_False in H2 by done.
  apply del_adj_Ok in E1 as (_ & Hn1 & Ha1).
  apply del_adj_Ok in H2 as (_ & Hn2 & Ha2).
  split; [congruence|]. intros x. rewrite Ha2, Ha1.
  destruct (decide (c = x)), (decide (node = x)); subst; (done || congruence).
Qed.

Lemma remove_edge_returns g node c :
  has_edge g node c = true -> has_edge g c node = true -> node <> c ->
  exists g2, remove_edge g node c = Ok g2.
Proof.
  intros H1 H2 Hne. unfold remove_edge.
  destruct (del_adj_returns g node c H1) as [g1 Hg1]. rewrite Hg1. cbn [bind].
  rewrite decide_False by done. apply del_adj_returns.
  apply del_adj_Ok in Hg1 as (_ & _ & Ha1).
  unfold has_edge in *. rewrite Ha1. by rewrite decide_False.
Qed.

(** The graph part of a move: the only edge of [node], to [c], is taken
    out and an edge to [new] is put in. *)
Lemma reattach g node c new e :
  simple g ->
  neighbor_list g node = [c] -> has_edge g c node = true ->
  has_node g new = true ->
  node <> c -> node <> new -> c <> new -> c <> "" ->
  exists g2,
    detach g node (Some c) = Ok g2 /\
    let g' := add_edge g2 node new e in
    simple g'
    /\ nodes_data g' = nodes_data g
    /\ neighbor_list g' node = [new]
    /\ has_edge g' new node = true
    /\ ~ edge g' node c
    /\ (forall x, x <> node -> x <> c -> x <> new ->
          neighbor_list g' x = neighbor_list g x)
    /\ (forall x y, x <> node -> y <> node ->
          has_edge g' x y = has_edge g x y).
Proof.
  intros Hs Hnb Hcn Hnew Hnc Hnn Hcnew Hc.
  destruct (neighbor_list_single _ _ _ Hnb) as [e0 Hadj].
  assert (Hnode_c : has_edge g node c = true).
  { apply has_edge_adj. rewrite Hnb. left. }
  destruct (remove_edge_returns g node c Hnode_c Hcn Hnc) as [g2 Hg2].
  exists g2. split.
  { unfold detach. by rewrite truthy_nonempty, Hnode_c. }
  pose proof (simple_remove_edge _ _ _ _ Hs Hg2) as Hs2.
  destruct (remove_edge_Ok _ _ _ _ Hg2 Hnc) as [Hn2 Ha2].
  assert (Hhas2 : forall x, has_node g2 x = has_node g x)
    by (intros x; by apply nodes_data_has_node).
  assert (Hnode2 : has_node g2 node = true).
  { rewrite Hhas2. by eapply has_edge_has_node. }
  assert (Hnew2 : has_node g2 new = true) by (by rewrite Hhas2).
  cbn zeta. split; [by apply simple_add_edge|].
  split; [by rewrite nodes_data_add_edge|].
  assert (Hadj' : forall x, adj (add_edge g2 node new e) x =
            (fun a => if decide (new = x) then dict_set a node e else a) <$>
            ((fun a => if decide (node = x) then dict_set a new e else a) <$>
             (if decide (node = x) then (fun a => dict_del a c) <$> adj g x
              else if decide (c = x) then (fun a => dict_del a node) <$> adj g x
              else adj g x))).
  { intros x. by rewrite adj_add_edge, Ha2. }
  split; [|split; [|split; [|split]]].
  - unfold neighbor_list. rewrite Hadj', Hadj. by decide_all.
  - apply has_edge_add_edge.
  - intros [H|H]; unfold has_edge in H; rewrite Hadj' in H.
    + rewrite Hadj in H. revert H. decide_all. unfold dict_has. by decide_all.
    + revert H. decide_all.
      destruct (adj g c) as [ac|] eqn:Eac; [|done]. decide_all.
      assert (Hnd : NoDup (dict_keys ac)).
      { destruct Hs as [_ Hs]. unfold adj in Eac.
        destruct (dict_get g c) as [[dc ac']|] eqn:Eg; [|done].
        injection Eac as ->. by apply (Forall_dict_get _ _ _ _ Hs Eg). }
      intros H. apply dict_has_keys in H.
      by apply (proj2 (dict_keys_del_NoDup ac node Hnd)).
  - intros x H1 H2 H3. unfold neighbor_list. rewrite Hadj'. decide_all.
    destruct (adj g x); simpl; by decide_all.
  - intros x y Hx Hy. unfold has_edge. rewrite Hadj'. decide_all.
    destruct (adj g x) as [a|]; [|by repeat case_decide].
    destruct (decide (c = x)), (decide (new = x)); try congruence;
      decide_all; rewrite ?dict_has_set, ?dict_has_del_ne by congruence;
      by decide_all.
Qed.

End Reattach.

(** ** The nodes of a simulation run *)

Section RunNodes.
Implicit Types (g : Graph) (n c : string).

Lemma cluster_names_eq :
  cluster_names = ["cluster_1"; "cluster_2"; "cluster_3"].
Proof. reflexivity. Qed.

Lemma mobile_node_names_eq :
  mobile_node_names = ["iot_0"; "iot_1"; "iot_2"; "iot_3"; "iot_4"].
Proof. reflexivity. Qed.

Lemma all_nodes_data_eq :
  all_nodes_data =
  [("area_leader", mkNodeData (Some LEADER) (Some 5000) (Some 4000));
   ("cluster_1", mkNodeData (Some CLUSTER) (Some 2000) (Some 10000));
   ("cluster_2", mkNodeData (Some CLUSTER) (Some 2000) (Some 10000));
   ("cluster_3", mkNodeData (Some CLUSTER) (Some 2000) (Some 10000));
   ("iot_0", mkNodeData (Some MOBILE) (Some 1000) (Some 1000));
   ("iot_1", mkNodeData (Some MOBILE) (Some 1000) (Some 1000));
   ("iot_2", mkNodeData (Some MOBILE) (Some 1000) (Some 1000));
   ("iot_3", mkNodeData (Some MOBILE) (Some 1000) (Some 1000));
   ("iot_4", mkNodeData (Some MOBILE) (Some 1000) (Some 1000))].
Proof. reflexivity. Qed.

Ltac each_name H :=
  rewrite ?elem_of_cons, elem_of_nil in H;
  repeat (destruct H as [->|H]); [..|destruct H].

Lemma cluster_facts g c :
  nodes_data g = all_nodes_data -> c ∈ cluster_names ->
  kind g c = Some CLUSTER /\ has_node g c = true /\ c <> "".
Proof.
  intros Hg Hc. rewrite kind_nodes_data, has_node_nodes_data, Hg.
  rewrite cluster_names_eq in Hc.
  each_name Hc;
    (split; [vm_compute; reflexivity|split; [vm_compute; reflexivity|discriminate]]).
Qed.

Lemma mobile_facts g n :
  nodes_data g = all_nodes_data -> n ∈ mobile_node_names ->
  kind g n = Some MOBILE /\ has_node g n = true.
Proof.
  intros Hg Hn. rewrite kind_nodes_data, has_node_nodes_data, Hg.
  rewrite mobile_node_names_eq in Hn.
  each_name Hn; split; vm_compute; reflexivity.
Qed.

Lemma mobile_not_cluster n c :
  n ∈ mobile_node_names -> c ∈ cluster_names -> n <> c.
Proof.
  rewrite mobile_node_names_eq, cluster_names_eq. intros Hn Hc.
  each_name Hn; each_name Hc; discriminate.
Qed.

Ltac lookup_cases H :=
  repeat (destruct (decide (_ = _)) as [<-|_] in H;
          [first [discriminate H | apply list_elem_of_In; simpl; tauto]|]);
  discriminate H.

Lemma kind_mobile g n :
  nodes_data g = all_nodes_data -> kind g n = Some MOBILE ->
  n ∈ mobile_node_names.
Proof.
  intros Hg Hk. rewrite kind_nodes_data, Hg, all_nodes_data_eq in Hk.
  rewrite mobile_node_names_eq. cbn [dict_get] in Hk. lookup_cases Hk.
Qed.

Lemma kind_cluster g n :
  nodes_data g = all_nodes_data -> kind g n = Some CLUSTER ->
  n ∈ cluster_names.
Proof.
  intros Hg Hk. rewrite kind_nodes_data, Hg, all_nodes_data_eq in Hk.
  rewrite cluster_names_eq. cbn [dict_get] in Hk. lookup_cases Hk.
Qed.

(** Any cluster can be left for another one. *)
Lemma other_clusters c :
  c ∈ cluster_names ->
  filter (fun x => Some x <> Some c) cluster_names <> [].
Proof.
  rewrite cluster_names_eq. intros Hc. each_name Hc; vm_compute; discriminate.
Qed.

End RunNodes.

(** ** Initialisation on the simulation's topology *)

Section Initialise.
Implicit Types (g : Graph) (self mm : MovementManager) (n c : string).

Lemma initialize_node_leader g self n d :
  type d = Some LEADER -> initialize_node g self n d = Ok self.
Proof. intros H. unfold initialize_node. rewrite H. by repeat case_decide. Qed.

Lemma initialize_node_cluster g self n d :
  type d = Some CLUSTER ->
  initialize_node g self n d =
  Ok {| ai_monitor := ai_monitor self;
        mobile_nodes := mobile_nodes self;
        cluster_nodes := cluster_nodes self ++ [n];
        initialized := initialized self;
        node_locations := node_locations self |}.
Proof. intros H. unfold initialize_node. rewrite H. by repeat case_decide. Qed.

Lemma initialize_node_mobile g self n d c :
  type d = Some MOBILE -> neighbor_list g n = [c] -> kind g c = Some CLUSTER ->
  initialize_node g self n d =
  Ok {| ai_monitor := ai_monitor self;
        mobile_nodes := mobile_nodes self ++ [n];
        cluster_nodes := cluster_nodes self;
        initialized := initialized self;
        node_locations := <[n := c]> (node_locations self) |}.
Proof.
  intros H Hnb Hk. unfold initialize_node. rewrite H.
  rewrite decide_True by done.
  destruct (neighbor_list_single _ _ _ Hnb) as [e0 Ha].
  unfold neighbors. rewrite Ha. cbn [bind dict_keys map fst first_cluster].
  unfold node_data. unfold kind in Hk.
  destruct (dict_get g c) as [[dc ac]|]; [|done]. cbn [bind].
  by rewrite decide_True.
Qed.

Ltac norm_self :=
  cbn [bind ai_monitor mobile_nodes cluster_nodes initialized node_locations].

Lemma initialize_run g t mm :
  nodes_data g = all_nodes_data ->
  mobile_nodes mm = [] -> cluster_nodes mm = [] -> node_locations mm = ∅ ->
  Forall (fun n => exists c, c ∈ cluster_names /\ neighbor_list g n = [c])
    mobile_node_names ->
  exists self,
    initialize mm (mkSim g t) = Ok self
    /\ ai_monitor self = ai_monitor mm
    /\ mobile_nodes self = mobile_node_names
    /\ cluster_nodes self = cluster_names
    /\ initialized self = true
    /\ forall n c, n ∈ mobile_node_names -> neighbor_list g n = [c] ->
         node_locations self !! n = Some c.
Proof.
  intros Hg Hm Hc Hl Hall.
  assert (Hplace : forall n, n ∈ mobile_node_names ->
            neighbor_list g n = [place g n] /\ kind g (place g n) = Some CLUSTER).
  { intros n Hn. rewrite Forall_forall in Hall.
    destruct (Hall n Hn) as (c & Hcc & Hnb). unfold place. rewrite Hnb.
    split; [done|]. by apply cluster_facts. }
  rewrite mobile_node_names_eq in Hplace.
  assert (Hmem : forall x (l : list string), In x l -> x ∈ l)
    by (intros; by apply list_elem_of_In).
  destruct (Hplace "iot_0") as [P0 K0]; [apply Hmem; simpl; tauto|].
  destruct (Hplace "iot_1") as [P1 K1]; [apply Hmem; simpl; tauto|].
  destruct (Hplace "iot_2") as [P2 K2]; [apply Hmem; simpl; tauto|].
  destruct (Hplace "iot_3") as [P3 K3]; [apply Hmem; simpl; tauto|].
  destruct (Hplace "iot_4") as [P4 K4]; [apply Hmem; simpl; tauto|].
  unfold initialize. cbn [G]. rewrite Hg, all_nodes_data_eq.
  cbn [initialize_loop].
  rewrite initialize_node_leader by reflexivity. norm_self.
  do 3 (rewrite initialize_node_cluster by reflexivity; norm_self).
  rewrite (initialize_node_mobile _ _ "iot_0"
             (mkNodeData (Some MOBILE) (Some 1000) (Some 1000)) _ eq_refl P0 K0).
  norm_self.
  rewrite (initialize_node_mobile _ _ "iot_1"
             (mkNodeData (Some MOBILE) (Some 1000) (Some 1000)) _ eq_refl P1 K1).
  norm_self.
  rewrite (initialize_node_mobile _ _ "iot_2"
             (mkNodeData (Some MOBILE) (Some 1000) (Some 1000)) _ eq_refl P2 K2).
  norm_self.
  rewrite (initialize_node_mobile _ _ "iot_3"
             (mkNodeData (Some MOBILE) (Some 1000) (Some 1000)) _ eq_refl P3 K3).
  norm_self.
  rewrite (initialize_node_mobile _ _ "iot_4"
             (mkNodeData (Some MOBILE) (Some 1000) (Some 1000)) _ eq_refl P4 K4).
  norm_self.
  eexists. split; [reflexivity|]. norm_self.
  rewrite Hm, Hc, Hl. split; [reflexivity|]. split; [reflexivity|].
  split; [reflexivity|]. split; [reflexivity|]. intros n c Hn Hnb.
  assert (c = place g n) as -> by (unfold place; by rewrite Hnb).
  rewrite mobile_node_names_eq in Hn.
  rewrite ?elem_of_cons, elem_of_nil in Hn.
  destruct Hn as [->|[->|[->|[->|[->|[]]]]]].
  - do 4 (rewrite lookup_insert_ne by discriminate). apply lookup_insert_eq.
  - do 3 (rewrite lookup_insert_ne by discriminate). apply lookup_insert_eq.
  - do 2 (rewrite lookup_insert_ne by discriminate). apply lookup_insert_eq.
  - rewrite lookup_insert_ne by discriminate. apply lookup_insert_eq.
  - apply lookup_insert_eq.
Qed.

End Initialise.

(** ** One step of a run keeps the placement invariant *)

Section Steps.
Implicit Types (w : World) (n c : string) (log : list Event).

Lemma records_of_snoc n log e :
  records_of n (log ++ [e]) =
  records_of n log ++ (if decide (node_of e = Some n) then [e] else []).
Proof.
  unfold records_of. rewrite filter_app. reflexivity.
Qed.

Lemma replay_snoc c0 rest c t n new st :
  replay c0 rest = Some c ->
  replay c0 (rest ++ [MOVE t n (Some c) new st]) = Some new.
Proof.
  revert c0. induction rest as [|e rest IH]; intros c0; simpl.
  - intros [= ->]. by rewrite decide_True.
  - destruct e as [| t' n' from to st' |]; try done.
    case_decide; [|done]. apply IH.
Qed.

Lemma attachments_single g n c :
  neighbor_list g n = [c] -> kind g c = Some CLUSTER -> attachments g n = [c].
Proof.
  intros Hnb Hk. unfold attachments. rewrite Hnb.
  by rewrite filter_cons, decide_True, filter_nil.
Qed.

Lemma placed_at_time (w0 : World) w t n c : placed w0 w n c -> placed w0 (at_time w t) n c.
Proof. by unfold placed, at_time. Qed.

Lemma consistent_at_time (w0 : World) w t : consistent w0 w -> consistent w0 (at_time w t).
Proof.
  intros (H1 & H2 & H3 & H4 & H5). split; [exact H1|]. split; [exact H2|].
  split; [exact H3|]. split; [|exact H5].
  eapply Forall_impl; [exact H4|]. intros n [c Hc]. exists c.
  by apply placed_at_time.
Qed.

Lemma placed_neighbors (w0 : World) w :
  consistent w0 w ->
  Forall (fun n => exists c, c ∈ cluster_names /\
                             neighbor_list (G (sim w)) n = [c])
    mobile_node_names.
Proof.
  intros (_ & _ & _ & H4 & _). eapply Forall_impl; [exact H4|].
  intros n (c & Hc & Hnb & _). eauto.
Qed.

(** In a consistent world the monitor gets ready, knowing all mobile nodes
    and clusters and where each mobile node is. *)
Lemma ready_consistent (w0 : World) w :
  consistent w0 w ->
  exists self,
    ready w = Ok self
    /\ ai_monitor self = ai_monitor (movement_manager w)
    /\ mobile_nodes self = mobile_node_names
    /\ cluster_nodes self = cluster_names
    /\ initialized self = true
    /\ forall n c, n ∈ mobile_node_names -> placed w0 w n c ->
         node_locations self !! n = Some c.
Proof.
  intros Hcons. pose proof (placed_neighbors _ _ Hcons) as Hnbs.
  destruct Hcons as (Hg & _ & Hm & _ & _).
  unfold ready, manager_ok in *.
  destruct (initialized (movement_manager w)) eqn:Ei.
  - exists (movement_manager w). destruct Hm as [Hm1 Hm2].
    split; [reflexivity|]. split; [reflexivity|]. split; [exact Hm1|].
    split; [exact Hm2|]. split; [exact Ei|].
    intros n c _ (_ & _ & _ & Hloc & _). by apply Hloc.
  - destruct Hm as (Hm1 & Hm2 & Hm3).
    destruct w as [[g t] r mm log]. cbn [sim movement_manager G] in *.
    destruct (initialize_run g t mm Hg Hm1 Hm2 Hm3 Hnbs)
      as (self & Hs & H1 & H2 & H3 & H4 & H5).
    exists self. split; [exact Hs|]. split; [exact H1|]. split; [exact H2|].
    split; [exact H3|]. split; [exact H4|].
    intros n c Hn (_ & Hnb & _). by apply H5.
Qed.

End Steps.

Section MoveStep.
Implicit Types (w : World) (n c : string).

(** A move in a consistent world: the invocation returns, one mobile node
    leaves its cluster for another one, and the world stays consistent. *)
Lemma move_consistent (w0 : World) w t r_node r_cluster :
  consistent w0 w ->
  exists w' node from to status,
    step w (Move t r_node r_cluster) = Ok (w', [])
    /\ node ∈ mobile_node_names
    /\ placed w0 w node from
    /\ to ∈ cluster_names
    /\ to <> from
    /\ simulation_log w' =
         simulation_log w ++ [MOVE t node (Some from) to status]
    /\ neighbor_list (G (sim w')) node = [to]
    /\ ~ edge (G (sim w')) node from
    /\ invalid_cache_value (routing w') = true
    /\ (forall x, x <> node -> x <> from -> x <> to ->
          neighbor_list (G (sim w')) x = neighbor_list (G (sim w)) x)
    /\ consistent w0 w'.
Proof.
  intros Hcons0.
  pose proof (consistent_at_time w0 w t Hcons0) as Hcons.
  destruct (ready_consistent w0 _ Hcons) as (self & Hr & Hai & Hmob & Hcl & Hin & Hloc).
  destruct (choice_elem r_node mobile_node_names) as (node & Hch & Hnode);
    [rewrite mobile_node_names_eq; discriminate|].
  destruct Hcons as (Hg & Hsimple & Hmgr & Hplaced & Hlog).
  pose proof Hplaced as Hplaced'. rewrite Forall_forall in Hplaced'.
  destruct (Hplaced' node Hnode) as [c Hc].
  pose proof (Hloc node c Hnode Hc) as Hcur.
  destruct Hc as (Hcc & Hnb & Hcn & Hc4 & c0 & rest & Hrec & Hatt0 & Hrep).
  destruct (choice_elem r_cluster
              (filter (fun x => Some x <> Some c) cluster_names)
              (other_clusters c Hcc)) as (new & Hch2 & Hnew).
  apply list_elem_of_filter in Hnew as [Hnewc Hnewin].
  assert (Hnc : new <> c) by congruence.
  destruct (cluster_facts _ c Hg Hcc) as (Hkc & Hhc & Hcne).
  destruct (cluster_facts _ new Hg Hnewin) as (Hknew & Hhnew & _).
  pose proof (mobile_not_cluster node c Hnode Hcc) as Hnode_c.
  pose proof (mobile_not_cluster node new Hnode Hnewin) as Hnode_new.
  destruct (reattach (G (sim (at_time w t))) node c new attachment Hsimple Hnb Hcn
              Hhnew Hnode_c Hnode_new ltac:(congruence) Hcne)
    as (g2 & Hdet & Hs' & Hnd' & Hnb' & He' & Hgone & Hother & Hedges).
  destruct (check_node_movement (ai_monitor self) node t) as [ai st] eqn:Eai.
  set (g' := add_edge g2 node new attachment) in *.
  exists {| sim := {| G := g'; now := t |};
            routing := {| invalid_cache_value := true |};
            movement_manager :=
              {| ai_monitor := ai; mobile_nodes := mobile_nodes self;
                 cluster_nodes := cluster_nodes self;
                 initialized := initialized self;
                 node_locations := <[node := new]> (node_locations self) |};
            simulation_log :=
              simulation_log w ++ [MOVE t node (Some c) new st] |},
    node, c, new, st.
  split.
  { cbn [step time_of]. unfold MovementManager_call. rewrite Hr. cbn [bind].
    destruct (mobile_nodes self) as [|m ms] eqn:Em;
      [rewrite mobile_node_names_eq in Hmob; discriminate|].
    rewrite Hmob, Hch. cbn [bind]. rewrite Hcur, Hcl.
    destruct (filter (fun x => Some x <> Some c) cluster_names) as [|p ps] eqn:Ep;
      [by destruct (other_clusters c Hcc)|].
    rewrite Hch2. cbn [bind]. cbn [sim now G at_time] in *. rewrite Eai.
    rewrite Hdet. cbn [bind]. reflexivity. }
  split; [exact Hnode|]. split.
  { split; [exact Hcc|]. split; [exact Hnb|]. split; [exact Hcn|].
    split; [exact Hc4|]. exists c0, rest. split; [exact Hrec|]. by split. }
  split; [exact Hnewin|]. split; [exact Hnc|]. split; [reflexivity|].
  split; [exact Hnb'|]. split; [exact Hgone|]. split; [reflexivity|].
  split; [exact Hother|].
  cbn [sim G at_time movement_manager simulation_log] in *.
  unfold consistent. cbn [sim G movement_manager simulation_log].
  split; [by rewrite Hnd'|]. split; [exact Hs'|]. split.
  { unfold manager_ok. cbn [initialized mobile_nodes cluster_nodes].
    rewrite Hin. by split. }
  split.
  - apply Forall_forall. intros m Hm.
    destruct (decide (m = node)) as [->|Hmn].
    + exists new. split; [exact Hnewin|].
      cbn [sim G movement_manager simulation_log node_locations initialized].
      split; [exact Hnb'|]. split; [exact He'|].
      split; [intros _; apply lookup_insert_eq|].
      exists c0, (rest ++ [MOVE t node (Some c) new st]).
      split; [|split; [exact Hatt0|by apply replay_snoc]].
      rewrite records_of_snoc. cbn [node_of]. rewrite decide_True by reflexivity.
      by rewrite Hrec.
    + destruct (Hplaced' m Hm)
        as (cm & Hcm & Hnbm & Hcmm & Hlocm & cm0 & restm & Hrecm & Hattm & Hrepm).
      exists cm. split; [exact Hcm|].
      cbn [sim G movement_manager simulation_log node_locations initialized].
      pose proof (mobile_not_cluster m c Hm Hcc) as Hmc.
      pose proof (mobile_not_cluster m new Hm Hnewin) as Hmnew.
      pose proof (mobile_not_cluster node cm Hnode Hcm) as Hncm.
      split; [rewrite Hother by done; exact Hnbm|].
      split; [rewrite Hedges by congruence; exact Hcmm|].
      split.
      { intros _. rewrite lookup_insert_ne by congruence.
        apply (Hloc m cm Hm). split; [exact Hcm|]. split; [exact Hnbm|].
        split; [exact Hcmm|]. split; [exact Hlocm|]. eauto. }
      exists cm0, restm. split; [|by split].
      rewrite records_of_snoc. cbn [node_of].
      rewrite decide_False by congruence. by rewrite app_nil_r.
  - apply Forall_app. split; [exact Hlog|]. constructor; [|constructor].
    cbn [node_of]. intros n [= <-]. exact Hnode.
Qed.

End MoveStep.

(** ** The start of a run *)

Section Setup.

Lemma placement_ok_consistent g log routing0 :
  placement_ok g log = true ->
  let w := {| sim := {| G := g; now := 0 |}; routing := routing0;
              movement_manager := MovementManager_init AI_Monitor_init;
              simulation_log := log |} in
  consistent w w.
Proof.
  unfold placement_ok. rewrite !andb_true_iff.
  intros ((((Hg & Hn) & Ha) & Hp) & Hl).
  apply bool_decide_eq_true in Hg, Hn.
  cbn zeta. unfold consistent. cbn [sim G movement_manager simulation_log].
  split; [exact Hg|]. split.
  { split; [exact Hn|]. apply Forall_forall. intros [n [d a]] Hin.
    rewrite forallb_forall in Ha. apply list_elem_of_In in Hin.
    apply Ha in Hin. by apply bool_decide_eq_true in Hin. }
  split; [unfold manager_ok; cbn [initialized MovementManager_init mobile_nodes
                                   cluster_nodes node_locations]; auto|]. split.
  - apply Forall_forall. intros n Hin. rewrite forallb_forall in Hp.
    apply list_elem_of_In, Hp in Hin.
    destruct (neighbor_list g n) as [|c [|? ?]] eqn:Enb; try discriminate Hin.
    rewrite !andb_true_iff in Hin. destruct Hin as ((Hc & He) & Hr).
    apply bool_decide_eq_true in Hc, Hr.
    exists c. unfold placed. cbn [sim G movement_manager simulation_log].
    split; [exact Hc|]. split; [exact Enb|]. split; [exact He|].
    split; [discriminate|]. exists c, []. split; [exact Hr|]. split; [|reflexivity].
    apply attachments_single; [exact Enb|]. by apply cluster_facts.
  - apply Forall_forall. intros e Hin n Hn'. rewrite forallb_forall in Hl.
    apply list_elem_of_In, Hl in Hin. rewrite Hn' in Hin.
    by apply bool_decide_eq_true in Hin.
Qed.

Lemma choice_cluster (r : nat) :
  choice r cluster_names = Ok "cluster_1"
  \/ choice r cluster_names = Ok "cluster_2"
  \/ choice r cluster_names = Ok "cluster_3".
Proof.
  rewrite cluster_names_eq. unfold choice.
  pose proof (Nat.mod_upper_bound r 3 ltac:(lia)) as Hlt.
  change (length ["cluster_1"; "cluster_2"; "cluster_3"]) with 3%nat.
  destruct (r mod 3)%nat as [|[|[|k]]]; [auto..|lia].
Qed.

(** Whatever the random source yields, the placement is a good one. *)
Lemma place_mobile_ok (rnd : nat -> nat) :
  exists g log,
    place_mobile rnd mobile_node_names fixed_topology [] = Ok (g, log)
    /\ placement_ok g log = true
    /\ neighbor_list g "area_leader" = cluster_names.
Proof.
  rewrite mobile_node_names_eq. cbn [place_mobile].
  destruct (choice_cluster (rnd 0%nat)) as [E0|[E0|E0]]; rewrite E0; cbn [bind];
  destruct (choice_cluster (rnd 1%nat)) as [E1|[E1|E1]]; rewrite E1; cbn [bind];
  destruct (choice_cluster (rnd 2%nat)) as [E2|[E2|E2]]; rewrite E2; cbn [bind];
  destruct (choice_cluster (rnd 3%nat)) as [E3|[E3|E3]]; rewrite E3; cbn [bind];
  destruct (choice_cluster (rnd 4%nat)) as [E4|[E4|E4]]; rewrite E4; cbn [bind];
  (eexists _, _; split; [reflexivity|split; vm_compute; reflexivity]).
Qed.

Lemma run_simulation_setup_consistent rnd routing0 (w0 : World) :
  run_simulation_setup rnd routing0 = Ok w0 -> consistent w0 w0.
Proof.
  unfold run_simulation_setup.
  destruct (place_mobile_ok rnd) as (g & log & -> & Hok & _). cbn [bind].
  intros [= <-]. by apply placement_ok_consistent.
Qed.

Lemma run_simulation_setup_returns rnd routing0 :
  exists w0, run_simulation_setup rnd routing0 = Ok w0.
Proof.
  unfold run_simulation_setup.
  destruct (place_mobile_ok rnd) as (g & log & -> & Hok & _). cbn [bind]. eauto.
Qed.

Lemma run_simulation_setup_leader rnd routing0 (w0 : World) :
  run_simulation_setup rnd routing0 = Ok w0 ->
  neighbor_list (G (sim w0)) "area_leader" = cluster_names.
Proof.
  unfold run_simulation_setup.
  destruct (place_mobile_ok rnd) as (g & log & -> & _ & Hnb). cbn [bind].
  by intros [= <-].
Qed.

End Setup.

(** ** Runs of the simulation *)

Section Runs.
Implicit Types (w : World) (a : Action) (actions : list Action).

Lemma RekeyingManager_call_Ok w rnd w' :
  RekeyingManager_call w rnd = Ok w' ->
  exists seed key,
    w' = {| sim := sim w; routing := routing w;
            movement_manager := movement_manager w;
            simulation_log := simulation_log w ++ [REKEY (now (sim w)) seed key] |}.
Proof.
  unfold RekeyingManager_call. destruct (generate_seed rnd 8) as [seed|]; [|done].
  cbn [bind]. intros [= <-]. eauto.
Qed.

Lemma step_consistent (w0 : World) w a w' out :
  consistent w0 w -> step w a = Ok (w', out) -> consistent w0 w'.
Proof.
  intros Hc Hs. destruct a as [t r1 r2|t rnd|t m].
  - destruct (move_consistent w0 w t r1 r2 Hc)
      as (w'' & node & from & to & st & Hstep & _ & _ & _ & _ & _ & _ & _ & _ & _
          & Hc').
    rewrite Hstep in Hs. by injection Hs as <- _.
  - cbn [step time_of] in Hs.
    destruct (RekeyingManager_call (at_time w t) rnd) as [w1|] eqn:E; [|done].
    cbn [bind] in Hs. injection Hs as <- _.
    apply RekeyingManager_call_Ok in E as (seed & key & ->).
    apply (consistent_at_time w0 w t) in Hc.
    destruct Hc as (H1 & H2 & H3 & H4 & H5).
    unfold consistent. cbn [sim G movement_manager simulation_log at_time] in *.
    split; [exact H1|]. split; [exact H2|]. split; [exact H3|]. split.
    + eapply Forall_impl; [exact H4|]. intros n (c & Hp). exists c.
      unfold placed in *.
      cbn [sim G movement_manager simulation_log at_time] in *.
      destruct Hp as (P1 & P2 & P3 & P4 & c0 & rest & P5 & P6 & P7).
      split; [exact P1|]. split; [exact P2|]. split; [exact P3|].
      split; [exact P4|]. exists c0, rest. split; [|by split].
      rewrite records_of_snoc. cbn [node_of].
      rewrite decide_False by discriminate. by rewrite app_nil_r.
    + apply Forall_app. split; [exact H5|]. constructor; [|constructor].
      cbn [node_of]. intros n Hn. discriminate Hn.
  - apply step_Route in Hs as (-> & _). by apply consistent_at_time.
Qed.

Lemma run_consistent (w0 : World) actions : forall w w' outs,
  consistent w0 w -> run w actions = Ok (w', outs) -> consistent w0 w'.
Proof.
  induction actions as [|a actions IH]; intros w w' outs Hc Hr.
  - cbn [run] in Hr. by injection Hr as <- _.
  - apply run_cons in Hr as (w1 & o1 & o2 & Hs & Hr & _).
    eapply IH; [|exact Hr]. by eapply step_consistent.
Qed.

Lemma reachable_consistent rnd routing0 (w0 : World) w :
  run_simulation_setup rnd routing0 = Ok w0 -> reachable_from w0 w ->
  consistent w0 w.
Proof.
  intros Hs (actions & outs & Hr).
  eapply run_consistent; [|exact Hr]. by eapply run_simulation_setup_consistent.
Qed.

Lemma run_snoc w actions a w1 o1 w2 o2 :
  run w actions = Ok (w1, o1) -> step w1 a = Ok (w2, o2) ->
  run w (actions ++ [a]) = Ok (w2, o1 ++ o2).
Proof.
  revert w o1. induction actions as [|b actions IH]; intros w o1 Hr Hs.
  - cbn [run] in Hr. injection Hr as <- <-. cbn [app run]. rewrite Hs.
    cbn [bind]. by rewrite app_nil_r.
  - apply run_cons in Hr as (w' & o' & o'' & Hb & Hr & ->).
    change ((b :: actions) ++ [a]) with (b :: (actions ++ [a])).
    cbn [run]. rewrite Hb. cbn [bind]. rewrite (IH _ _ Hr Hs). cbn [bind].
    by rewrite app_assoc.
Qed.

Lemma reachable_step w a w' out :
  reachable w -> step w a = Ok (w', out) -> reachable w'.
Proof.
  intros (rnd & r0 & w0 & Hs & actions & outs & Hr) Hstep.
  exists rnd, r0, w0. split; [exact Hs|].
  exists (actions ++ [a]), (outs ++ out). by eapply run_snoc.
Qed.

End Runs.

(** X1.  In every world of a simulation run, a Mobility Monitor invocation
    returns and performs a move: it logs one MOVE record for a MOBILE node
    that hangs on exactly one cluster, [from]; the target is a CLUSTER node
    other than [from]; afterwards the node hangs on exactly one cluster,
    the target, the edge to [from] is gone in both directions, and the
    router's cache flag is set. *)
Theorem run_move_reattaches (w : World) (t : Z) (r_node r_cluster : nat) :
  reachable w ->
  exists w' node from to status,
    step w (Move t r_node r_cluster) = Ok (w', [])
    /\ simulation_log w' =
         simulation_log w ++ [MOVE t node (Some from) to status]
    /\ kind (G (sim w)) node = Some MOBILE
    /\ attachments (G (sim w)) node = [from]
    /\ kind (G (sim w')) to = Some CLUSTER
    /\ to <> from
    /\ attachments (G (sim w')) node = [to]
    /\ edge (G (sim w')) node to
    /\ ~ edge (G (sim w')) node from
    /\ invalid_cache_value (routing w') = true
    /\ reachable w'.
Proof.
  intros Hreach. pose proof Hreach as (rnd & r0 & w0 & Hs & Hfrom).
  pose proof (reachable_consistent _ _ _ _ Hs Hfrom) as Hc.
  destruct (move_consistent w0 w t r_node r_cluster Hc)
    as (w' & node & from & to & st & Hstep & Hnode & Hpl & Hto & Hne & Hlog
        & Hnb & Hgone & Hflag & _ & Hc').
  exists w', node, from, to, st.
  destruct Hc as (Hg & _). destruct Hc' as (Hg' & _).
  destruct Hpl as (Hfc & Hnbf & _).
  split; [exact Hstep|]. split; [exact Hlog|].
  split; [by apply mobile_facts|].
  split; [apply attachments_single; [exact Hnbf|by apply cluster_facts]|].
  split; [by apply cluster_facts|]. split; [exact Hne|].
  split; [apply attachments_single; [exact Hnb|by apply cluster_facts]|].
  split; [left; apply has_edge_adj; rewrite Hnb; left|].
  split; [exact Hgone|]. split; [exact Hflag|]. by eapply reachable_step.
Qed.

Lemma start_reachable : reachable Examples.start.
Proof.
  exists Examples.draws, (mkRouting false), Examples.start.
  split; [vm_compute; reflexivity|]. exists [], []. reflexivity.
Defined.

Lemma run_move_reattaches_witness :
  exists w' node from to status,
    step Examples.start (Move 30 0 0) = Ok (w', [])
    /\ attachments (G (sim Examples.start)) node = [from]
    /\ attachments (G (sim w')) node = [to]
    /\ simulation_log w' =
         simulation_log Examples.start ++ [MOVE 30 node (Some from) to status].
Proof.
  destruct (run_move_reattaches Examples.start 30 0 0 start_reachable)
    as (w' & node & from & to & st & H1 & H2 & _ & H4 & _ & _ & H7 & _).
  exists w', node, from, to, st. repeat split; assumption.
Defined.

(** X2.  The log of a run tells where every mobile node is: the records
    about a MOBILE node start with its INITIAL record, at time 0 and at the
    cluster [run_simulation] attached it to; every later record about it is
    a MOVE whose [from] is where the record before left the node; and the
    [to] of the last one (or the INITIAL location) is the cluster the node
    hangs on in the graph.  Records about nodes are about MOBILE nodes. *)
Theorem run_log_replays
    (rnd : nat -> nat) (routing0 : Routing) (w0 : World)
    (actions : list Action) (w : World) (outs : list Routed) :
  run_simulation_setup rnd routing0 = Ok w0 ->
  run w0 actions = Ok (w, outs) ->
  (forall n, kind (G (sim w)) n = Some MOBILE ->
     exists c0 rest c,
       records_of n (simulation_log w) = INITIAL 0 n c0 :: rest
       /\ attachments (G (sim w0)) n = [c0]
       /\ replay c0 rest = Some c
       /\ attachments (G (sim w)) n = [c])
  /\ (forall e n, e ∈ simulation_log w -> node_of e = Some n ->
        kind (G (sim w)) n = Some MOBILE).
Proof.
  intros Hs Hr.
  assert (Hc : consistent w0 w).
  { eapply reachable_consistent; [exact Hs|]. by exists actions, outs. }
  destruct Hc as (Hg & _ & _ & Hpl & Hlog). split.
  - intros n Hk. apply (kind_mobile _ _ Hg) in Hk.
    rewrite Forall_forall in Hpl.
    destruct (Hpl n Hk) as (c & Hcc & Hnb & _ & _ & c0 & rest & H1 & H2 & H3).
    exists c0, rest, c. split; [exact H1|]. split; [exact H2|].
    split; [exact H3|]. apply attachments_single; [exact Hnb|].
    by apply cluster_facts.
  - intros e n He Hn. rewrite Forall_forall in Hlog.
    by apply mobile_facts, (Hlog e He).
Qed.

Lemma run_log_replays_witness :
  exists w outs c0 rest c,
    run Examples.start [Move 30 0 0; Rekey 120 Examples.draws; Move 130 0 1]
      = Ok (w, outs)
    /\ records_of "iot_0" (simulation_log w) = INITIAL 0 "iot_0" c0 :: rest
    /\ replay c0 rest = Some c
    /\ attachments (G (sim w)) "iot_0" = [c].
Proof.
  destruct (run Examples.start
              [Move 30 0 0; Rekey 120 Examples.draws; Move 130 0 1])
    as [[w outs]|e] eqn:E; [|vm_compute in E; discriminate].
  assert (Hs : run_simulation_setup Examples.draws (mkRouting false)
               = Ok Examples.start) by (vm_compute; reflexivity).
  destruct (run_log_replays _ _ _ _ _ _ Hs E) as [H _].
  destruct (H "iot_0") as (c0 & rest & c & H1 & _ & H3 & H4).
  { destruct (reachable_consistent _ _ _ w Hs) as (Hg & _);
      [eexists; exists outs; exact E|].
    apply mobile_facts; [exact Hg|].
    rewrite mobile_node_names_eq. left. }
  exists w, outs, c0, rest, c. repeat split; assumption.
Defined.

(** X3.  Once the monitor of a run is initialised it knows the MOBILE nodes
    and the CLUSTER nodes of the graph, each list in node order, and its
    Location Map gives for every MOBILE node the one cluster the node hangs
    on in the graph. *)
Theorem run_locations_agree (w : World) :
  reachable w ->
  initialized (movement_manager w) = true ->
  mobile_nodes (movement_manager w) =
    filter (fun n => kind (G (sim w)) n = Some MOBILE) (nodes (G (sim w)))
  /\ cluster_nodes (movement_manager w) =
       filter (fun n => kind (G (sim w)) n = Some CLUSTER) (nodes (G (sim w)))
  /\ forall n, kind (G (sim w)) n = Some MOBILE ->
       exists c, node_locations (movement_manager w) !! n = Some c
                 /\ attachments (G (sim w)) n = [c].
Proof.
  intros (rnd & r0 & w0 & Hs & Hfrom) Hi.
  destruct (reachable_consistent _ _ _ _ Hs Hfrom) as (Hg & _ & Hm & Hpl & _).
  unfold manager_ok in Hm. rewrite Hi in Hm. destruct Hm as [Hm1 Hm2].
  assert (Hnodes : nodes (G (sim w)) = map fst all_nodes_data).
  { rewrite <- Hg. unfold nodes, dict_keys, nodes_data. rewrite map_map.
    apply map_ext. by intros [n [d a]]. }
  assert (Hkind : forall n, kind (G (sim w)) n =
                    match dict_get all_nodes_data n with
                    | Some d => type d | None => None end).
  { intros n. by rewrite kind_nodes_data, Hg. }
  split; [|split].
  - rewrite Hm1, Hnodes, all_nodes_data_eq, mobile_node_names_eq.
    cbn [map fst]. repeat (rewrite filter_cons, Hkind, all_nodes_data_eq;
                           cbn [dict_get]; decide_all). reflexivity.
  - rewrite Hm2, Hnodes, all_nodes_data_eq, cluster_names_eq.
    cbn [map fst]. repeat (rewrite filter_cons, Hkind, all_nodes_data_eq;
                           cbn [dict_get]; decide_all). reflexivity.
  - intros n Hk. apply (kind_mobile _ _ Hg) in Hk.
    rewrite Forall_forall in Hpl.
    destruct (Hpl n Hk) as (c & Hcc & Hnb & _ & Hloc & _).
    exists c. split; [by apply Hloc|].
    apply attachments_single; [exact Hnb|]. by apply cluster_facts.
Qed.

Lemma run_locations_agree_witness :
  exists w',
    step Examples.start (Move 30 0 0) = Ok (w', [])
    /\ mobile_nodes (movement_manager w') =
         filter (fun n => kind (G (sim w')) n = Some MOBILE) (nodes (G (sim w')))
    /\ exists c, node_locations (movement_manager w') !! "iot_0" = Some c
                 /\ attachments (G (sim w')) "iot_0" = [c].
Proof.
  destruct (step Examples.start (Move 30 0 0)) as [[w' out]|e] eqn:E;
    [|vm_compute in E; discriminate].
  assert (out = []) as -> by (eapply step_not_Route; [|exact E]; done).
  assert (Hi : initialized (movement_manager w') = true).
  { vm_compute in E. by injection E as <-. }
  destruct (run_locations_agree w' (reachable_step _ _ _ _ start_reachable E) Hi)
    as (H1 & _ & H3).
  exists w'. split; [reflexivity|]. split; [exact H1|]. apply H3.
  vm_compute in E. by injection E as <-.
Defined.

(** ** Routing from the area leader *)

Section LeaderRoutes.
Implicit Types (g : Graph) (c : string).

Lemma neighbor_list_adj g n l :
  neighbor_list g n = l -> l <> [] ->
  exists a, adj g n = Some a /\ dict_keys a = l.
Proof.
  unfold neighbor_list. destruct (adj g n) as [a|]; [eauto|].
  intros <- H. by destruct H.
Qed.

(** The leader reaches every cluster by the direct edge. *)
Lemma leader_path g c :
  nodes_data g = all_nodes_data ->
  neighbor_list g "area_leader" = cluster_names ->
  c ∈ cluster_names ->
  shortest_path g "area_leader" c = Ok ["area_leader"; c].
Proof.
  intros Hg Hnb Hc.
  destruct (cluster_facts g c Hg Hc) as (_ & Hhc & _).
  assert (Hhl : has_node g "area_leader" = true)
    by (rewrite has_node_nodes_data, Hg; reflexivity).
  destruct (neighbor_list_adj _ _ _ Hnb) as (a & Ha & Hkeys);
    [rewrite cluster_names_eq; discriminate|].
  unfold shortest_path, bidirectional_shortest_path.
  rewrite Hhl, Hhc. cbn [negb orb].
  unfold _bidirectional_pred_succ, search_bound.
  rewrite Nat.add_1_r. cbn [search scan_level].
  rewrite Ha, Hkeys, cluster_names_eq.
  rewrite cluster_names_eq in Hc.
  rewrite ?elem_of_cons, elem_of_nil in Hc.
  destruct Hc as [->|[->|[->|[]]]]; vm_compute; reflexivity.
Qed.

Lemma get_path_loop_leader g alloc DES : forall acc,
  nodes_data g = all_nodes_data ->
  neighbor_list g "area_leader" = cluster_names ->
  Forall (fun des => exists c, alloc !! des = Some c /\ c ∈ cluster_names) DES ->
  get_path_loop g "area_leader" alloc DES acc =
  Ok (mkRoutes
        (paths acc ++
         map (fun des => ["area_leader"; default "" (alloc !! des)]) DES)
        (dst_idDES acc ++ DES) (warnings acc)).
Proof.
  induction DES as [|des DES IH]; intros acc Hg Hnb Hall.
  - cbn [get_path_loop map]. rewrite !app_nil_r. by destruct acc.
  - apply Forall_cons in Hall as [(c & Hc & Hcc) Hall].
    cbn [get_path_loop map]. rewrite Hc, (leader_path g c Hg Hnb Hcc).
    rewrite IH by done. cbn [paths dst_idDES warnings default from_option id].
    by rewrite <- !app_assoc.
Qed.

End LeaderRoutes.

Section LeaderRuns.
Implicit Types (w : World) (a : Action).

Lemma step_leader (w0 : World) w a w' out :
  consistent w0 w ->
  neighbor_list (G (sim w)) "area_leader" = cluster_names ->
  step w a = Ok (w', out) ->
  neighbor_list (G (sim w')) "area_leader" = cluster_names.
Proof.
  intros Hc Hnb Hs. destruct a as [t r1 r2|t rnd|t m].
  - destruct (move_consistent w0 w t r1 r2 Hc)
      as (w'' & node & from & to & st & Hstep & Hnode & Hpl & Hto & _ & _ & _
          & _ & _ & Hother & _).
    rewrite Hstep in Hs. injection Hs as <- _.
    destruct Hpl as (Hfrom & _).
    rewrite Hother; [exact Hnb| | |].
    + rewrite mobile_node_names_eq in Hnode.
      rewrite ?elem_of_cons, elem_of_nil in Hnode.
      destruct Hnode as [->|[->|[->|[->|[->|[]]]]]]; discriminate.
    + rewrite cluster_names_eq in Hfrom.
      rewrite ?elem_of_cons, elem_of_nil in Hfrom.
      destruct Hfrom as [->|[->|[->|[]]]]; discriminate.
    + rewrite cluster_names_eq in Hto.
      rewrite ?elem_of_cons, elem_of_nil in Hto.
      destruct Hto as [->|[->|[->|[]]]]; discriminate.
  - cbn [step time_of] in Hs.
    destruct (RekeyingManager_call (at_time w t) rnd) as [w1|] eqn:E; [|done].
    cbn [bind] in Hs. injection Hs as <- _.
    by apply RekeyingManager_call_Ok in E as (seed & key & ->).
  - by apply step_Route in Hs as (-> & _).
Qed.

Lemma run_leader (w0 : World) actions : forall w w' outs,
  consistent w0 w ->
  neighbor_list (G (sim w)) "area_leader" = cluster_names ->
  run w actions = Ok (w', outs) ->
  neighbor_list (G (sim w')) "area_leader" = cluster_names.
Proof.
  induction actions as [|a actions IH]; intros w w' outs Hc Hnb Hr.
  - cbn [run] in Hr. by injection Hr as <- _.
  - apply run_cons in Hr as (w1 & o1 & o2 & Hs & Hr & _).
    eapply IH; [| |exact Hr].
    + by eapply step_consistent.
    + by eapply step_leader.
Qed.

End LeaderRuns.

(** X4.  At every point of a run the router takes a message from the area
    leader to instances placed on clusters along the direct edges: for
    every instance, in input order, the path is the leader followed by the
    hosting cluster; nothing is skipped and nothing is warned about,
    wherever the mobile nodes have moved. *)
Theorem run_leader_routes (w : World) (app dst : string)
    (alloc : gmap nat string)
    (alloc_mod : gmap string (gmap string (list nat)))
    (modules : gmap string (list nat)) (DES : list nat) :
  reachable w ->
  alloc_mod !! app = Some modules ->
  modules !! dst = Some DES ->
  Forall (fun des => exists c, alloc !! des = Some c /\ c ∈ cluster_names) DES ->
  get_path (sim w) app dst "area_leader" alloc alloc_mod =
  Ok (mkRoutes
        (map (fun des => ["area_leader"; default "" (alloc !! des)]) DES)
        DES []).
Proof.
  intros (rnd & r0 & w0 & Hs & Hfrom) Hmod HDES Hall.
  pose proof (reachable_consistent _ _ _ _ Hs Hfrom) as Hc.
  destruct Hfrom as (actions & outs & Hr).
  pose proof (run_leader w0 actions w0 w outs
                (run_simulation_setup_consistent _ _ _ Hs)
                (run_simulation_setup_leader _ _ _ Hs) Hr) as Hnb.
  destruct Hc as (Hg & _).
  unfold get_path. rewrite Hmod, HDES.
  by rewrite (get_path_loop_leader _ _ _ _ Hg Hnb Hall).
Qed.

Lemma run_leader_routes_witness :
  get_path (sim Examples.start) "SecureApp" "ClusterLeader" "area_leader"
    Examples.placement (Examples.deployed [3; 1; 2]%nat) =
  Ok (mkRoutes [["area_leader"; "cluster_3"]; ["area_leader"; "cluster_1"];
                ["area_leader"; "cluster_2"]] [3; 1; 2]%nat []).
Proof.
  apply (run_leader_routes Examples.start "SecureApp" "ClusterLeader"
           Examples.placement (Examples.deployed [3; 1; 2]%nat)
           (Examples.cluster_leaders [3; 1; 2]%nat) [3; 1; 2]%nat
           start_reachable eq_refl eq_refl).
  rewrite cluster_names_eq.
  repeat constructor; eexists; (split; [reflexivity|]);
    apply list_elem_of_In; simpl; tauto.
Defined.

(** ** Further properties of the router, the monitors and the log *)

Ltac each_name H :=
  rewrite ?elem_of_cons, elem_of_nil in H;
  repeat (destruct H as [->|H]); [..|destruct H].

Section TwoHops.
Implicit Types (g : Graph) (s t c v w : string) (ks ws : list string).

Lemma search_bound_two g : exists k, search_bound g = S (S k).
Proof.
  unfold search_bound. exists (2 * (2 + length (all_neighbors g)) - 1)%nat. lia.
Qed.

Lemma lookup_record v ws : forall (m : Links) x,
  foldl (fun m w => <[w := Some v]> m) m ws !! x =
  if decide (x ∈ ws) then Some (Some v) else m !! x.
Proof.
  induction ws as [|w ws IH]; intros m x; cbn [foldl].
  - rewrite decide_False; [done|]. apply not_elem_of_nil.
  - rewrite IH. destruct (decide (x ∈ ws)) as [Hx|Hx].
    + rewrite decide_True; [done|]. by right.
    + destruct (decide (x = w)) as [->|Hxw].
      * rewrite lookup_insert_eq, decide_True; [done|]. left.
      * rewrite lookup_insert_ne by done. rewrite decide_False; [done|].
        intros H. apply elem_of_cons in H as [H|H]; done.
Qed.

Lemma follow_None fuel (links : Links) : follow fuel links None = Ok [].
Proof. by destruct fuel. Qed.

(** Neighbours that are new to both sides are all recorded. *)
Lemma scan_adj_fresh v ws : forall (mine other : Links) fringe,
  NoDup ws ->
  (forall w, w ∈ ws -> mine !! w = None /\ other !! w = None) ->
  scan_adj v ws mine other fringe =
  Next (foldl (fun m w => <[w := Some v]> m) mine ws) (fringe ++ ws).
Proof.
  induction ws as [|w ws IH]; intros mine other fringe Hnd Hnew.
  - cbn [scan_adj foldl]. by rewrite app_nil_r.
  - apply NoDup_cons in Hnd as [Hw Hnd].
    destruct (Hnew w) as [Hm Ho]; [left|].
    cbn [scan_adj foldl]. rewrite Hm, Ho, IH; [|done|].
    + by rewrite <- app_assoc.
    + intros x Hx. destruct (Hnew x) as [Hm' Ho']; [by right|].
      split; [|done]. rewrite lookup_insert_ne; [done|].
      intros ->. done.
Qed.

(** A node with neighbours [ks] reaches a node [t] that is not among them,
    but hangs first on one of them, through that neighbour. *)
Lemma two_hop_path g s c t ks rest :
  has_node g s = true -> has_node g t = true ->
  neighbor_list g s = ks -> neighbor_list g t = c :: rest ->
  NoDup ks -> (1 < length ks)%nat ->
  s ∉ ks -> t ∉ ks -> t <> s -> c ∈ ks ->
  shortest_path g s t = Ok [s; c; t].
Proof.
  intros Hs Ht Hks Hct Hnd Hlen Hsk Htk Hts Hc.
  destruct (neighbor_list_adj _ _ _ Hks) as (a & Ha & Hkeys).
  { intros ->. cbn [length] in Hlen. lia. }
  destruct (neighbor_list_adj _ _ _ Hct) as (b & Hb & Hkeysb); [done|].
  unfold shortest_path, bidirectional_shortest_path.
  rewrite Hs, Ht. cbn [negb orb].
  unfold _bidirectional_pred_succ. rewrite decide_False by done.
  destruct (search_bound_two g) as (k & ->).
  cbn [search length Nat.leb scan_level]. rewrite Ha, Hkeys.
  rewrite scan_adj_fresh; [|done|].
  2:{ intros w Hw. split; apply lookup_singleton_ne; intros ->; done. }
  cbn [app bind].
  set (pred := foldl (fun m w => <[w := Some s]> m) {[s := None]} ks).
  assert (Hpc : pred !! c = Some (Some s)).
  { subst pred. by rewrite lookup_record, decide_True. }
  assert (Hps : pred !! s = Some None).
  { subst pred. rewrite lookup_record, decide_False by done.
    apply lookup_singleton_eq. }
  assert (Hct' : c <> t) by (intros ->; done).
  destruct ks as [|k1 [|k2 ks]]; [cbn [length] in Hlen; lia..|].
  cbn [search length Nat.leb scan_level]. rewrite Hb, Hkeysb.
  cbn [scan_adj]. rewrite lookup_singleton_ne by done. rewrite Hpc.
  cbn [bind].
  destruct (size pred) as [|n] eqn:En.
  { apply map_size_empty_iff in En. rewrite En in Hpc. done. }
  cbn [follow]. rewrite Hpc. cbn [follow]. rewrite Hps, follow_None.
  cbn [bind]. rewrite lookup_insert_eq. cbn [follow].
  rewrite lookup_insert_ne, lookup_singleton_eq, follow_None by done.
  reflexivity.
Qed.

End TwoHops.

Section CallCases.
Implicit Types (w : World).

(** The two ways an invocation can return. *)
Lemma MovementManager_call_cases w r_node r_cluster w' :
  MovementManager_call w r_node r_cluster = Ok w' ->
  exists self, ready w = Ok self /\
    (w' = with_manager w self
     \/ exists node to g1,
          node ∈ mobile_nodes self
          /\ to ∈ cluster_nodes self
          /\ Some to <> node_locations self !! node
          /\ detach (G (sim w)) node (node_locations self !! node) = Ok g1
          /\ w' =
             {| sim := {| G := add_edge g1 node to attachment;
                          now := now (sim w) |};
                routing := {| invalid_cache_value := true |};
                movement_manager :=
                  {| ai_monitor :=
                       (check_node_movement (ai_monitor self) node
                          (now (sim w))).1;
                     mobile_nodes := mobile_nodes self;
                     cluster_nodes := cluster_nodes self;
                     initialized := initialized self;
                     node_locations :=
                       <[node := to]> (node_locations self) |};
                simulation_log :=
                  simulation_log w ++
                  [MOVE (now (sim w)) node (node_locations self !! node) to
                     (check_node_movement (ai_monitor self) node
                        (now (sim w))).2] |}).
Proof.
  unfold MovementManager_call.
  destruct (ready w) as [self|] eqn:Hr; [|done]. cbn [bind].
  intros H. exists self. split; [done|].
  destruct (mobile_nodes self) as [|m ms] eqn:Em; [left; by injection H as <-|].
  destruct (choice_elem r_node (m :: ms)) as (node & Hch & Hnode); [done|].
  rewrite Hch in H. cbn [bind] in H.
  destruct (filter (fun c => Some c <> node_locations self !! node)
              (cluster_nodes self)) as [|p ps] eqn:Ef;
    [left; by injection H as <-|].
  destruct (choice_elem r_cluster (p :: ps)) as (to & Hto & Hin); [done|].
  rewrite Hto in H. cbn [bind] in H.
  rewrite <- Ef in Hin. apply list_elem_of_filter in Hin as [Hne Hin].
  destruct (check_node_movement (ai_monitor self) node (now (sim w)))
    as [ai st] eqn:Ec.
  destruct (detach (G (sim w)) node (node_locations self !! node))
    as [g1|] eqn:Ed; [|done].
  cbn [bind] in H. injection H as <-.
  right. exists node, to, g1. repeat split; try done. by rewrite Ec.
Qed.

Lemma with_manager_same w : with_manager w (movement_manager w) = w.
Proof. by destruct w. Qed.

End CallCases.

(** X6.  What one invocation of an initialised Mobility Monitor does, on any
    graph and in any state: either it returns the world as it found it, or
    it performs one move.  A move appends exactly one MOVE record, whose
    [from] is the Location Map entry of the node, whose [to] is a known
    cluster other than [from] and whose status is the classifier's answer
    for this node at this time; it puts an edge with BW 5 and PR 2 between
    the node and [to], in both adjacencies; it sets the Location Map entry
    of the node to [to] and leaves every other entry alone; it sets the
    router's cache flag; the classifier takes the state the call left, and
    the clock and the node lists are untouched. *)
Theorem MovementManager_call_effect (w w' : World) (r_node r_cluster : nat) :
  initialized (movement_manager w) = true ->
  MovementManager_call w r_node r_cluster = Ok w' ->
  w' = w
  \/ exists node to,
       let self := movement_manager w in
       let from := node_locations self !! node in
       let verdict := check_node_movement (ai_monitor self) node (now (sim w)) in
       node ∈ mobile_nodes self
       /\ to ∈ cluster_nodes self
       /\ Some to <> from
       /\ simulation_log w' =
            simulation_log w ++ [MOVE (now (sim w)) node from to verdict.2]
       /\ edge_data (G (sim w')) node to = Some (mkEdgeData 5 2)
       /\ edge_data (G (sim w')) to node = Some (mkEdgeData 5 2)
       /\ node_locations (movement_manager w') !! node = Some to
       /\ (forall x, x <> node ->
             node_locations (movement_manager w') !! x =
             node_locations self !! x)
       /\ ai_monitor (movement_manager w') = verdict.1
       /\ invalid_cache_value (routing w') = true
       /\ now (sim w') = now (sim w)
       /\ mobile_nodes (movement_manager w') = mobile_nodes self
       /\ cluster_nodes (movement_manager w') = cluster_nodes self.
Proof.
  intros Hi Hcall.
  apply MovementManager_call_cases in Hcall
    as (self & Hr & [->|(node & to & g1 & Hn & Hto & Hne & Hd & ->)]);
    apply (ready_initialized _ _ Hi) in Hr as ->.
  - left. apply with_manager_same.
  - right. exists node, to.
    cbn [sim G now routing movement_manager simulation_log ai_monitor
         mobile_nodes cluster_nodes node_locations invalid_cache_value].
    split; [exact Hn|]. split; [exact Hto|]. split; [exact Hne|].
    split; [reflexivity|].
    destruct (edge_data_add_edge g1 node to attachment) as [E1 E2].
    split; [exact E1|]. split; [exact E2|].
    split; [apply lookup_insert_eq|].
    split; [intros x Hx; by apply lookup_insert_ne|].
    repeat split.
Qed.

Lemma MovementManager_call_effect_witness :
  exists w',
    MovementManager_call (at_time Examples.moved 45) 1 1 = Ok w'
    /\ (w' = at_time Examples.moved 45
        \/ exists node to,
             node ∈ mobile_nodes (movement_manager Examples.moved)
             /\ Some to <> node_locations (movement_manager Examples.moved) !! node
             /\ edge_data (G (sim w')) node to = Some (mkEdgeData 5 2)
             /\ node_locations (movement_manager w') !! node = Some to).
Proof.
  destruct (MovementManager_call (at_time Examples.moved 45) 1 1) as [w'|e] eqn:E;
    [|vm_compute in E; discriminate].
  exists w'. split; [reflexivity|].
  assert (Hi : initialized (movement_manager (at_time Examples.moved 45)) = true)
    by (vm_compute; reflexivity).
  destruct (MovementManager_call_effect (at_time Examples.moved 45) w' 1 1 Hi E)
    as [H|(node & to & Hn & _ & Hne & _ & He & _ & Hl & _)].
  - left. exact H.
  - right. exists node, to.
    split; [exact Hn|]. split; [exact Hne|]. split; [exact He|exact Hl].
Defined.

Section RoutesLoop.

(** When every lookup and every search succeeds, the loop collects the
    paths in input order. *)
Lemma get_path_loop_all g src alloc (route : nat -> list string) DES :
  forall acc,
  Forall (fun des => exists n, alloc !! des = Some n
                               /\ shortest_path g src n = Ok (route des)) DES ->
  get_path_loop g src alloc DES acc =
  Ok (mkRoutes (paths acc ++ map route DES) (dst_idDES acc ++ DES)
        (warnings acc)).
Proof.
  induction DES as [|des DES IH]; intros acc Hall.
  - cbn [get_path_loop map]. rewrite !app_nil_r. by destruct acc.
  - apply Forall_cons in Hall as [(n & Hn & Hp) Hall].
    cbn [get_path_loop map]. rewrite Hn, Hp.
    rewrite IH by done. cbn [paths dst_idDES warnings].
    by rewrite <- !app_assoc.
Qed.

End RoutesLoop.

(** X5.  At every point of a run the router takes a message from the area
    leader to an instance placed on a mobile node through the cluster that
    node hangs on at that moment: the path is the leader, that cluster, the
    node.  No instance is skipped. *)
Theorem run_mobile_routes (w : World) (app dst : string)
    (alloc : gmap nat string)
    (alloc_mod : gmap string (gmap string (list nat)))
    (modules : gmap string (list nat)) (DES : list nat) :
  reachable w ->
  alloc_mod !! app = Some modules ->
  modules !! dst = Some DES ->
  Forall (fun des => exists n, alloc !! des = Some n
                               /\ kind (G (sim w)) n = Some MOBILE) DES ->
  exists via : nat -> string,
    Forall (fun des => attachments (G (sim w)) (default "" (alloc !! des))
                       = [via des]) DES
    /\ get_path (sim w) app dst "area_leader" alloc alloc_mod =
       Ok (mkRoutes
             (map (fun des =>
                     ["area_leader"; via des; default "" (alloc !! des)]) DES)
             DES []).
Proof.
  intros (rnd & r0 & w0 & Hs & Hfrom) Hmod HDES Hall.
  pose proof (reachable_consistent _ _ _ _ Hs Hfrom) as Hc.
  destruct Hfrom as (actions & outs & Hr).
  pose proof (run_leader w0 actions w0 w outs
                (run_simulation_setup_consistent _ _ _ Hs)
                (run_simulation_setup_leader _ _ _ Hs) Hr) as Hnb.
  destruct Hc as (Hg & _ & _ & Hpl & _).
  exists (fun des => place (G (sim w)) (default "" (alloc !! des))).
  assert (Hhl : has_node (G (sim w)) "area_leader" = true)
    by (rewrite has_node_nodes_data, Hg; reflexivity).
  assert (Hfacts : Forall (fun des => exists n c,
            alloc !! des = Some n /\ n ∈ mobile_node_names
            /\ c ∈ cluster_names /\ neighbor_list (G (sim w)) n = [c]) DES).
  { eapply Forall_impl; [exact Hall|]. intros des (n & Hn & Hk).
    apply (kind_mobile _ _ Hg) in Hk. rewrite Forall_forall in Hpl.
    destruct (Hpl n Hk) as (c & Hcc & Hnbn & _). exists n, c.
    split; [exact Hn|]. split; [exact Hk|]. split; [exact Hcc|exact Hnbn]. }
  split.
  - eapply Forall_impl; [exact Hfacts|].
    intros des (n & c & -> & Hn & Hcc & Hnbn). cbn [default from_option id].
    unfold place. rewrite Hnbn. cbn [head default from_option id].
    apply attachments_single; [exact Hnbn|]. by apply cluster_facts.
  - unfold get_path. rewrite Hmod, HDES.
    rewrite (get_path_loop_all _ _ _
               (fun des => ["area_leader";
                            place (G (sim w)) (default "" (alloc !! des));
                            default "" (alloc !! des)])); [reflexivity|].
    eapply Forall_impl; [exact Hfacts|].
    intros des (n & c & Hn & Hnm & Hcc & Hnbn). exists n. split; [exact Hn|].
    rewrite Hn. cbn [default from_option id].
    unfold place. rewrite Hnbn. cbn [head default from_option id].
    apply (two_hop_path _ _ _ _ cluster_names []);
      [exact Hhl|apply mobile_facts; [exact Hg|exact Hnm]|exact Hnb
      |exact Hnbn|..|exact Hcc].
    + rewrite cluster_names_eq. apply (bool_decide_unpack _).
      vm_compute. exact I.
    + rewrite cluster_names_eq. cbn [length]. lia.
    + rewrite cluster_names_eq. intros H.
      rewrite ?elem_of_cons, elem_of_nil in H.
      destruct H as [H|[H|[H|[]]]]; discriminate H.
    + intros H. apply (mobile_not_cluster n n); [exact Hnm|exact H|reflexivity].
    + rewrite mobile_node_names_eq in Hnm. each_name Hnm; intros E;
        discriminate E.
Qed.

Lemma run_mobile_routes_witness :
  exists via,
    attachments (G (sim Examples.moved)) "iot_0" = [via]
    /\ get_path (sim Examples.moved) "SecureApp" "ClusterLeader" "area_leader"
         Examples.placement (Examples.deployed [4]%nat) =
       Ok (mkRoutes [["area_leader"; via; "iot_0"]] [4]%nat []).
Proof.
  assert (Hr : reachable Examples.moved).
  { destruct (step Examples.start (Move 30 0 0)) as [[w o]|e] eqn:E;
      [|vm_compute in E; discriminate].
    replace Examples.moved with w
      by (unfold Examples.moved; rewrite E; reflexivity).
    exact (reachable_step _ _ _ _ start_reachable E). }
  destruct (run_mobile_routes Examples.moved "SecureApp" "ClusterLeader"
              Examples.placement (Examples.deployed [4]%nat)
              (Examples.cluster_leaders [4]%nat) [4]%nat Hr eq_refl eq_refl)
    as (via & Hvia & Hp).
  - constructor; [|constructor]. exists "iot_0". split; [reflexivity|].
    vm_compute. reflexivity.
  - exists (via 4%nat). apply Forall_cons in Hvia as [Hvia _].
    split; [exact Hvia|exact Hp].
Defined.

Section Chronicle.
Implicit Types (w : World) (a : Action) (actions : list Action).

Lemma place_mobile_log names : forall rnd g log g' log',
  place_mobile rnd names g log = Ok (g', log') ->
  exists starts,
    length starts = length names
    /\ Forall (fun c => c ∈ cluster_names) starts
    /\ log' = log ++ zip_with (INITIAL 0) names starts.
Proof.
  induction names as [|name names IH]; intros rnd g log g' log' H.
  - cbn [place_mobile] in H. injection H as <- <-. exists [].
    split; [reflexivity|]. split; [constructor|]. by rewrite app_nil_r.
  - cbn [place_mobile] in H.
    destruct (choice_elem (rnd O) cluster_names) as (c & Hc & Hin);
      [rewrite cluster_names_eq; discriminate|].
    rewrite Hc in H. cbn [bind] in H.
    apply IH in H as (starts & Hl & Hall & ->).
    exists (c :: starts). split; [cbn [length]; by rewrite Hl|].
    split; [by constructor|]. by rewrite <- app_assoc.
Qed.

Lemma step_log (w0 : World) w a w' out :
  consistent w0 w -> step w a = Ok (w', out) ->
  exists recs, simulation_log w' = simulation_log w ++ recs
               /\ map stamp recs = omap firing [a].
Proof.
  intros Hc Hs. destruct a as [t r1 r2|t rnd|t m].
  - destruct (move_consistent w0 w t r1 r2 Hc)
      as (w'' & node & from & to & st & Hstep & _ & _ & _ & _ & Hlog & _).
    rewrite Hstep in Hs. injection Hs as <- _.
    eexists. split; [exact Hlog|reflexivity].
  - cbn [step time_of] in Hs.
    destruct (RekeyingManager_call (at_time w t) rnd) as [w1|] eqn:E; [|done].
    cbn [bind] in Hs. injection Hs as <- _.
    apply RekeyingManager_call_Ok in E as (seed & key & ->).
    eexists. split; [reflexivity|reflexivity].
  - apply step_Route in Hs as (-> & _). exists [].
    split; [by rewrite app_nil_r|reflexivity].
Qed.

Lemma run_log (w0 : World) actions : forall w w' outs,
  consistent w0 w -> run w actions = Ok (w', outs) ->
  exists recs, simulation_log w' = simulation_log w ++ recs
               /\ map stamp recs = omap firing actions.
Proof.
  induction actions as [|a actions IH]; intros w w' outs Hc Hr.
  - cbn [run] in Hr. injection Hr as <- _. exists [].
    split; [by rewrite app_nil_r|reflexivity].
  - apply run_cons in Hr as (w1 & o1 & o2 & Hs & Hr & _).
    destruct (step_log w0 w a w1 o1 Hc Hs) as (r1 & Hl1 & Hm1).
    destruct (IH w1 w' o2 (step_consistent _ _ _ _ _ Hc Hs) Hr)
      as (r2 & Hl2 & Hm2).
    exists (r1 ++ r2). split; [by rewrite Hl2, Hl1, app_assoc|].
    rewrite map_app, Hm1, Hm2.
    change (a :: actions) with ([a] ++ actions). by rewrite omap_app.
Qed.

Lemma step_monitor_returns (w0 : World) w a :
  consistent w0 w -> is_monitor a = true -> exists w', step w a = Ok (w', []).
Proof.
  intros Hc Ha. destruct a as [t r1 r2|t rnd|t m]; [| |discriminate Ha].
  - destruct (move_consistent w0 w t r1 r2 Hc) as (w' & _ & _ & _ & _ & H & _).
    by exists w'.
  - cbn [step time_of]. unfold RekeyingManager_call.
    destruct (generate_seed_spec rnd 8) as (seed & -> & _). cbn [bind]. eauto.
Qed.

Lemma nondecreasing_cons (x : Z) (l : list Z) :
  nondecreasing (x :: l) = true <->
  Forall (fun y => x <= y) l /\ nondecreasing l = true.
Proof.
  revert x. induction l as [|y l IH]; intros x.
  - cbn [nondecreasing]. split; [by split|done].
  - change (nondecreasing (x :: y :: l))
      with ((x <=? y)%Z && nondecreasing (y :: l)).
    rewrite andb_true_iff, Z.leb_le, Forall_cons. split.
    + intros [Hxy Hl]. split; [|done]. split; [done|].
      apply IH in Hl as [Hl _]. eapply Forall_impl; [exact Hl|].
      intros z Hz. cbn beta in *. lia.
    + intros [[Hxy _] Hl]. done.
Qed.

Lemma nondecreasing_app (l1 l2 : list Z) :
  nondecreasing (l1 ++ l2) = true ->
  nondecreasing l1 = true /\ nondecreasing l2 = true.
Proof.
  induction l1 as [|x l1 IH]; [done|].
  change ((x :: l1) ++ l2) with (x :: (l1 ++ l2)).
  rewrite !nondecreasing_cons, Forall_app. intros [[H1 H2] H3].
  apply IH in H3 as [H3 H4]. done.
Qed.

(** A selection from a non-decreasing list is non-decreasing. *)
Lemma nondecreasing_omap {A} (f : A -> option Z) (g : A -> Z) (l : list A) :
  (forall x t, f x = Some t -> g x = t) ->
  nondecreasing (map g l) = true -> nondecreasing (omap f l) = true.
Proof.
  intros Hfg. induction l as [|x l IH]; [done|].
  cbn [map omap list_omap]. rewrite nondecreasing_cons. intros [Hall Hl].
  specialize (IH Hl). destruct (f x) as [t|] eqn:E; [|exact IH].
  apply nondecreasing_cons. split; [|exact IH].
  apply Hfg in E as <-. apply Forall_forall. intros y Hy.
  apply list_elem_of_omap in Hy as (b & Hb & Hfb).
  rewrite Forall_forall in Hall. apply Hfg in Hfb as <-.
  apply Hall, list_elem_of_fmap. by exists b.
Qed.

End Chronicle.

(** X7.  The two monitors never stop a run: from any state a simulation run
    can reach, any sequence of Mobility Monitor and Rekeying Monitor
    firings runs through without an exception, and every firing leaves
    exactly one record in the log. *)
Theorem run_monitors_return (actions : list Action) : forall w : World,
  reachable w ->
  forallb is_monitor actions = true ->
  exists w',
    run w actions = Ok (w', [])
    /\ reachable w'
    /\ length (simulation_log w') =
       (length (simulation_log w) + length actions)%nat.
Proof.
  induction actions as [|a actions IH]; intros w Hreach Hmon.
  - exists w. split; [reflexivity|]. split; [exact Hreach|].
    cbn [length]. lia.
  - cbn [forallb] in Hmon. apply andb_true_iff in Hmon as [Ha Hmon].
    pose proof Hreach as (rnd & r0 & w0 & Hs & Hfrom).
    pose proof (reachable_consistent _ _ _ _ Hs Hfrom) as Hc.
    destruct (step_monitor_returns w0 w a Hc Ha) as (w1 & Hstep).
    destruct (step_log w0 w a w1 [] Hc Hstep) as (recs & Hlog & Hst).
    destruct (IH w1 (reachable_step _ _ _ _ Hreach Hstep) Hmon)
      as (w' & Hrun & Hreach' & Hlen).
    exists w'. split; [cbn [run]; rewrite Hstep; cbn [bind]; by rewrite Hrun|].
    split; [exact Hreach'|]. rewrite Hlen, Hlog, length_app.
    assert (length recs = 1%nat) as ->; [|cbn [length]; lia].
    rewrite <- (length_map stamp), Hst.
    destruct a as [t r1 r2|t rnd'|t m]; [reflexivity|reflexivity|discriminate Ha].
Qed.

Lemma run_monitors_return_witness :
  exists w',
    run Examples.start [Move 30 0 0; Rekey 120 Examples.draws; Move 130 0 1]
      = Ok (w', [])
    /\ length (simulation_log w') = 8%nat.
Proof.
  destruct (run_monitors_return
              [Move 30 0 0; Rekey 120 Examples.draws; Move 130 0 1]
              Examples.start start_reachable eq_refl)
    as (w' & Hr & _ & Hl).
  exists w'. split; [exact Hr|]. rewrite Hl. vm_compute. reflexivity.
Defined.

Section Times.

Lemma nondecreasing_zeros (zs l : list Z) :
  Forall (fun z => z = 0) zs -> nondecreasing (0 :: l) = true ->
  nondecreasing (zs ++ l) = true.
Proof.
  intros Hz Hl. apply nondecreasing_cons in Hl as [Hpos Hl].
  induction Hz as [|z zs -> Hz IH]; [exact Hl|].
  change ((0 :: zs) ++ l) with (0 :: (zs ++ l)).
  apply nondecreasing_cons. split; [|exact IH].
  apply Forall_app. split; [|exact Hpos].
  eapply Forall_impl; [exact Hz|]. intros z ->. lia.
Qed.

Lemma event_time_stamp (recs : list Event) :
  map event_time recs = map snd (map stamp recs).
Proof. rewrite map_map. reflexivity. Qed.

Lemma firing_time (a : Action) (p : string * Z) :
  firing a = Some p -> time_of a = p.2.
Proof. destruct a; cbn [firing time_of]; intros [= <-]; reflexivity. Qed.

End Times.

(** X8.  The log of a run is the chronicle of the monitors' firings: it
    starts with one INITIAL record at time 0 for every mobile node, in
    naming order and each at a cluster; then comes, firing by firing and in
    firing order, one MOVE record for every Mobility Monitor firing and one
    REKEY record for every Rekeying Monitor firing, stamped with the time
    of the firing; router calls leave nothing.  When the firings come in
    time order from time 0 on, the times in the log never decrease. *)
Theorem run_log_chronicle
    (rnd : nat -> nat) (routing0 : Routing) (w0 : World)
    (actions : list Action) (w : World) (outs : list Routed) :
  run_simulation_setup rnd routing0 = Ok w0 ->
  run w0 actions = Ok (w, outs) ->
  exists starts recs,
    length starts = length mobile_node_names
    /\ Forall (fun c => c ∈ cluster_names) starts
    /\ simulation_log w =
       zip_with (INITIAL 0) mobile_node_names starts ++ recs
    /\ map stamp recs = omap firing actions
    /\ (nondecreasing (0 :: map time_of actions) = true ->
        nondecreasing (map event_time (simulation_log w)) = true).
Proof.
  intros Hs Hr.
  pose proof (run_simulation_setup_consistent _ _ _ Hs) as Hc.
  destruct (run_log w0 actions w0 w outs Hc Hr) as (recs & Hlog & Hst).
  unfold run_simulation_setup in Hs.
  destruct (place_mobile rnd mobile_node_names fixed_topology [])
    as [[g log]|] eqn:Ep; [|discriminate Hs].
  cbn [bind] in Hs. injection Hs as <-.
  apply place_mobile_log in Ep as (starts & Hlen & Hall & ->).
  cbn [simulation_log app] in Hlog.
  exists starts, recs. split; [exact Hlen|]. split; [exact Hall|].
  split; [exact Hlog|]. split; [exact Hst|].
  intros Hnd. rewrite Hlog, map_app. apply nondecreasing_zeros.
  - apply Forall_forall. intros z Hz.
    apply list_elem_of_fmap in Hz as (e & -> & He).
    apply list_elem_of_lookup in He as (i & Hi).
    apply lookup_zip_with_Some in Hi as (n & c & -> & _). reflexivity.
  - rewrite event_time_stamp, Hst.
    assert (H : nondecreasing
                  (omap (fun a => snd <$> firing a) actions) = true).
    { apply (nondecreasing_omap _ time_of).
      - intros a t Ht. destruct (firing a) as [p|] eqn:E; [|discriminate Ht].
        injection Ht as <-. by apply firing_time.
      - apply nondecreasing_cons in Hnd as [_ Hnd]. exact Hnd. }
    rewrite <- list_fmap_omap in H.
    apply nondecreasing_cons. split; [|exact H].
    apply nondecreasing_cons in Hnd as [Hpos _].
    apply Forall_forall. intros t Ht.
    apply list_elem_of_fmap in Ht as (p & -> & Hp).
    apply list_elem_of_omap in Hp as (a & Ha & Hf).
    rewrite Forall_forall in Hpos. rewrite <- (firing_time a p Hf).
    apply Hpos, list_elem_of_fmap. by exists a.
Qed.

Lemma run_log_chronicle_witness :
  exists w outs recs,
    run Examples.start
      [Move 30 0 0; Route 40 Examples.broadcast; Rekey 120 Examples.draws]
      = Ok (w, outs)
    /\ length (simulation_log w) = (5 + length recs)%nat
    /\ map stamp recs = [("MOVE", 30); ("REKEY", 120)]
    /\ nondecreasing (map event_time (simulation_log w)) = true.
Proof.
  destruct (run Examples.start
              [Move 30 0 0; Route 40 Examples.broadcast;
               Rekey 120 Examples.draws])
    as [[w outs]|e] eqn:E; [|vm_compute in E; discriminate].
  assert (Hs : run_simulation_setup Examples.draws (mkRouting false)
               = Ok Examples.start) by (vm_compute; reflexivity).
  destruct (run_log_chronicle _ _ _ _ _ _ Hs E)
    as (starts & recs & Hl & _ & Hlog & Hst & Hnd).
  exists w, outs, recs. split; [reflexivity|].
  split; [rewrite Hlog, length_app, length_zip_with, Hl; reflexivity|].
  split; [exact Hst|]. apply Hnd. reflexivity.
Defined.

Section Verdicts.
Implicit Types (w : World) (a : Action) (log : list Event).

Lemma moves_of_app log1 log2 :
  moves_of (log1 ++ log2) = moves_of log1 ++ moves_of log2.
Proof. apply omap_app. Qed.

Lemma moves_of_initial (ns cs : list string) :
  moves_of (zip_with (INITIAL 0) ns cs) = [].
Proof.
  revert cs. induction ns as [|n ns IH]; intros [|c cs]; try reflexivity.
  apply IH.
Qed.

Lemma audited_no_moves log : moves_of log = [] -> audited log.
Proof.
  intros Hm pre t n from to st post ->.
  rewrite moves_of_app in Hm. apply app_eq_nil in Hm as [_ Hm].
  discriminate Hm.
Qed.

Lemma audited_snoc log e :
  audited log ->
  (forall t n from to st, e = MOVE t n from to st ->
     st = (check_node_movement (classified (moves_of log)) n t).2) ->
  audited (log ++ [e]).
Proof.
  intros Hlog He pre t n from to st post Heq.
  destruct post as [|x post _] using rev_ind.
  - apply app_inj_tail in Heq as [-> ->]. by eapply He.
  - change (pre ++ MOVE t n from to st :: post ++ [x])
      with (pre ++ (MOVE t n from to st :: post) ++ [x]) in Heq.
    rewrite app_assoc in Heq. apply app_inj_tail in Heq as [Heq _].
    by eapply Hlog.
Qed.

Lemma step_audited w a w' out :
  step w a = Ok (w', out) ->
  ai_monitor (movement_manager w) = classified (moves_of (simulation_log w)) ->
  audited (simulation_log w) ->
  ai_monitor (movement_manager w') = classified (moves_of (simulation_log w'))
  /\ audited (simulation_log w').
Proof.
  intros Hs Hai Haud. destruct a as [t r1 r2|t rnd|t m].
  - cbn [step time_of] in Hs.
    destruct (MovementManager_call (at_time w t) r1 r2) as [w1|] eqn:E;
      [|discriminate Hs].
    cbn [bind] in Hs. injection Hs as <- _.
    apply MovementManager_call_cases in E
      as (self & Hr & [->|(node & to & g1 & _ & _ & _ & _ & ->)]);
      apply ready_ai in Hr; cbn [at_time movement_manager] in Hr.
    + cbn [with_manager at_time movement_manager simulation_log].
      split; [by rewrite Hr|exact Haud].
    + cbn [at_time movement_manager simulation_log ai_monitor sim now].
      rewrite Hr, Hai. split.
      * rewrite moves_of_app. cbn [moves_of omap list_omap].
        by rewrite classified_snoc.
      * apply audited_snoc; [exact Haud|].
        intros t' n' f' to' st' [= <- <- _ _ <-]. reflexivity.
  - cbn [step time_of] in Hs.
    destruct (RekeyingManager_call (at_time w t) rnd) as [w1|] eqn:E;
      [|discriminate Hs].
    cbn [bind] in Hs. injection Hs as <- _.
    apply RekeyingManager_call_Ok in E as (seed & key & ->).
    cbn [at_time movement_manager simulation_log].
    rewrite moves_of_app. cbn [moves_of omap list_omap]. rewrite app_nil_r.
    split; [exact Hai|]. apply audited_snoc; [exact Haud|].
    intros t' n' f' to' st' Heq. discriminate Heq.
  - apply step_Route in Hs as (-> & _). by split.
Qed.

Lemma run_audited (actions : list Action) : forall w w' outs,
  run w actions = Ok (w', outs) ->
  ai_monitor (movement_manager w) = classified (moves_of (simulation_log w)) ->
  audited (simulation_log w) ->
  ai_monitor (movement_manager w') = classified (moves_of (simulation_log w'))
  /\ audited (simulation_log w').
Proof.
  induction actions as [|a actions IH]; intros w w' outs Hr Hai Haud.
  - cbn [run] in Hr. injection Hr as <- _. by split.
  - apply run_cons in Hr as (w1 & o1 & o2 & Hs & Hr & _).
    destruct (step_audited _ _ _ _ Hs Hai Haud) as [Hai1 Haud1].
    by eapply IH.
Qed.

Lemma move_times_stamp (recs : list Event) :
  map snd (moves_of recs) =
  omap (fun e => match e with MOVE t _ _ _ _ => Some t | _ => None end) recs.
Proof.
  induction recs as [|e recs IH]; [reflexivity|].
  destruct e; cbn [moves_of omap list_omap map snd]; fold (moves_of recs);
    by rewrite IH.
Qed.

End Verdicts.

(** X9.  The status of every MOVE record of a run can be recomputed from
    the log alone: it is the answer of a fresh classifier that has been
    fed, in log order, the MOVE records that precede it.  When the firings
    come in time order, a MOVE record at time [t] is marked ATTACKER exactly
    when more than 3 MOVE records of the same node, itself included, lie
    less than 300 time units before [t] in the log. *)
Theorem run_status_audit
    (rnd : nat -> nat) (routing0 : Routing) (w0 : World)
    (actions : list Action) (w : World) (outs : list Routed)
    (pre post : list Event) (t : Z) (n : string) (from : option string)
    (to : string) (st : Status) :
  run_simulation_setup rnd routing0 = Ok w0 ->
  run w0 actions = Ok (w, outs) ->
  simulation_log w = pre ++ MOVE t n from to st :: post ->
  st = (check_node_movement (classified (moves_of pre)) n t).2
  /\ (nondecreasing (map time_of actions) = true ->
      (st = ATTACKER <->
       (3 < length (filter (fun t' => (t - t' < 300)%Z)
                      (node_times n (moves_of pre) ++ [t])))%nat)).
Proof.
  intros Hs Hr Hlog.
  pose proof (run_simulation_setup_consistent _ _ _ Hs) as Hc.
  destruct (run_log w0 actions w0 w outs Hc Hr) as (recs & Hrecs & Hst).
  assert (Hinit : moves_of (simulation_log w0) = []).
  { unfold run_simulation_setup in Hs.
    destruct (place_mobile rnd mobile_node_names fixed_topology [])
      as [[g log]|] eqn:Ep; [|discriminate Hs].
    cbn [bind] in Hs. injection Hs as <-.
    apply place_mobile_log in Ep as (starts & _ & _ & ->).
    apply moves_of_initial. }
  assert (Hai0 : ai_monitor (movement_manager w0) =
                 classified (moves_of (simulation_log w0))).
  { rewrite Hinit. unfold run_simulation_setup in Hs.
    destruct (place_mobile rnd mobile_node_names fixed_topology [])
      as [[g log]|]; [|discriminate Hs].
    cbn [bind] in Hs. by injection Hs as <-. }
  destruct (run_audited actions w0 w outs Hr Hai0 (audited_no_moves _ Hinit))
    as [_ Haud].
  pose proof (Haud _ _ _ _ _ _ _ Hlog) as Hverdict.
  split; [exact Hverdict|]. intros Hnd.
  assert (Htimes : nondecreasing (map snd (moves_of pre) ++ [t]) = true).
  { assert (H : nondecreasing (map snd (moves_of recs)) = true).
    { rewrite move_times_stamp. apply (nondecreasing_omap _ event_time).
      - intros e t' He. destruct e; try discriminate He.
        by injection He as <-.
      - rewrite event_time_stamp, Hst, list_fmap_omap.
        apply (nondecreasing_omap _ time_of); [|exact Hnd].
        intros a t' Ht. destruct (firing a) as [p|] eqn:E; [|discriminate Ht].
        injection Ht as <-. by apply firing_time. }
    assert (Hm : moves_of recs = moves_of pre ++ (n, t) :: moves_of post).
    { transitivity (moves_of (simulation_log w)).
      - by rewrite Hrecs, moves_of_app, Hinit.
      - rewrite Hlog, moves_of_app. reflexivity. }
    rewrite Hm, map_app in H. cbn [map snd] in H.
    change (t :: map snd (moves_of post))
      with ([t] ++ map snd (moves_of post)) in H.
    rewrite app_assoc in H. by apply nondecreasing_app in H as [H _]. }
  apply nondecreasing_snoc in Htimes as [Hsorted Hbound].
  rewrite Hverdict, check_node_movement_status, classified_threshold.
  fold (recent t (node_times n (moves_of pre) ++ [t])).
  rewrite !recent_app, (classified_history _ _ _ Hsorted Hbound).
  destruct (3 <? length (recent t (node_times n (moves_of pre)) ++ recent t [t]))%nat
    eqn:E.
  - apply Nat.ltb_lt in E. split; [intros _; exact E|reflexivity].
  - apply Nat.ltb_ge in E. split; [intros H; discriminate H|lia].
Qed.

Lemma run_status_audit_witness :
  exists w outs,
    run Examples.start Examples.restless = Ok (w, outs)
    /\ simulation_log w =
       firstn 8 (simulation_log w) ++
       [MOVE 120 "iot_0" (Some "cluster_1") "cluster_2" ATTACKER]
    /\ (3 < length (filter (fun t' => (120 - t' < 300)%Z)
                      (node_times "iot_0"
                         (moves_of (firstn 8 (simulation_log w))) ++ [120%Z])))%nat.
Proof.
  destruct (run Examples.start Examples.restless) as [[w outs]|e] eqn:E;
    [|vm_compute in E; discriminate].
  assert (Hs : run_simulation_setup Examples.draws (mkRouting false)
               = Ok Examples.start) by (vm_compute; reflexivity).
  assert (Hlog : simulation_log w =
                 firstn 8 (simulation_log w) ++
                 [MOVE 120 "iot_0" (Some "cluster_1") "cluster_2" ATTACKER]).
  { vm_compute in E. injection E as <- _. vm_compute. reflexivity. }
  exists w, outs. split; [reflexivity|]. split; [exact Hlog|].
  destruct (run_status_audit _ _ _ _ _ _ _ _ _ _ _ _ _ Hs E Hlog) as [_ H].
  apply H; reflexivity.
Defined.

Section ClassifierFacts.
Implicit Types (calls : list (string * Z)) (node : string) (now : Z).

(** What the classifier remembers of a node is a selection of the times
    at which the node was classified, in call order. *)
Lemma classified_sublist calls node :
  default [] (move_counts (classified calls) !! node)
    `sublist_of` node_times node calls.
Proof.
  induction calls as [|[n t] calls IH] using rev_ind; [constructor|].
  rewrite classified_snoc, check_node_movement_counts, node_times_snoc.
  destruct (decide (n = node)) as [->|Hn].
  - rewrite lookup_insert_eq. cbn [default from_option id].
    etransitivity; [apply sublist_filter|]. by apply sublist_app.
  - rewrite lookup_insert_ne, app_nil_r by done. exact IH.
Qed.

Lemma classified_own calls node :
  move_counts (classified calls) !! node =
  move_counts (classified (filter (fun c => c.1 = node) calls)) !! node.
Proof.
  induction calls as [|[n t] calls IH] using rev_ind; [reflexivity|].
  rewrite filter_app, filter_cons, filter_nil. cbn [fst].
  destruct (decide (n = node)) as [->|Hn].
  - rewrite !classified_snoc, !check_node_movement_counts, !lookup_insert_eq.
    by rewrite IH.
  - rewrite app_nil_r, classified_snoc, check_node_movement_counts.
    by rewrite lookup_insert_ne.
Qed.

End ClassifierFacts.

(** X10.  The classifier judges every node on its own record: what it
    remembers of a node, and the answer it gives for the node, are the same
    as if the calls for all other nodes had never been made; and a call
    leaves what is remembered of every other node as it was. *)
Theorem check_node_movement_isolated
    (calls : list (string * Z)) (node : string) (now : Z) :
  let own := filter (fun c => c.1 = node) calls in
  move_counts (classified calls) !! node = move_counts (classified own) !! node
  /\ (check_node_movement (classified calls) node now).2 =
     (check_node_movement (classified own) node now).2
  /\ forall other, other <> node ->
       move_counts (check_node_movement (classified calls) node now).1 !! other
       = move_counts (classified calls) !! other.
Proof.
  intros own. split; [apply classified_own|]. split.
  - rewrite !check_node_movement_status, !classified_threshold.
    subst own. by rewrite <- classified_own.
  - intros other Hne. rewrite check_node_movement_counts.
    by apply lookup_insert_ne.
Qed.

(** X11.  Whatever the times of the calls are, in order or not: a node is
    never marked ATTACKER by one of its first three classifications, and it
    is NORMAL whenever all its earlier classifications lie 300 time units
    or more before the current one, however often it was marked before. *)
Theorem check_node_movement_normal
    (calls : list (string * Z)) (node : string) (now : Z) :
  (length (node_times node calls) < 3)%nat
  \/ (forall t, t ∈ node_times node calls -> 300 <= now - t) ->
  (check_node_movement (classified calls) node now).2 = NORMAL.
Proof.
  intros Hcase.
  rewrite check_node_movement_status, classified_threshold, recent_app.
  pose proof (classified_sublist calls node) as Hsub.
  set (h := default [] (move_counts (classified calls) !! node)) in *.
  assert (Hlen : (length (recent now h ++ recent now [now]) <= 3)%nat);
    [|by apply Nat.ltb_ge in Hlen as ->].
  rewrite length_app.
  assert (H1 : (length (recent now [now]) <= 1)%nat).
  { unfold recent. etransitivity; [apply length_filter|]. reflexivity. }
  destruct Hcase as [Hfew|Hold].
  - assert (H2 : (length (recent now h) <= length (node_times node calls))%nat).
    { unfold recent. etransitivity; [apply length_filter|].
      by apply sublist_length. }
    lia.
  - assert (H2 : recent now h = []); [|rewrite H2; cbn [length]; lia].
    unfold recent.
    destruct (filter (fun t => now - t < 300) h) as [|t l] eqn:E;
      [reflexivity|].
    assert (Ht : t ∈ filter (fun t => now - t < 300) h) by (rewrite E; left).
    apply list_elem_of_filter in Ht as [Hlt Ht].
    assert (Hin : t ∈ node_times node calls).
    { apply sublist_submseteq in Hsub.
      by eapply elem_of_submseteq in Hsub. }
    specialize (Hold t Hin). lia.
Qed.

Lemma check_node_movement_normal_witness :
  (check_node_movement
     (classified [("iot_0", 10); ("iot_0", 20); ("iot_0", 30); ("iot_0", 40)])
     "iot_0" 340).2 = NORMAL
  /\ (check_node_movement
        (classified [("iot_0", 50); ("iot_1", 20); ("iot_0", 10)])
        "iot_0" 15).2 = NORMAL.
Proof.
  split.
  - apply check_node_movement_normal. right. intros t Ht.
    change (t ∈ [10; 20; 30; 40]) in Ht.
    rewrite ?elem_of_cons, elem_of_nil in Ht.
    destruct Ht as [->|[->|[->|[->|[]]]]]; lia.
  - apply check_node_movement_normal. left. vm_compute. lia.
Defined.

Section RouterErrors.
Implicit Types (g : Graph) (src : string) (alloc : gmap nat string).

Lemma get_path_loop_app g src alloc DES1 DES2 : forall acc,
  get_path_loop g src alloc (DES1 ++ DES2) acc =
  let* r := get_path_loop g src alloc DES1 acc in
  get_path_loop g src alloc DES2 r.
Proof.
  induction DES1 as [|des DES1 IH]; intros acc; [reflexivity|].
  cbn [app get_path_loop]. destruct (alloc !! des) as [n|]; [|reflexivity].
  destruct (shortest_path g src n) as [p|[]]; try reflexivity; apply IH.
Qed.

End RouterErrors.

(** X12.  The router tolerates a missing path and nothing else.  When the
    instances before [des] are hosted on nodes of the graph, the call
    fails at [des] with KeyError if [des] has no host entry, and with
    NodeNotFound if its host, or the source, is not a node of the graph:
    what was routed before [des] is lost and the instances after it are
    not looked at. *)
Theorem get_path_raises (s : Sim) (app dst src : string)
    (alloc : gmap nat string)
    (alloc_mod : gmap string (gmap string (list nat)))
    (modules : gmap string (list nat)) (pre post : list nat) (des : nat) :
  alloc_mod !! app = Some modules ->
  modules !! dst = Some (pre ++ des :: post) ->
  closedb (G s) = true ->
  Forall (fun d => exists n, alloc !! d = Some n /\ has_node (G s) n = true)
    pre ->
  pre = [] \/ has_node (G s) src = true ->
  (alloc !! des = None ->
   get_path s app dst src alloc alloc_mod = Raise KeyError)
  /\ (forall n, alloc !! des = Some n ->
        has_node (G s) src && has_node (G s) n = false ->
        get_path s app dst src alloc alloc_mod = Raise NodeNotFound).
Proof.
  intros Hmod HDES Hc Hpre Hsrc.
  assert (Hloop : exists r, get_path_loop (G s) src alloc pre (mkRoutes [] [] [])
                            = Ok r).
  { destruct Hsrc as [->|Hsrc]; [by eexists|].
    destruct (get_path_loop_spec (G s) src alloc pre (mkRoutes [] [] [])
                Hc Hsrc Hpre) as (r & Hr & _); [constructor|].
    by exists r. }
  destruct Hloop as (r & Hr).
  unfold get_path. rewrite Hmod, HDES, get_path_loop_app, Hr.
  cbn [bind get_path_loop]. split.
  - by intros ->.
  - intros n -> Hn. unfold shortest_path, bidirectional_shortest_path.
    apply andb_false_iff in Hn as [->| ->]; cbn [negb orb]; [reflexivity|].
    by rewrite orb_true_r.
Qed.

Lemma get_path_raises_witness :
  get_path (sim Examples.start) "SecureApp" "ClusterLeader" "area_leader"
    Examples.placement (Examples.deployed [1; 5; 2]%nat) = Raise KeyError
  /\ get_path (sim Examples.start) "SecureApp" "ClusterLeader" "area_leader"
       (<[5%nat := "cluster_9"]> Examples.placement)
       (Examples.deployed [1; 5; 2]%nat) = Raise NodeNotFound.
Proof.
  split.
  - apply (get_path_raises (sim Examples.start) "SecureApp" "ClusterLeader"
             "area_leader" Examples.placement (Examples.deployed [1; 5; 2]%nat)
             (Examples.cluster_leaders [1; 5; 2]%nat) [1%nat] [2%nat] 5%nat
             eq_refl eq_refl).
    + vm_compute. reflexivity.
    + constructor; [|constructor]. exists "cluster_1".
      split; vm_compute; reflexivity.
    + right. vm_compute. reflexivity.
    + vm_compute. reflexivity.
  - apply (get_path_raises (sim Examples.start) "SecureApp" "ClusterLeader"
             "area_leader" (<[5%nat := "cluster_9"]> Examples.placement)
             (Examples.deployed [1; 5; 2]%nat)
             (Examples.cluster_leaders [1; 5; 2]%nat) [1%nat] [2%nat] 5%nat
             eq_refl eq_refl) with (n := "cluster_9").
    + vm_compute. reflexivity.
    + constructor; [|constructor]. exists "cluster_1".
      split; vm_compute; reflexivity.
    + right. vm_compute. reflexivity.
    + vm_compute. reflexivity.
    + vm_compute. reflexivity.
Defined.

Section InitializeSpec.
Implicit Types (g : Graph) (self : MovementManager) (n c : string).

Lemma node_data_kind g n :
  has_node g n = true -> exists d, node_data g n = Ok d /\ type d = kind g n.
Proof.
  unfold has_node, dict_has, node_data, kind.
  destruct (dict_get g n) as [[d a]|]; [eauto|discriminate].
Qed.

Lemma first_cluster_spec g ns :
  Forall (fun v => has_node g v = true) ns ->
  first_cluster g ns = Ok (head (filter (fun v => kind g v = Some CLUSTER) ns)).
Proof.
  induction 1 as [|v ns Hv _ IH]; [reflexivity|].
  cbn [first_cluster]. destruct (node_data_kind g v Hv) as (d & -> & Hd).
  cbn [bind]. rewrite filter_cons, Hd.
  destruct (decide (kind g v = Some CLUSTER)); [reflexivity|exact IH].
Qed.

Lemma first_cluster_attachments g n ns :
  closedb g = true -> neighbors g n = Ok ns ->
  first_cluster g ns = Ok (head (attachments g n)).
Proof.
  intros Hc Hns. unfold neighbors in Hns. unfold attachments, neighbor_list.
  destruct (adj g n) as [a|] eqn:Ea; [|discriminate Hns].
  injection Hns as <-. apply first_cluster_spec, Forall_forall.
  intros v Hv. apply (closedb_spec g n v Hc). unfold has_edge. rewrite Ea.
  by apply dict_has_keys.
Qed.

Lemma initialize_node_spec g self n d :
  closedb g = true -> has_node g n = true -> kind g n = type d ->
  initialize_node g self n d =
  Ok {| ai_monitor := ai_monitor self;
        mobile_nodes :=
          mobile_nodes self ++
          (if decide (kind g n = Some MOBILE) then [n] else []);
        cluster_nodes :=
          cluster_nodes self ++
          (if decide (kind g n = Some CLUSTER) then [n] else []);
        initialized := initialized self;
        node_locations :=
          if decide (kind g n = Some MOBILE) then
            match head (attachments g n) with
            | Some c => <[n := c]> (node_locations self)
            | None => node_locations self
            end
          else node_locations self |}.
Proof.
  intros Hc Hn Hk. unfold initialize_node. rewrite <- Hk.
  destruct (decide (kind g n = Some MOBILE)) as [Hm|Hm].
  - rewrite decide_False by congruence. rewrite app_nil_r.
    apply has_node_adj in Hn as [a Ha].
    assert (Hns : neighbors g n = Ok (dict_keys a))
      by (unfold neighbors; by rewrite Ha).
    rewrite Hns. cbn [bind].
    rewrite (first_cluster_attachments g n _ Hc Hns). reflexivity.
  - destruct (decide (kind g n = Some CLUSTER)).
    + by rewrite app_nil_r.
    + rewrite !app_nil_r. by destruct self.
Qed.

End InitializeSpec.

Section InitializeLoop.
Implicit Types (g : Graph) (self : MovementManager) (n c : string).

Lemma initialize_loop_spec g (items : list (string * NodeData)) :
  closedb g = true ->
  Forall (fun item => has_node g item.1 = true /\ kind g item.1 = type item.2)
    items ->
  forall self, exists self',
    initialize_loop g self items = Ok self'
    /\ ai_monitor self' = ai_monitor self
    /\ initialized self' = initialized self
    /\ mobile_nodes self' =
       mobile_nodes self ++
       filter (fun n => kind g n = Some MOBILE) (map fst items)
    /\ cluster_nodes self' =
       cluster_nodes self ++
       filter (fun n => kind g n = Some CLUSTER) (map fst items)
    /\ forall x, node_locations self' !! x =
         if decide (x ∈ map fst items)
         then located g (node_locations self) x
         else node_locations self !! x.
Proof.
  intros Hc. induction 1 as [|[n d] items [Hn Hk] _ IH]; intros self.
  - exists self. split; [reflexivity|]. cbn [map filter]. rewrite !app_nil_r.
    do 4 (split; [reflexivity|]). intros x.
    rewrite decide_False; [reflexivity|]. apply not_elem_of_nil.
  - cbn [fst snd] in Hn, Hk. cbn [initialize_loop].
    rewrite (initialize_node_spec g self n d Hc Hn Hk). cbn [bind].
    match goal with
    | |- context [initialize_loop g ?s items] =>
        destruct (IH s) as (self' & -> & Hai & Hin & Hmob & Hcl & Hloc)
    end.
    cbn [ai_monitor initialized mobile_nodes cluster_nodes node_locations]
      in Hai, Hin, Hmob, Hcl, Hloc.
    exists self'. split; [reflexivity|]. split; [exact Hai|].
    split; [exact Hin|]. cbn [map fst]. rewrite !filter_cons.
    split; [rewrite Hmob, <- app_assoc;
            by destruct (decide (kind g n = Some MOBILE))|].
    split; [rewrite Hcl, <- app_assoc;
            by destruct (decide (kind g n = Some CLUSTER))|].
    intros x. rewrite Hloc. clear Hloc Hmob Hcl.
    set (locs1 := if decide (kind g n = Some MOBILE)
                  then match head (attachments g n) with
                       | Some c => <[n := c]> (node_locations self)
                       | None => node_locations self
                       end
                  else node_locations self).
    assert (H1 : forall y, locs1 !! y =
                   if decide (y = n) then located g (node_locations self) n
                   else node_locations self !! y).
    { intros y. subst locs1. unfold located.
      destruct (decide (kind g n = Some MOBILE)).
      - destruct (head (attachments g n)) as [c|].
        + destruct (decide (y = n)) as [->|Hy].
          * apply lookup_insert_eq.
          * by apply lookup_insert_ne.
        + by destruct (decide (y = n)) as [->|Hy].
      - by destruct (decide (y = n)) as [->|Hy]. }
    assert (H2 : forall y, located g locs1 y = located g (node_locations self) y).
    { intros y. unfold located.
      destruct (decide (kind g y = Some MOBILE)) as [Hy|Hy].
      - destruct (head (attachments g y)) as [c|] eqn:Ey; [reflexivity|].
        rewrite H1. destruct (decide (y = n)) as [->|]; [|reflexivity].
        unfold located. by rewrite decide_True, Ey.
      - rewrite H1. destruct (decide (y = n)) as [->|]; [|reflexivity].
        unfold located. by rewrite decide_False. }
    destruct (decide (x ∈ map fst items)) as [Hx|Hx].
    + rewrite decide_True by (by right). apply H2.
    + rewrite H1. destruct (decide (x = n)) as [->|Hxn].
      * rewrite decide_True by left. reflexivity.
      * rewrite decide_False; [reflexivity|].
        intros H. apply elem_of_cons in H as [H|H]; done.
Qed.

Lemma nodes_data_items g :
  NoDup (nodes g) ->
  Forall (fun item => has_node g item.1 = true /\ kind g item.1 = type item.2)
    (nodes_data g).
Proof.
  intros Hnd. apply Forall_forall. intros [n d] Hin. cbn [fst snd].
  pose proof (nodes_data_has_node_all g) as Hall.
  rewrite Forall_forall in Hall. split; [exact (Hall _ Hin)|].
  rewrite kind_nodes_data.
  assert (Hget : dict_get (nodes_data g) n = Some d); [|by rewrite Hget].
  assert (Hkeys : NoDup (dict_keys (nodes_data g))).
  { unfold dict_keys, nodes_data. rewrite map_map.
    erewrite map_ext; [exact Hnd|]. by intros [x [dx ax]]. }
  clear Hall. induction (nodes_data g) as [|[x dx] l IH]; [by apply elem_of_nil in Hin|].
  cbn [dict_keys map fst] in Hkeys. apply NoDup_cons in Hkeys as [Hx Hkeys].
  cbn [dict_get]. apply elem_of_cons in Hin as [Heq|Hin].
  - injection Heq as <- <-. by rewrite decide_True.
  - rewrite decide_False; [by apply IH|]. intros ->. apply Hx.
    apply list_elem_of_fmap. by exists (n, d).
Qed.

Lemma nodes_data_names g : map fst (nodes_data g) = nodes g.
Proof.
  unfold nodes, dict_keys, nodes_data. rewrite map_map.
  apply map_ext. by intros [n [d a]].
Qed.

End InitializeLoop.

(** X13.  [initialize] on any graph of the graph class (no node listed
    twice, every neighbour a node): it returns, sets the flag, leaves the
    classifier alone, appends to [mobile_nodes] the MOBILE nodes and to
    [cluster_nodes] the CLUSTER nodes of the graph, each in node order, and
    gives every MOBILE node that has a CLUSTER neighbour its first such
    neighbour as location.  Nodes of another type or without type are
    passed over, and a MOBILE node without CLUSTER neighbour keeps the
    entry it had, if any. *)
Theorem initialize_spec (self : MovementManager) (s : Sim) :
  closedb (G s) = true ->
  NoDup (nodes (G s)) ->
  exists self',
    initialize self s = Ok self'
    /\ initialized self' = true
    /\ ai_monitor self' = ai_monitor self
    /\ mobile_nodes self' =
       mobile_nodes self ++
       filter (fun n => kind (G s) n = Some MOBILE) (nodes (G s))
    /\ cluster_nodes self' =
       cluster_nodes self ++
       filter (fun n => kind (G s) n = Some CLUSTER) (nodes (G s))
    /\ forall n, node_locations self' !! n =
         located (G s) (node_locations self) n.
Proof.
  intros Hc Hnd. unfold initialize.
  destruct (initialize_loop_spec (G s) (nodes_data (G s)) Hc
              (nodes_data_items _ Hnd) self)
    as (self' & -> & Hai & _ & Hmob & Hcl & Hloc).
  cbn [bind]. eexists. split; [reflexivity|].
  cbn [initialized ai_monitor mobile_nodes cluster_nodes node_locations].
  rewrite nodes_data_names in Hmob, Hcl, Hloc.
  split; [reflexivity|]. split; [exact Hai|]. split; [exact Hmob|].
  split; [exact Hcl|]. intros n. rewrite Hloc.
  destruct (decide (n ∈ nodes (G s))) as [Hn|Hn]; [reflexivity|].
  unfold located. rewrite decide_False; [reflexivity|].
  unfold kind. apply dict_get_None in Hn. by rewrite Hn.
Qed.

Lemma initialize_spec_witness :
  exists self',
    initialize (MovementManager_init AI_Monitor_init)
      (mkSim Examples.two_attachments 0) = Ok self'
    /\ mobile_nodes self' = ["iot_0"]
    /\ cluster_nodes self' = ["cluster_1"; "cluster_2"]
    /\ node_locations self' !! "iot_0" = Some "cluster_1".
Proof.
  destruct (initialize_spec (MovementManager_init AI_Monitor_init)
              (mkSim Examples.two_attachments 0))
    as (self' & Hi & _ & _ & Hm & Hc & Hl).
  - vm_compute. reflexivity.
  - apply (bool_decide_unpack _). vm_compute. exact I.
  - exists self'. split; [exact Hi|]. split; [exact Hm|]. split; [exact Hc|].
    rewrite Hl. vm_compute. reflexivity.
Defined.

Section Undirected.
Implicit Types (g : Graph) (u v x y : string) (e : EdgeData).

Lemma dict_get_NoDup {V} (d : dict string V) (k : string) (val : V) :
  NoDup (dict_keys d) -> (k, val) ∈ d -> dict_get d k = Some val.
Proof.
  induction d as [|[k' v'] d IH]; intros Hnd Hin;
    [by apply elem_of_nil in Hin|].
  cbn [dict_keys map fst] in Hnd. apply NoDup_cons in Hnd as [Hk Hnd].
  cbn [dict_get]. apply elem_of_cons in Hin as [Heq|Hin].
  - injection Heq as <- <-. by rewrite decide_True.
  - rewrite decide_False; [by apply IH|]. intros ->. apply Hk.
    apply list_elem_of_fmap. by exists (k, val).
Qed.

Lemma simple_adj g x a : simple g -> adj g x = Some a -> NoDup (dict_keys a).
Proof.
  intros [_ Ha]. unfold adj. destruct (dict_get g x) as [[d a']|] eqn:E;
    [|discriminate].
  intros [= <-]. exact (Forall_dict_get _ _ _ _ Ha E).
Qed.

Lemma symmetricb_undirected g : symmetricb g = true -> undirected g.
Proof.
  unfold symmetricb. intros Hs u v Huv. unfold has_edge, adj in Huv.
  destruct (dict_get g u) as [[d a]|] eqn:E; [|discriminate Huv].
  cbn [fmap option_fmap option_map snd] in Huv.
  apply dict_get_Some, list_elem_of_In in E.
  rewrite forallb_forall in Hs. specialize (Hs _ E). cbn beta iota in Hs.
  rewrite forallb_forall in Hs. apply Hs, list_elem_of_In.
  by apply dict_has_keys.
Qed.

Lemma undirected_closed g : simple g -> undirected g -> closedb g = true.
Proof.
  intros [Hnd _] Hu. unfold closedb. apply forallb_forall. intros [u [d a]] Hin.
  apply forallb_forall. intros v Hv. apply list_elem_of_In in Hin, Hv.
  apply (dict_get_NoDup _ _ _ Hnd) in Hin.
  apply (has_edge_has_node g v u), Hu. unfold has_edge, adj. rewrite Hin.
  by apply dict_has_keys.
Qed.

Lemma has_edge_ensure_node_eq g n x y :
  has_edge (ensure_node g n) x y = has_edge g x y.
Proof.
  unfold has_edge. rewrite adj_ensure_node.
  destruct (has_node g n) eqn:E; [reflexivity|].
  destruct (decide (n = x)) as [->|]; [|reflexivity].
  destruct (adj g x) as [a|] eqn:Ea; [|reflexivity].
  assert (is_Some (adj g x)) as Hs%has_node_adj by eauto. congruence.
Qed.

Lemma has_edge_set_adj_iff g u v e x y :
  has_edge (set_adj g u v e) x y = true <->
  has_edge g x y = true \/ (x = u /\ y = v /\ has_node g u = true).
Proof.
  unfold has_edge. rewrite adj_set_adj.
  destruct (decide (u = x)) as [->|Hne].
  - destruct (adj g x) as [a|] eqn:Ea; cbn [fmap option_fmap option_map].
    + rewrite dict_has_set. destruct (decide (v = y)) as [->|Hvy].
      * split; [intros _; right|done]. repeat split.
        apply has_node_adj. eauto.
      * split; [by left|]. intros [H|(_ & -> & _)]; done.
    + split; [done|]. intros [H|(_ & _ & H)]; [done|].
      apply has_node_adj in H as [a Ha]. congruence.
  - split; [by left|]. intros [H|(-> & _)]; done.
Qed.

Lemma has_edge_add_edge_iff g u v e x y :
  has_edge (add_edge g u v e) x y = true <->
  has_edge g x y = true \/ (x = u /\ y = v) \/ (x = v /\ y = u).
Proof.
  split.
  - unfold add_edge. rewrite !has_edge_set_adj_iff, !has_edge_ensure_node_eq.
    intros [[H|(-> & -> & _)]|(-> & -> & _)]; auto.
  - intros [H|[[-> ->]|[-> ->]]].
    + by apply has_edge_add_edge_mono.
    + apply has_edge_add_edge.
    + apply has_edge_add_edge.
Qed.

Lemma has_edge_del_adj g u v g' x y :
  simple g -> del_adj g u v = Ok g' ->
  has_edge g' x y = true <-> has_edge g x y = true /\ ~ (x = u /\ y = v).
Proof.
  intros Hs Hd. apply del_adj_Ok in Hd as (_ & _ & Ha).
  unfold has_edge. rewrite Ha. destruct (decide (u = x)) as [->|Hne].
  - destruct (adj g x) as [a|] eqn:Ea; cbn [fmap option_fmap option_map];
      [|split; [done|by intros [? _]]].
    destruct (decide (v = y)) as [->|Hvy].
    + pose proof (simple_adj _ _ _ Hs Ea) as Hnd.
      apply (dict_keys_del_NoDup _ y) in Hnd as [_ Hy].
      apply dict_has_false in Hy. rewrite Hy. split; [done|].
      intros [_ H]. destruct H. done.
    + rewrite dict_has_del_ne by done. split; [|by intros [? _]].
      intros H. split; [done|]. intros [_ ->]. done.
  - split; [|by intros [? _]]. intros H. split; [done|]. intros [-> _]. done.
Qed.

Lemma has_edge_remove_edge g u v g' x y :
  simple g -> remove_edge g u v = Ok g' ->
  has_edge g' x y = true <->
  has_edge g x y = true /\ ~ (x = u /\ y = v) /\ ~ (x = v /\ y = u).
Proof.
  intros Hs. unfold remove_edge.
  destruct (del_adj g u v) as [g1|] eqn:E1; cbn [bind]; [|discriminate].
  pose proof (simple_del_adj _ _ _ _ Hs E1) as Hs1.
  destruct (decide (u = v)) as [->|Hne].
  - intros [= <-]. rewrite (has_edge_del_adj _ _ _ _ x y Hs E1). tauto.
  - intros E2. rewrite (has_edge_del_adj _ _ _ _ x y Hs1 E2).
    rewrite (has_edge_del_adj _ _ _ _ x y Hs E1). tauto.
Qed.

Lemma undirected_add_edge g u v e :
  undirected g -> undirected (add_edge g u v e).
Proof.
  intros Hu x y. rewrite !has_edge_add_edge_iff.
  intros [H|[[-> ->]|[-> ->]]]; auto.
Qed.

Lemma undirected_remove_edge g u v g' :
  simple g -> undirected g -> remove_edge g u v = Ok g' -> undirected g'.
Proof.
  intros Hs Hu Hr x y.
  rewrite (has_edge_remove_edge _ _ _ _ x y Hs Hr).
  rewrite (has_edge_remove_edge _ _ _ _ y x Hs Hr).
  intros (H & H1 & H2). split; [by apply Hu|]. tauto.
Qed.

Lemma remove_edge_undirected_returns g u v :
  undirected g -> has_edge g u v = true ->
  exists g', remove_edge g u v = Ok g'.
Proof.
  intros Hu Huv. unfold remove_edge.
  destruct (del_adj_returns g u v Huv) as [g1 Hg1]. rewrite Hg1. cbn [bind].
  destruct (decide (u = v)) as [->|Hne]; [eauto|].
  apply del_adj_returns. apply del_adj_Ok in Hg1 as (_ & _ & Ha1).
  pose proof (Hu _ _ Huv) as Hvu. unfold has_edge in *. rewrite Ha1.
  by rewrite decide_False.
Qed.

Lemma detach_undirected g node cur :
  simple g -> undirected g ->
  exists g1, detach g node cur = Ok g1 /\ simple g1 /\ undirected g1.
Proof.
  intros Hs Hu. unfold detach. destruct cur as [c|]; [|eauto].
  destruct (truthy (Some c) && has_edge g node c) eqn:E; [|eauto].
  apply andb_true_iff in E as [_ E].
  destruct (remove_edge_undirected_returns g node c Hu E) as [g1 Hg1].
  exists g1. split; [exact Hg1|]. split.
  - by eapply simple_remove_edge.
  - by eapply undirected_remove_edge.
Qed.

End Undirected.

(** X14.  On every graph of the graph class (no node and no neighbour
    listed twice, adjacency symmetric) and in every state of the monitor, a
    Mobility Monitor invocation returns: neither the lookups of
    [initialize], nor the two random choices, nor [remove_edge] raise.  The
    graph it leaves is again of the graph class, so this holds for every
    later invocation as well. *)
Theorem MovementManager_call_returns (w : World) (r_node r_cluster : nat) :
  simple (G (sim w)) ->
  undirected (G (sim w)) ->
  exists w',
    MovementManager_call w r_node r_cluster = Ok w'
    /\ simple (G (sim w'))
    /\ undirected (G (sim w')).
Proof.
  intros Hs Hu.
  destruct (ready_returns w (undirected_closed _ Hs Hu)) as [self Hr].
  unfold MovementManager_call. rewrite Hr. cbn [bind].
  destruct (mobile_nodes self) as [|m ms] eqn:Em; [by eexists|].
  destruct (choice_elem r_node (m :: ms)) as (node & -> & _); [done|].
  cbn [bind].
  destruct (filter (fun c => Some c <> node_locations self !! node)
              (cluster_nodes self)) as [|p ps] eqn:Ef; [by eexists|].
  destruct (choice_elem r_cluster (p :: ps)) as (to & -> & _); [done|].
  cbn [bind].
  destruct (check_node_movement (ai_monitor self) node (now (sim w)))
    as [ai st].
  destruct (detach_undirected (G (sim w)) node (node_locations self !! node)
              Hs Hu) as (g1 & -> & Hs1 & Hu1).
  cbn [bind]. eexists. split; [reflexivity|]. cbn [sim G]. split.
  - by apply simple_add_edge.
  - by apply undirected_add_edge.
Qed.

Lemma MovementManager_call_returns_witness :
  exists w',
    MovementManager_call (Examples.world_of Examples.two_attachments) 0 1
      = Ok w'
    /\ undirected (G (sim w')).
Proof.
  destruct (MovementManager_call_returns
              (Examples.world_of Examples.two_attachments) 0 1)
    as (w' & H & _ & Hu).
  - cbn [Examples.world_of sim G]. unfold Examples.two_attachments.
    repeat first [apply simple_add_edge | apply simple_add_node].
    apply simple_empty.
  - apply symmetricb_undirected. vm_compute. reflexivity.
  - exists w'. split; [exact H|exact Hu].
Defined.

Section EdgeData.
Implicit Types (g : Graph) (u v x y n : string) (e : EdgeData).

Lemma has_edge_edge_data g x y :
  has_edge g x y = true <-> is_Some (edge_data g x y).
Proof.
  unfold has_edge, edge_data, dict_has. destruct (adj g x) as [a|].
  - destruct (dict_get a y); split; eauto; try discriminate.
    intros [? ?]. discriminate.
  - split; [discriminate|]. intros [? ?]. discriminate.
Qed.

Lemma adj_add_node g n d x :
  adj (add_node g n d) x =
  if decide (n = x) then Some (default [] (adj g x)) else adj g x.
Proof.
  unfold add_node, adj.
  destruct (dict_get g n) as [[d0 a]|] eqn:E;
    (destruct (decide (n = x)) as [->|Hne];
     [rewrite dict_get_set_eq, ?E; reflexivity
     |by rewrite dict_get_set_ne]).
Qed.

Lemma edge_data_add_node g n d x y :
  edge_data (add_node g n d) x y = edge_data g x y.
Proof.
  unfold edge_data. rewrite adj_add_node.
  destruct (decide (n = x)) as [->|]; [|reflexivity].
  by destruct (adj g x).
Qed.

Lemma edge_data_ensure_node g n x y :
  edge_data (ensure_node g n) x y = edge_data g x y.
Proof.
  unfold edge_data. rewrite adj_ensure_node.
  destruct (has_node g n) eqn:E; [reflexivity|].
  destruct (decide (n = x)) as [->|]; [|reflexivity].
  destruct (adj g x) as [a|] eqn:Ea; [|reflexivity].
  assert (is_Some (adj g x)) as Hs%has_node_adj by eauto. congruence.
Qed.

Lemma edge_data_set_adj g u v e x y e' :
  edge_data (set_adj g u v e) x y = Some e' ->
  edge_data g x y = Some e' \/ (x = u /\ y = v /\ e' = e).
Proof.
  unfold edge_data. rewrite adj_set_adj.
  destruct (decide (u = x)) as [->|]; [|by left].
  destruct (adj g x) as [a|]; cbn [fmap option_fmap option_map]; [|discriminate].
  destruct (decide (v = y)) as [->|Hne].
  - rewrite dict_get_set_eq. intros [= <-]. by right.
  - rewrite dict_get_set_ne by done. by left.
Qed.

Lemma edge_data_add_edge_inv g u v e x y e' :
  edge_data (add_edge g u v e) x y = Some e' ->
  edge_data g x y = Some e'
  \/ (x = u /\ y = v /\ e' = e) \/ (x = v /\ y = u /\ e' = e).
Proof.
  unfold add_edge. intros H.
  apply edge_data_set_adj in H as [H|H]; [|by right; right].
  apply edge_data_set_adj in H as [H|H]; [|by right; left].
  rewrite !edge_data_ensure_node in H. by left.
Qed.

Lemma edge_data_del_adj g u v g' x y e :
  simple g -> del_adj g u v = Ok g' ->
  edge_data g' x y = Some e -> edge_data g x y = Some e.
Proof.
  intros Hs Hd. apply del_adj_Ok in Hd as (_ & _ & Ha).
  unfold edge_data. rewrite Ha. destruct (decide (u = x)) as [->|]; [|done].
  destruct (adj g x) as [a|] eqn:Ea; cbn [fmap option_fmap option_map]; [|done].
  destruct (decide (v = y)) as [->|Hne].
  - pose proof (simple_adj _ _ _ Hs Ea) as Hnd.
    apply (dict_keys_del_NoDup _ y) in Hnd as [_ Hy].
    apply dict_get_None in Hy. rewrite Hy. discriminate.
  - by rewrite dict_get_del_ne.
Qed.

Lemma edge_data_remove_edge g u v g' x y e :
  simple g -> remove_edge g u v = Ok g' ->
  edge_data g' x y = Some e -> edge_data g x y = Some e.
Proof.
  intros Hs. unfold remove_edge.
  destruct (del_adj g u v) as [g1|] eqn:E1; cbn [bind]; [|discriminate].
  pose proof (simple_del_adj _ _ _ _ Hs E1) as Hs1.
  destruct (decide (u = v)) as [->|Hne].
  - intros [= <-]. by eapply edge_data_del_adj.
  - intros E2 H. eapply edge_data_del_adj; [exact Hs|exact E1|].
    by eapply edge_data_del_adj.
Qed.

Lemma edge_data_detach g node cur g1 x y e :
  simple g -> detach g node cur = Ok g1 ->
  edge_data g1 x y = Some e -> edge_data g x y = Some e.
Proof.
  intros Hs. unfold detach. destruct cur as [c|]; [|by intros [= <-]].
  destruct (truthy (Some c) && has_edge g node c); [|by intros [= <-]].
  by apply edge_data_remove_edge.
Qed.

Lemma has_edge_add_node g n d x y :
  has_edge (add_node g n d) x y = has_edge g x y.
Proof.
  unfold has_edge. rewrite adj_add_node.
  destruct (decide (n = x)) as [->|]; [|reflexivity].
  by destruct (adj g x).
Qed.

Lemma undirected_add_node g n d : undirected g -> undirected (add_node g n d).
Proof. intros Hu x y. rewrite !has_edge_add_node. apply Hu. Qed.

Lemma undirected_empty : undirected Nx.empty.
Proof. intros x y H. discriminate H. Qed.

Lemma allowed_sym x y e : allowed x y e -> allowed y x e.
Proof. unfold allowed. tauto. Qed.

Lemma only_allowed_add_node g n d :
  only_allowed g -> only_allowed (add_node g n d).
Proof. intros H x y e. rewrite edge_data_add_node. apply H. Qed.

Lemma only_allowed_add_edge g u v e :
  only_allowed g -> allowed u v e -> only_allowed (add_edge g u v e).
Proof.
  intros Hg Ha x y e' H.
  apply edge_data_add_edge_inv in H as [H|[(-> & -> & ->)|(-> & -> & ->)]].
  - by apply Hg.
  - exact Ha.
  - by apply allowed_sym.
Qed.

Lemma only_allowed_empty : only_allowed Nx.empty.
Proof. intros x y e H. discriminate H. Qed.

End EdgeData.

Section TopologyRuns.
Implicit Types (g : Graph) (w : World) (a : Action).

Lemma cluster_name_in i :
  i ∈ seq 1 3 -> cluster_name i ∈ cluster_names.
Proof. intros H. unfold cluster_names. apply list_elem_of_fmap. eauto. Qed.

Lemma fixed_topology_allowed :
  undirected fixed_topology /\ only_allowed fixed_topology.
Proof.
  unfold fixed_topology.
  assert (H : forall l g, (forall i, i ∈ l -> i ∈ seq 1 3) ->
            undirected g /\ only_allowed g ->
            undirected (fold_left add_cluster l g)
            /\ only_allowed (fold_left add_cluster l g)).
  { induction l as [|i l IH]; intros g Hl [Hu Ho]; [by split|].
    cbn [fold_left]. apply IH; [intros j Hj; apply Hl; by right|].
    unfold add_cluster. split.
    - by apply undirected_add_edge, undirected_add_node.
    - apply only_allowed_add_edge; [by apply only_allowed_add_node|].
      left. split; [reflexivity|]. split; [|reflexivity].
      apply cluster_name_in, Hl. left. }
  apply H; [done|]. split.
  - apply undirected_add_node, undirected_empty.
  - apply only_allowed_add_node, only_allowed_empty.
Qed.

Lemma place_mobile_allowed names : forall rnd g log g' log',
  (forall n, n ∈ names -> n ∈ mobile_node_names) ->
  undirected g -> only_allowed g ->
  place_mobile rnd names g log = Ok (g', log') ->
  undirected g' /\ only_allowed g'.
Proof.
  induction names as [|name names IH]; intros rnd g log g' log' Hn Hu Ho H.
  - cbn [place_mobile] in H. injection H as <- _. by split.
  - cbn [place_mobile] in H.
    destruct (choice_elem (rnd O) cluster_names) as (c & Hc & Hin);
      [rewrite cluster_names_eq; discriminate|].
    rewrite Hc in H. cbn [bind] in H.
    eapply IH; [| | |exact H].
    + intros n Hin'. apply Hn. by right.
    + by apply undirected_add_edge, undirected_add_node.
    + apply only_allowed_add_edge; [by apply only_allowed_add_node|].
      right; right; left. split; [apply Hn; left|]. by split.
Qed.

Lemma run_simulation_setup_allowed rnd routing0 (w0 : World) :
  run_simulation_setup rnd routing0 = Ok w0 ->
  undirected (G (sim w0)) /\ only_allowed (G (sim w0)).
Proof.
  unfold run_simulation_setup.
  destruct (place_mobile rnd mobile_node_names fixed_topology [])
    as [[g log]|] eqn:Ep; [|discriminate].
  cbn [bind]. intros [= <-]. cbn [sim G].
  destruct fixed_topology_allowed as [Hu Ho].
  by eapply place_mobile_allowed.
Qed.

Lemma step_allowed (w0 : World) w a w' out :
  consistent w0 w ->
  undirected (G (sim w)) -> only_allowed (G (sim w)) ->
  step w a = Ok (w', out) ->
  undirected (G (sim w')) /\ only_allowed (G (sim w')).
Proof.
  intros Hc Hu Ho Hs. destruct a as [t r1 r2|t rnd|t m].
  - cbn [step time_of] in Hs.
    destruct (MovementManager_call (at_time w t) r1 r2) as [w1|] eqn:E;
      [|discriminate Hs].
    cbn [bind] in Hs. injection Hs as <- _.
    apply (consistent_at_time w0 w t) in Hc.
    destruct (ready_consistent w0 _ Hc) as (self0 & Hr0 & _ & Hmob & Hcl & _).
    destruct Hc as (_ & Hsimple & _).
    apply MovementManager_call_cases in E
      as (self & Hr & [->|(node & to & g1 & Hn & Hto & _ & Hd & ->)]).
    + by split.
    + rewrite Hr0 in Hr. injection Hr as <-. rewrite Hmob in Hn.
      rewrite Hcl in Hto. cbn [at_time sim G] in *.
      destruct (detach_undirected (G (sim w)) node
                  (node_locations self0 !! node) Hsimple Hu)
        as (g1' & Hd' & _ & Hu1).
      rewrite Hd in Hd'. injection Hd' as <-. split.
      * by apply undirected_add_edge.
      * apply only_allowed_add_edge.
        -- intros x y e He. apply Ho. by eapply edge_data_detach.
        -- right; right; left. split; [exact Hn|]. by split.
  - cbn [step time_of] in Hs.
    destruct (RekeyingManager_call (at_time w t) rnd) as [w1|] eqn:E;
      [|discriminate Hs].
    cbn [bind] in Hs. injection Hs as <- _.
    apply RekeyingManager_call_Ok in E as (seed & key & ->). by split.
  - apply step_Route in Hs as (-> & _). by split.
Qed.

Lemma run_allowed (w0 : World) actions : forall w w' outs,
  consistent w0 w ->
  undirected (G (sim w)) -> only_allowed (G (sim w)) ->
  run w actions = Ok (w', outs) ->
  undirected (G (sim w')) /\ only_allowed (G (sim w')).
Proof.
  induction actions as [|a actions IH]; intros w w' outs Hc Hu Ho Hr.
  - cbn [run] in Hr. injection Hr as <- _. by split.
  - apply run_cons in Hr as (w1 & o1 & o2 & Hs & Hr & _).
    destruct (step_allowed _ _ _ _ _ Hc Hu Ho Hs) as [Hu1 Ho1].
    eapply IH; [|exact Hu1|exact Ho1|exact Hr]. by eapply step_consistent.
Qed.

Lemma leader_not_cluster : "area_leader" ∉ cluster_names.
Proof.
  rewrite cluster_names_eq. intros H. rewrite ?elem_of_cons, elem_of_nil in H.
  destruct H as [H|[H|[H|[]]]]; discriminate H.
Qed.

Lemma leader_not_mobile : "area_leader" ∉ mobile_node_names.
Proof.
  rewrite mobile_node_names_eq. intros H.
  rewrite ?elem_of_cons, elem_of_nil in H.
  destruct H as [H|[H|[H|[H|[H|[]]]]]]; discriminate H.
Qed.

(** The same pair of nodes is allowed one kind of edge only. *)
Lemma allowed_data x y e e' : allowed x y e -> allowed y x e' -> e = e'.
Proof.
  intros H1 H2.
  destruct H1 as [(Ha & Hb & ->)|[(Hb & Ha & ->)|[(Ha & Hb & ->)|(Hb & Ha & ->)]]];
    destruct H2
      as [(Hb2 & Ha2 & ->)|[(Ha2 & Hb2 & ->)|[(Hb2 & Ha2 & ->)|(Ha2 & Hb2 & ->)]]];
    try reflexivity; exfalso.
  - rewrite Ha in Ha2. exact (leader_not_cluster Ha2).
  - rewrite Ha in Ha2. exact (leader_not_mobile Ha2).
  - rewrite Hb in Hb2. exact (leader_not_mobile Hb2).
  - rewrite Hb in Hb2. exact (leader_not_cluster Hb2).
  - exact (mobile_not_cluster x x Ha Ha2 eq_refl).
  - rewrite Ha2 in Ha. exact (leader_not_mobile Ha).
  - rewrite Hb2 in Hb. exact (leader_not_mobile Hb).
  - exact (mobile_not_cluster y y Hb Hb2 eq_refl).
Qed.

End TopologyRuns.

(** X15.  The topology at every point of a run, edge by edge: the graph
    holds the edges between the area leader and each cluster, with BW 10
    and PR 1, and for every mobile node the edge to the one cluster it
    hangs on, with BW 5 and PR 2, each edge recorded in both directions
    with the same attributes; and it holds no other edge. *)
Theorem run_topology (w : World) (x y : string) (e : EdgeData) :
  reachable w ->
  let g := G (sim w) in
  edge_data g x y = Some e <->
  (x = "area_leader" /\ kind g y = Some CLUSTER /\ e = mkEdgeData 10 1)
  \/ (y = "area_leader" /\ kind g x = Some CLUSTER /\ e = mkEdgeData 10 1)
  \/ (kind g x = Some MOBILE /\ attachments g x = [y] /\ e = mkEdgeData 5 2)
  \/ (kind g y = Some MOBILE /\ attachments g y = [x] /\ e = mkEdgeData 5 2).
Proof.
  intros (rnd & r0 & w0 & Hs & Hfrom) g.
  pose proof (reachable_consistent _ _ _ _ Hs Hfrom) as Hc.
  destruct Hfrom as (actions & outs & Hr).
  pose proof (run_simulation_setup_consistent _ _ _ Hs) as Hc0.
  pose proof (run_leader w0 actions w0 w outs Hc0
                (run_simulation_setup_leader _ _ _ Hs) Hr) as Hnb.
  destruct (run_simulation_setup_allowed _ _ _ Hs) as [Hu0 Ho0].
  destruct (run_allowed w0 actions w0 w outs Hc0 Hu0 Ho0 Hr) as [Hu Ho].
  pose proof (placed_neighbors _ _ Hc) as Hpl. rewrite Forall_forall in Hpl.
  destruct Hc as (Hg & _). fold g in Hg, Hnb, Hu, Ho, Hpl.
  assert (Hmobile : forall n c e', n ∈ mobile_node_names ->
            edge_data g n c = Some e' -> attachments g n = [c]).
  { intros n c e' Hn He. destruct (Hpl n Hn) as (c' & Hc' & Hn').
    assert (Hin : c ∈ neighbor_list g n)
      by (apply has_edge_adj, has_edge_edge_data; eauto).
    rewrite Hn' in Hin. apply list_elem_of_singleton in Hin as ->.
    apply attachments_single; [exact Hn'|].
    exact (proj1 (cluster_facts g c' Hg Hc')). }
  assert (Hflip : forall a b e', edge_data g a b = Some e' ->
            edge_data g b a = Some e').
  { intros a b e' He.
    assert (Hba : has_edge g b a = true)
      by (apply Hu, has_edge_edge_data; eauto).
    apply has_edge_edge_data in Hba as [e'' He'']. rewrite He''. f_equal.
    symmetry. exact (allowed_data _ _ _ _ (Ho _ _ _ He) (Ho _ _ _ He'')). }
  split.
  - intros He. pose proof (Ho _ _ _ He) as Ha.
    destruct Ha as [(-> & Hy & ->)|[(-> & Hx & ->)|[(Hx & Hy & ->)|(Hy & Hx & ->)]]].
    + left. split; [reflexivity|].
      split; [exact (proj1 (cluster_facts g y Hg Hy))|reflexivity].
    + right; left. split; [reflexivity|].
      split; [exact (proj1 (cluster_facts g x Hg Hx))|reflexivity].
    + right; right; left. split; [exact (proj1 (mobile_facts g x Hg Hx))|].
      split; [exact (Hmobile _ _ _ Hx He)|reflexivity].
    + right; right; right. split; [exact (proj1 (mobile_facts g y Hg Hy))|].
      split; [|reflexivity]. exact (Hmobile _ _ _ Hy (Hflip _ _ _ He)).
  - assert (Hleader : forall c, kind g c = Some CLUSTER ->
              edge_data g "area_leader" c = Some (mkEdgeData 10 1)).
    { intros c Hk. apply (kind_cluster _ _ Hg) in Hk.
      assert (Hin : has_edge g "area_leader" c = true)
        by (apply has_edge_adj; rewrite Hnb; exact Hk).
      apply has_edge_edge_data in Hin as [e' He']. rewrite He'. f_equal.
      apply (allowed_data "area_leader" c); [apply Ho; exact He'|].
      right; left. split; [reflexivity|]. split; [exact Hk|reflexivity]. }
    assert (Hattach : forall n c, kind g n = Some MOBILE ->
              attachments g n = [c] ->
              edge_data g n c = Some (mkEdgeData 5 2)).
    { intros n c Hk Hat. apply (kind_mobile _ _ Hg) in Hk.
      destruct (Hpl n Hk) as (c' & Hc' & Hn').
      rewrite (attachments_single g n c' Hn'
                 (proj1 (cluster_facts g c' Hg Hc'))) in Hat.
      injection Hat as <-.
      assert (Hin : has_edge g n c' = true)
        by (apply has_edge_adj; rewrite Hn'; left).
      apply has_edge_edge_data in Hin as [e' He']. rewrite He'. f_equal.
      apply (allowed_data n c'); [apply Ho; exact He'|].
      right; right; right. split; [exact Hk|]. split; [exact Hc'|reflexivity]. }
    intros [(-> & Hk & ->)|[(-> & Hk & ->)|[(Hk & Hat & ->)|(Hk & Hat & ->)]]].
    + exact (Hleader _ Hk).
    + exact (Hflip _ _ _ (Hleader _ Hk)).
    + exact (Hattach _ _ Hk Hat).
    + exact (Hflip _ _ _ (Hattach _ _ Hk Hat)).
Qed.

Lemma run_topology_witness :
  edge_data (G (sim Examples.moved)) "cluster_2" "area_leader"
    = Some (mkEdgeData 10 1)
  /\ edge_data (G (sim Examples.moved)) "iot_0" "cluster_1"
     = Some (mkEdgeData 5 2).
Proof.
  assert (Hr : reachable Examples.moved).
  { destruct (step Examples.start (Move 30 0 0)) as [[w o]|e] eqn:E;
      [|vm_compute in E; discriminate].
    replace Examples.moved with w
      by (unfold Examples.moved; rewrite E; reflexivity).
    exact (reachable_step _ _ _ _ start_reachable E). }
  split.
  - apply (run_topology Examples.moved "cluster_2" "area_leader"
             (mkEdgeData 10 1) Hr).
    right; left. split; [reflexivity|]. split; [|reflexivity].
    vm_compute. reflexivity.
  - apply (run_topology Examples.moved "iot_0" "cluster_1"
             (mkEdgeData 5 2) Hr).
    right; right; left. split; [vm_compute; reflexivity|].
    split; [vm_compute; reflexivity|reflexivity].
Defined.

Section Shape.
Implicit Types (g : Graph) (v s t : string).

Lemma dict_get_shape g v :
  dict_get (shape g) v = (fun x => dict_keys x.2) <$> dict_get g v.
Proof.
  unfold shape. induction g as [|[n [d a]] g IH]; [reflexivity|].
  cbn [map dict_get]. destruct (decide (n = v)); [reflexivity|exact IH].
Qed.

Lemma shape_adj g g' v :
  shape g = shape g' -> dict_keys <$> adj g v = dict_keys <$> adj g' v.
Proof.
  intros H. pose proof (dict_get_shape g v) as H1.
  pose proof (dict_get_shape g' v) as H2. rewrite H in H1.
  rewrite H1 in H2. unfold adj.
  destruct (dict_get g v) as [[d a]|], (dict_get g' v) as [[d' a']|];
    cbn in H2 |- *; congruence.
Qed.

Lemma shape_has_node g g' v :
  shape g = shape g' -> has_node g v = has_node g' v.
Proof.
  intros H. pose proof (shape_adj g g' v H) as Ha.
  unfold has_node, dict_has, adj in *.
  destruct (dict_get g v), (dict_get g' v); cbn in Ha; congruence.
Qed.

Lemma shape_all_neighbors g : all_neighbors g = concat (map snd (shape g)).
Proof.
  unfold all_neighbors, shape. rewrite map_map. f_equal.
  apply map_ext. by intros [n [d a]].
Qed.

Lemma shape_scan_level g g' level :
  shape g = shape g' ->
  forall mine other fringe,
    scan_level g level mine other fringe = scan_level g' level mine other fringe.
Proof.
  intros H. induction level as [|v level IH]; intros mine other fringe;
    [reflexivity|].
  cbn [scan_level]. pose proof (shape_adj g g' v H) as Ha.
  destruct (adj g v) as [a|], (adj g' v) as [a'|]; cbn in Ha;
    try discriminate Ha; [|reflexivity].
  injection Ha as ->.
  destruct (scan_adj v (dict_keys a') mine other fringe); [reflexivity|].
  apply IH.
Qed.

Lemma shape_search g g' fuel :
  shape g = shape g' ->
  forall pred succ ff rf,
    search fuel g pred succ ff rf = search fuel g' pred succ ff rf.
Proof.
  intros H. induction fuel as [|fuel IH]; intros pred succ ff rf;
    [reflexivity|].
  cbn [search]. destruct ff as [|f ff]; [reflexivity|].
  destruct rf as [|r rf]; [reflexivity|].
  rewrite !(shape_scan_level g g' _ H).
  destruct (length (f :: ff) <=? length (r :: rf))%nat.
  - destruct (scan_level g' (f :: ff) pred succ []) as [[m w|m fr]|];
      cbn [bind]; try reflexivity. apply IH.
  - destruct (scan_level g' (r :: rf) succ pred []) as [[m w|m fr]|];
      cbn [bind]; try reflexivity. apply IH.
Qed.

Lemma shape_shortest_path g g' s t :
  shape g = shape g' -> shortest_path g s t = shortest_path g' s t.
Proof.
  intros H. unfold shortest_path, bidirectional_shortest_path.
  rewrite !(shape_has_node g g' _ H).
  unfold _bidirectional_pred_succ, search_bound.
  by rewrite !shape_all_neighbors, H, (shape_search g g' _ H).
Qed.

Lemma shape_get_path_loop g g' src alloc DES :
  shape g = shape g' ->
  forall acc,
    get_path_loop g src alloc DES acc = get_path_loop g' src alloc DES acc.
Proof.
  intros H. induction DES as [|des DES IH]; intros acc; [reflexivity|].
  cbn [get_path_loop]. destruct (alloc !! des) as [n|]; [|reflexivity].
  rewrite (shape_shortest_path g g' src n H).
  destruct (shortest_path g' src n) as [p|[]]; try reflexivity; apply IH.
Qed.

End Shape.

(** X16.  Routing looks at the shape of the graph only: two states whose
    graphs have the same nodes and the same neighbour lists get the same
    answer from the router, whatever the bandwidth and propagation
    attributes of the edges, the attributes of the nodes and the clock
    are. *)
Theorem get_path_shape (s s' : Sim) (app dst src : string)
    (alloc : gmap nat string)
    (alloc_mod : gmap string (gmap string (list nat))) :
  shape (G s) = shape (G s') ->
  get_path s app dst src alloc alloc_mod =
  get_path s' app dst src alloc alloc_mod.
Proof.
  intros H. unfold get_path.
  destruct (alloc_mod !! app) as [modules|]; [|reflexivity].
  destruct (modules !! dst) as [DES|]; [|reflexivity].
  by apply shape_get_path_loop.
Qed.

Lemma get_path_shape_witness :
  get_path (mkSim Examples.one_cluster 0) "SecureApp" "ClusterLeader" "iot_0"
    Examples.placement (Examples.deployed [1]%nat) =
  get_path
    (mkSim (add_edge Examples.one_cluster "iot_0" "cluster_1"
              (mkEdgeData 1 1000)) 7)
    "SecureApp" "ClusterLeader" "iot_0"
    Examples.placement (Examples.deployed [1]%nat).
Proof.
  apply get_path_shape. vm_compute. reflexivity.
Defined.

Section SearchComplete.
Implicit Types (g : Graph) (m mine other pred succ : Links).
Implicit Types (u v w x s t : string) (l fringe new : list string).

Lemma known_insert m w o x : known (<[w := o]> m) x <-> x = w \/ known m x.
Proof.
  unfold known. destruct (decide (x = w)) as [->|Hne].
  - rewrite lookup_insert_eq. split; [by left|eauto].
  - rewrite lookup_insert_ne by done. split; [by right|].
    intros [?|?]; done.
Qed.

Lemma scan_adj_next v ws : forall mine other fringe mine' fringe',
  scan_adj v ws mine other fringe = Next mine' fringe' ->
  exists new,
    fringe' = fringe ++ new
    /\ (forall x, known mine' x <-> known mine x \/ x ∈ new)
    /\ (forall w, w ∈ ws -> known mine' w)
    /\ (forall x, x ∈ new -> other !! x = None).
Proof.
  induction ws as [|w ws IH]; intros mine other fringe mine' fringe' H.
  - cbn [scan_adj] in H. injection H as <- <-. exists [].
    split; [by rewrite app_nil_r|]. split.
    + intros x. split; [by left|]. intros [?|Hx]; [done|].
      by apply elem_of_nil in Hx.
    + split; intros x Hx; by apply elem_of_nil in Hx.
  - cbn [scan_adj] in H. destruct (other !! w) eqn:Eo.
    { by destruct (mine !! w). }
    destruct (mine !! w) as [o|] eqn:Em.
    + apply IH in H as (new & -> & Hk & Hws & Hnew). exists new.
      split; [reflexivity|]. split; [exact Hk|]. split; [|exact Hnew].
      intros x Hx. apply elem_of_cons in Hx as [->|Hx]; [|by apply Hws].
      apply Hk. left. unfold known. by rewrite Em.
    + apply IH in H as (new & -> & Hk & Hws & Hnew). exists (w :: new).
      split; [by rewrite <- app_assoc|]. split; [|split].
      * intros x. rewrite Hk, known_insert, elem_of_cons. tauto.
      * intros x Hx. apply elem_of_cons in Hx as [->|Hx]; [|by apply Hws].
        apply Hk. left. apply known_insert. by left.
      * intros x Hx. apply elem_of_cons in Hx as [->|Hx]; [done|].
        by apply Hnew.
Qed.

Lemma scan_level_next g level : forall mine other fringe mine' fringe',
  scan_level g level mine other fringe = Ok (Next mine' fringe') ->
  exists new,
    fringe' = fringe ++ new
    /\ (forall x, known mine' x <-> known mine x \/ x ∈ new)
    /\ (forall v w, v ∈ level -> has_edge g v w = true -> known mine' w)
    /\ (forall x, x ∈ new -> other !! x = None).
Proof.
  induction level as [|v level IH]; intros mine other fringe mine' fringe' H.
  - cbn [scan_level] in H. injection H as <- <-. exists [].
    split; [by rewrite app_nil_r|]. split.
    + intros x. split; [by left|]. intros [?|Hx]; [done|].
      by apply elem_of_nil in Hx.
    + split; [intros v w Hv; by apply elem_of_nil in Hv|].
      intros x Hx. by apply elem_of_nil in Hx.
  - cbn [scan_level] in H. destruct (adj g v) as [a|] eqn:Ea; [|discriminate H].
    destruct (scan_adj v (dict_keys a) mine other fringe) as [m1 w1|m1 f1] eqn:E1;
      [discriminate H|].
    apply scan_adj_next in E1 as (new1 & -> & Hk1 & Hws1 & Hnew1).
    apply IH in H as (new2 & -> & Hk2 & Hlv2 & Hnew2).
    exists (new1 ++ new2). split; [by rewrite app_assoc|]. split; [|split].
    + intros x. rewrite Hk2, Hk1, elem_of_app. tauto.
    + intros u w Hu Huw. apply elem_of_cons in Hu as [->|Hu].
      * apply Hk2. left. apply Hws1. unfold has_edge in Huw.
        rewrite Ea in Huw. by apply dict_has_keys.
      * by eapply Hlv2.
    + intros x Hx. apply elem_of_app in Hx as [Hx|Hx]; auto.
Qed.

Lemma scan_level_no_alarm g level : forall mine other fringe,
  scan_level g level mine other fringe <> Raise NetworkXNoPath.
Proof.
  induction level as [|v level IH]; intros mine other fringe; [discriminate|].
  cbn [scan_level]. destruct (adj g v) as [a|]; [|discriminate].
  destruct (scan_adj v (dict_keys a) mine other fringe); [discriminate|].
  apply IH.
Qed.

(** When the loop gives up, one side has looked at the neighbours of all
    the nodes it knows, and the two sides have not met. *)
Lemma search_gives_up g fuel : forall pred succ ff rf,
  apart pred succ -> expanded g pred ff -> expanded g succ rf ->
  search fuel g pred succ ff rf = Raise NetworkXNoPath ->
  exists pred' succ',
    (forall x, known pred x -> known pred' x)
    /\ (forall x, known succ x -> known succ' x)
    /\ apart pred' succ'
    /\ (expanded g pred' [] \/ expanded g succ' []).
Proof.
  induction fuel as [|fuel IH]; intros pred succ ff rf Hap Hep Hes H.
  - destruct ff as [|f0 ff]; [by exists pred, succ; auto|].
    destruct rf as [|r0 rf]; [by exists pred, succ; auto|]. discriminate H.
  - destruct ff as [|f0 ff]; [by exists pred, succ; auto|].
    destruct rf as [|r0 rf]; [by exists pred, succ; auto|].
    cbn [search] in H.
    destruct (length (f0 :: ff) <=? length (r0 :: rf))%nat.
    + destruct (scan_level g (f0 :: ff) pred succ []) as [[p1 w1|p1 f1]|e] eqn:E;
        cbn [bind] in H; [discriminate H| |].
      * apply scan_level_next in E as (new & -> & Hk & Hlv & Hnew).
        cbn [app] in H.
        apply IH in H as (pred' & succ' & H1 & H2 & H3 & H4).
        -- exists pred', succ'. split; [|by split].
           intros x Hx. apply H1, Hk. by left.
        -- intros x Hx Hx'. apply Hk in Hx as [Hx|Hx]; [by apply (Hap x)|].
           apply Hnew in Hx. unfold known in Hx'. rewrite Hx in Hx'.
           by destruct Hx'.
        -- intros v w Hv Hnf Hvw. apply Hk in Hv as [Hv|Hv]; [|done].
           destruct (decide (v ∈ f0 :: ff)) as [Hin|Hin]; [by eapply Hlv|].
           apply Hk. left. by eapply Hep.
        -- exact Hes.
      * injection H as ->. by apply scan_level_no_alarm in E.
    + destruct (scan_level g (r0 :: rf) succ pred []) as [[s1 w1|s1 f1]|e] eqn:E;
        cbn [bind] in H; [discriminate H| |].
      * apply scan_level_next in E as (new & -> & Hk & Hlv & Hnew).
        cbn [app] in H.
        apply IH in H as (pred' & succ' & H1 & H2 & H3 & H4).
        -- exists pred', succ'. split; [done|]. split; [|by split].
           intros x Hx. apply H2, Hk. by left.
        -- intros x Hx Hx'. apply Hk in Hx' as [Hx'|Hx']; [by apply (Hap x)|].
           apply Hnew in Hx'. unfold known in Hx. rewrite Hx' in Hx.
           by destruct Hx.
        -- exact Hep.
        -- intros v w Hv Hnf Hvw. apply Hk in Hv as [Hv|Hv]; [|done].
           destruct (decide (v ∈ r0 :: rf)) as [Hin|Hin]; [by eapply Hlv|].
           apply Hk. left. by eapply Hes.
      * injection H as ->. by apply scan_level_no_alarm in E.
Qed.

Lemma follow_no_alarm fuel : forall m o,
  follow fuel m o <> Raise NetworkXNoPath.
Proof.
  induction fuel as [|fuel IH]; intros m [x|]; cbn [follow]; try discriminate.
  destruct (m !! x) as [o|]; [|discriminate].
  specialize (IH m o). destruct (follow fuel m o); cbn [bind]; [discriminate|].
  congruence.
Qed.

(** A side that is fully expanded knows every node a path leads to. *)
Lemma expanded_path g m p : forall s,
  undirected g -> expanded g m [] -> known m s ->
  head p = Some s -> is_path g p -> forall x, x ∈ p -> known m x.
Proof.
  induction p as [|a p IH]; intros s Hu He Hs Hh Hp x Hx;
    [by apply elem_of_nil in Hx|].
  cbn [head] in Hh. injection Hh as ->.
  apply elem_of_cons in Hx as [->|Hx]; [exact Hs|].
  destruct p as [|b p]; [by apply elem_of_nil in Hx|].
  destruct Hp as [Hab Hp]. apply (IH b); try done.
  apply (He s b Hs); [apply not_elem_of_nil|].
  destruct Hab as [H|H]; [exact H|by apply Hu].
Qed.

(** The search reports no path only when there is none. *)
Lemma shortest_path_complete g s t p :
  undirected g -> path_from_to g s t p ->
  shortest_path g s t <> Raise NetworkXNoPath.
Proof.
  intros Hu (Hh & Hl & Hp) H.
  unfold shortest_path, bidirectional_shortest_path in H.
  destruct (negb (has_node g s) || negb (has_node g t)); [discriminate H|].
  destruct (_bidirectional_pred_succ g s t) as [[[pred succ] w]|e] eqn:E.
  - cbn [bind] in H.
    destruct (follow (S (size pred)) pred (Some w)) as [back|e1] eqn:E1;
      cbn [bind] in H.
    + destruct (succ !! w) as [nxt|]; [|discriminate H].
      destruct (follow (S (size succ)) succ nxt) as [on|e2] eqn:E2;
        cbn [bind] in H; [discriminate H|].
      injection H as ->. by apply follow_no_alarm in E2.
    + injection H as ->. by apply follow_no_alarm in E1.
  - cbn [bind] in H. injection H as ->.
    unfold _bidirectional_pred_succ in E.
    destruct (decide (t = s)) as [->|Hts]; [discriminate E|].
    apply search_gives_up in E as (pred' & succ' & H1 & H2 & H3 & H4).
    + assert (Hs : known pred' s) by (apply H1, known_singleton).
      assert (Ht : known succ' t) by (apply H2, known_singleton).
      assert (Hsp : s ∈ p) by (destruct p; [discriminate Hh|];
                               injection Hh as ->; left).
      assert (Htp : t ∈ p).
      { rewrite last_Some in Hl. destruct Hl as [l' ->].
        apply elem_of_app. right. left. }
      destruct H4 as [He|He].
      * apply (H3 t); [|exact Ht].
        by apply (expanded_path g pred' p s Hu He Hs Hh Hp).
      * apply (H3 s); [exact Hs|].
        apply (expanded_path g succ' (reverse p) t Hu He Ht).
        -- by rewrite head_reverse.
        -- by apply is_path_reverse.
        -- by apply elem_of_reverse.
    + intros x Hx Hx'. unfold known in *.
      destruct (decide (x = s)) as [->|Hxs].
      * rewrite lookup_singleton_ne in Hx' by done. by destruct Hx'.
      * rewrite lookup_singleton_ne in Hx by done. by destruct Hx.
    + intros v w Hv Hnf. unfold known in Hv.
      destruct (decide (v = s)) as [->|Hvs]; [destruct Hnf; left|].
      rewrite lookup_singleton_ne in Hv by done. by destruct Hv.
    + intros v w Hv Hnf. unfold known in Hv.
      destruct (decide (v = t)) as [->|Hvs]; [destruct Hnf; left|].
      rewrite lookup_singleton_ne in Hv by done. by destruct Hv.
Qed.

End SearchComplete.

(** X17.  The router skips an instance only when it must: on a graph of the
    graph class, for a source of the graph and instances hosted on nodes
    of the graph, an instance is among the resolved ones exactly when
    some path leads from the source to the node that hosts it. *)
Theorem get_path_complete (s : Sim) (app dst src : string)
    (alloc : gmap nat string)
    (alloc_mod : gmap string (gmap string (list nat)))
    (modules : gmap string (list nat)) (DES : list nat) :
  closedb (G s) = true ->
  undirected (G s) ->
  has_node (G s) src = true ->
  alloc_mod !! app = Some modules ->
  modules !! dst = Some DES ->
  Forall (fun des => exists n, alloc !! des = Some n /\ has_node (G s) n = true)
    DES ->
  exists r,
    get_path s app dst src alloc alloc_mod = Ok r
    /\ forall des n, des ∈ DES -> alloc !! des = Some n ->
         (des ∈ dst_idDES r <-> exists p, path_from_to (G s) src n p).
Proof.
  intros Hc Hu Hs Hmod HDES Hh. unfold get_path. rewrite Hmod, HDES.
  destruct (get_path_loop_spec (G s) src alloc DES (mkRoutes [] [] []) Hc Hs Hh)
    as (r & Hr & Hd & _); [constructor|].
  exists r. split; [exact Hr|]. simpl in Hd.
  intros des n Hin Hn. rewrite Hd, list_elem_of_filter. split.
  - intros [Hrt _]. by eapply routable_path.
  - intros [p Hp]. split; [|exact Hin]. unfold routable. rewrite Hn.
    rewrite Forall_forall in Hh. destruct (Hh des Hin) as (n' & Hn' & Hnode).
    assert (n' = n) as -> by congruence.
    destruct (shortest_path_total (G s) src n Hc Hs Hnode) as [[q ->]|Hq];
      [reflexivity|].
    by apply (shortest_path_complete (G s) src n p Hu) in Hq.
Qed.

Lemma get_path_complete_witness :
  exists r,
    get_path (mkSim Examples.stray 0) "SecureApp" "ClusterLeader" "area_leader"
      Examples.placement (Examples.deployed [1; 4]%nat) = Ok r
    /\ 1%nat ∈ dst_idDES r
    /\ ~ (exists p, path_from_to Examples.stray "area_leader" "iot_0" p).
Proof.
  destruct (get_path_complete (mkSim Examples.stray 0) "SecureApp"
              "ClusterLeader" "area_leader" Examples.placement
              (Examples.deployed [1; 4]%nat)
              (Examples.cluster_leaders [1; 4]%nat) [1; 4]%nat)
    as (r & Hr & Hiff).
  - vm_compute. reflexivity.
  - apply symmetricb_undirected. vm_compute. reflexivity.
  - vm_compute. reflexivity.
  - reflexivity.
  - reflexivity.
  - constructor; [exists "cluster_1"; split; vm_compute; reflexivity|].
    constructor; [exists "iot_0"; split; vm_compute; reflexivity|].
    constructor.
  - exists r. split; [exact Hr|]. split.
    + apply (Hiff 1%nat "cluster_1"); [left|reflexivity|].
      exists ["area_leader"; "cluster_1"].
      split; [reflexivity|]. split; [reflexivity|].
      split; [left; vm_compute; reflexivity|exact I].
    + intros Hp. apply (Hiff 4%nat "iot_0") in Hp; [|right; left|reflexivity].
      vm_compute in Hr. injection Hr as <-.
      cbn [dst_idDES] in Hp. apply list_elem_of_singleton in Hp.
      discriminate Hp.
Defined.

Section SearchShortest.
Implicit Types (g : Graph) (m mine other pred succ : Links).
Implicit Types (u v w x y s t root : string) (l p q fringe new : list string).
Implicit Types (k j : nat).

Lemma within_mono m x k j : (k <= j)%nat -> within m x k -> within m x j.
Proof. intros Hkj (l & Hl & Hlen). exists l. split; [done|lia]. Qed.

Lemma within_known m x k : within m x k -> known m x.
Proof. intros (l & Hl & _). by eapply chain_known. Qed.

Lemma scan_adj_layer v ws k : forall mine other fringe,
  apart mine other -> within mine v k ->
  match scan_adj v ws mine other fringe with
  | Meet mine' w => within mine' w (S k) /\ known other w
  | Next mine' fringe' =>
      exists new,
        fringe' = fringe ++ new
        /\ (forall x, known mine' x <-> known mine x \/ x ∈ new)
        /\ (forall x l, chain mine x l -> chain mine' x l)
        /\ (forall x, x ∈ new -> ~ known mine x /\ within mine' x (S k))
        /\ apart mine' other
        /\ (forall w, w ∈ ws -> known mine' w)
  end.
Proof.
  induction ws as [|w ws IH]; intros mine other fringe Hap Hv.
  - cbn [scan_adj]. exists []. split; [by rewrite app_nil_r|]. split.
    { intros x. split; [by left|]. intros [?|Hx]; [done|].
      by apply elem_of_nil in Hx. }
    split; [done|]. split; [intros x Hx; by apply elem_of_nil in Hx|].
    split; [done|]. intros x Hx. by apply elem_of_nil in Hx.
  - cbn [scan_adj]. destruct (mine !! w) as [o|] eqn:Em.
    + destruct (other !! w) as [o'|] eqn:Eo.
      { exfalso. apply (Hap w); unfold known; eauto. }
      specialize (IH mine other fringe Hap Hv).
      destruct (scan_adj v ws mine other fringe) as [m' w'|m' f']; [done|].
      destruct IH as (new & -> & Hk & Hch & Hnew & Hap' & Hws).
      exists new. split; [done|]. split; [done|]. split; [done|].
      split; [done|]. split; [done|].
      intros x Hx. apply elem_of_cons in Hx as [->|Hx]; [|by apply Hws].
      apply Hk. left. unfold known. eauto.
    + assert (Hch0 : forall x l, chain mine x l ->
                chain (<[w := Some v]> mine) x l)
        by (intros x l; by apply chain_insert).
      assert (Hw : within (<[w := Some v]> mine) w (S k)).
      { destruct Hv as (l & Hl & Hlen). exists (w :: l). split.
        - apply chain_link with v; [apply lookup_insert_eq|by apply Hch0].
        - cbn [length]. lia. }
      destruct (other !! w) as [o'|] eqn:Eo.
      { split; [exact Hw|]. unfold known. eauto. }
      assert (Hap1 : apart (<[w := Some v]> mine) other).
      { intros x Hx Hx'. apply known_insert in Hx as [->|Hx].
        - unfold known in Hx'. rewrite Eo in Hx'. by destruct Hx'.
        - by apply (Hap x). }
      assert (Hv1 : within (<[w := Some v]> mine) v k).
      { destruct Hv as (l & Hl & Hlen). exists l. split; [by apply Hch0|done]. }
      specialize (IH (<[w := Some v]> mine) other (fringe ++ [w]) Hap1 Hv1).
      destruct (scan_adj v ws (<[w := Some v]> mine) other (fringe ++ [w]))
        as [m' w'|m' f']; [done|].
      destruct IH as (new & -> & Hk & Hch & Hnew & Hap' & Hws).
      exists (w :: new). split; [by rewrite <- app_assoc|]. split.
      { intros x. rewrite Hk, known_insert, elem_of_cons. tauto. }
      split; [intros x l Hl; by apply Hch, Hch0|]. split.
      { intros x Hx. apply elem_of_cons in Hx as [->|Hx].
        - split; [unfold known; rewrite Em; by intros [? ?]|].
          destruct Hw as (l & Hl & Hlen). exists l. split; [by apply Hch|done].
        - destruct (Hnew x Hx) as [Hn Hwi]. split; [|done].
          intros Hx'. apply Hn, known_insert. by right. }
      split; [done|].
      intros x Hx. apply elem_of_cons in Hx as [->|Hx]; [|by apply Hws].
      apply Hk. left. apply known_insert. by left.
Qed.

Lemma scan_level_layer g level k : forall mine other fringe r,
  apart mine other ->
  Forall (fun v => within mine v k) level ->
  scan_level g level mine other fringe = Ok r ->
  match r with
  | Meet mine' w => within mine' w (S k) /\ known other w
  | Next mine' fringe' =>
      exists new,
        fringe' = fringe ++ new
        /\ (forall x, known mine' x <-> known mine x \/ x ∈ new)
        /\ (forall x l, chain mine x l -> chain mine' x l)
        /\ (forall x, x ∈ new -> ~ known mine x /\ within mine' x (S k))
        /\ apart mine' other
        /\ (forall v w, v ∈ level -> has_edge g v w = true -> known mine' w)
  end.
Proof.
  induction level as [|v level IH]; intros mine other fringe r Hap Hl H.
  - cbn [scan_level] in H. injection H as <-. exists [].
    split; [by rewrite app_nil_r|]. split.
    { intros x. split; [by left|]. intros [?|Hx]; [done|].
      by apply elem_of_nil in Hx. }
    split; [done|]. split; [intros x Hx; by apply elem_of_nil in Hx|].
    split; [done|]. intros x w Hx. by apply elem_of_nil in Hx.
  - cbn [scan_level] in H. apply Forall_cons in Hl as [Hv Hl].
    destruct (adj g v) as [a|] eqn:Ea; [|discriminate H].
    pose proof (scan_adj_layer v (dict_keys a) k mine other fringe Hap Hv)
      as Hscan.
    destruct (scan_adj v (dict_keys a) mine other fringe) as [m1 w1|m1 f1].
    { injection H as <-. exact Hscan. }
    destruct Hscan as (new1 & -> & Hk1 & Hch1 & Hnew1 & Hap1 & Hws1).
    assert (Hl1 : Forall (fun v => within m1 v k) level).
    { eapply Forall_impl; [exact Hl|]. intros x (l & Hx & Hlen).
      exists l. split; [by apply Hch1|done]. }
    specialize (IH m1 other (fringe ++ new1) r Hap1 Hl1 H).
    destruct r as [m2 w2|m2 f2]; [exact IH|].
    destruct IH as (new2 & -> & Hk2 & Hch2 & Hnew2 & Hap2 & Hlv2).
    exists (new1 ++ new2). split; [by rewrite app_assoc|]. split.
    { intros x. rewrite Hk2, Hk1, elem_of_app. tauto. }
    split; [intros x l Hx; by apply Hch2, Hch1|]. split.
    { intros x Hx. apply elem_of_app in Hx as [Hx|Hx].
      - destruct (Hnew1 x Hx) as [Hn (l & Hc & Hlen)]. split; [done|].
        exists l. split; [by apply Hch2|done].
      - destruct (Hnew2 x Hx) as [Hn Hwi]. split; [|done].
        intros Hx'. apply Hn, Hk1. by left. }
    split; [done|].
    intros u w Hu Huw. apply elem_of_cons in Hu as [->|Hu]; [|by eapply Hlv2].
    apply Hk2. left. apply Hws1. unfold has_edge in Huw. rewrite Ea in Huw.
    by apply dict_has_keys.
Qed.


Lemma is_path_unsnoc g q x :
  q <> [] -> is_path g (q ++ [x]) ->
  is_path g q /\ exists y, last q = Some y /\ edge g y x.
Proof.
  induction q as [|a q IH]; intros Hne Hp; [done|].
  destruct q as [|b q].
  - cbn [app is_path] in Hp. destruct Hp as [He _]. split; [exact I|].
    exists a. by split.
  - change ((a :: b :: q) ++ [x]) with (a :: b :: (q ++ [x])) in Hp.
    destruct Hp as [Hab Hp]. destruct (IH ltac:(done) Hp) as (Hq & y & Hy & He).
    split; [by split|]. exists y. split; [|done]. by rewrite last_cons_cons.
Qed.

(** A node [k + 1] edges away lies one edge behind a node [k] edges
    away. *)
Lemma near_succ g root x k :
  undirected g -> near g root x (S k) ->
  near g root x k \/ exists y, near g root y k /\ has_edge g y x = true.
Proof.
  intros Hu (p & (Hh & Hl & Hp) & Hlen).
  destruct p as [|z q _] using rev_ind; [discriminate Hh|].
  rewrite last_snoc in Hl. injection Hl as ->.
  destruct q as [|a q].
  - left. exists [x]. split; [by repeat split|cbn [length]; lia].
  - right. destruct (is_path_unsnoc g (a :: q) x ltac:(done) Hp)
      as (Hq & y & Hy & He).
    exists y. split.
    + exists (a :: q). split; [by repeat split|].
      rewrite length_app in Hlen. cbn [length] in *. lia.
    + destruct He as [He|He]; [exact He|by apply Hu].
Qed.

Lemma near_cons g s b y k :
  edge g s b -> near g b y k -> near g s y (S k).
Proof.
  intros He (q & (Hh & Hl & Hq) & Hlen). exists (s :: q).
  destruct q as [|c q]; [discriminate Hh|]. injection Hh as ->.
  split; [|cbn [length] in *; lia].
  split; [reflexivity|]. split; [by rewrite last_cons_cons|by split].
Qed.

(** A path of at most [k + j] edges has a node at most [k] edges from its
    start and at most [j] edges from its end. *)
Lemma path_middle g t j k : forall s p,
  path_from_to g s t p -> (length p <= k + j + 1)%nat ->
  exists y, near g s y k /\ near g t y j.
Proof.
  induction k as [|k IH]; intros s p (Hh & Hl & Hp) Hlen.
  - exists s. split.
    + exists [s]. split; [by repeat split|cbn [length]; lia].
    + exists (reverse p). split; [|rewrite length_reverse; lia].
      split; [by rewrite head_reverse|].
      split; [by rewrite last_reverse|by apply is_path_reverse].
  - destruct p as [|a p]; [discriminate Hh|]. injection Hh as Ha. subst a.
    destruct p as [|b p].
    + injection Hl as Hst. subst t. exists s. split.
      * exists [s]. split; [by repeat split|cbn [length]; lia].
      * exists [s]. split; [by repeat split|cbn [length]; lia].
    + destruct Hp as [Hab Hp]. rewrite last_cons_cons in Hl.
      destruct (IH b (b :: p)) as (y & Hy1 & Hy2).
      * by repeat split.
      * cbn [length] in *. lia.
      * exists y. split; [by eapply near_cons|done].
Qed.

(** While the two sides have not met, every path between the roots is
    longer than the two radii together. *)
Lemma meet_bound g s t pred succ k j p :
  apart pred succ ->
  (forall x, near g s x k -> known pred x) ->
  (forall x, near g t x j -> known succ x) ->
  path_from_to g s t p -> (k + j + 2 <= length p)%nat.
Proof.
  intros Hap Hp Hs Hpath.
  destruct (decide (length p <= k + j + 1)%nat) as [Hle|]; [|lia].
  destruct (path_middle g t j k s p Hpath Hle) as (y & Hy1 & Hy2).
  destruct (Hap y); auto.
Qed.

Lemma layered_next g root m ff k m' new :
  undirected g -> layered g root m ff k ->
  (forall x, known m' x <-> known m x \/ x ∈ new) ->
  (forall x l, chain m x l -> chain m' x l) ->
  (forall x, x ∈ new -> ~ known m x /\ within m' x (S k)) ->
  (forall v w, v ∈ ff -> has_edge g v w = true -> known m' w) ->
  layered g root m' new (S k).
Proof.
  intros Hu (La & Lb & Lc & Ld) Hk Hch Hnew Hlv.
  assert (Lc' : expanded g m' new).
  { intros v w Hv Hnf Hvw. apply Hk in Hv as [Hv|Hv]; [|done].
    destruct (decide (v ∈ ff)) as [Hin|Hin]; [by eapply Hlv|].
    apply Hk. left. by eapply Lc. }
  split; [|split; [|split]]; [| |exact Lc'|].
  - intros x Hx. apply Hk in Hx as [Hx|Hx]; [|by apply Hnew].
    destruct (La x Hx) as (l & Hl & Hlen). exists l.
    split; [by apply Hch|lia].
  - apply Forall_forall. intros x Hx. apply Hk. by right.
  - intros x Hx. apply (near_succ g root x k Hu) in Hx as [Hx|(y & Hy & Hyx)].
    + apply Hk. left. by apply Ld.
    + apply (Lc' y x); [apply Hk; left; by apply Ld| |exact Hyx].
      intros Hin. apply Hnew in Hin as [Hn _]. by apply Hn, Ld.
Qed.

(** Where the two sides meet, the two radii add up to no more than the
    length of any path between the roots. *)
Lemma search_layers g s t fuel :
  forall pred succ ff rf k j pred' succ' w,
  undirected g ->
  layered g s pred ff k -> layered g t succ rf j -> apart pred succ ->
  search fuel g pred succ ff rf = Ok (pred', succ', w) ->
  exists k' j',
    within pred' w k' /\ within succ' w j'
    /\ forall p, path_from_to g s t p -> (k' + j' + 1 <= length p)%nat.
Proof.
  induction fuel as [|fuel IH];
    intros pred succ ff rf k j pred' succ' w Hu Lp Ls Hap H.
  - destruct ff, rf; discriminate H.
  - destruct ff as [|f0 ff]; [discriminate H|].
    destruct rf as [|r0 rf]; [discriminate H|]. cbn [search] in H.
    pose proof Lp as (Pa & Pb & Pc & Pd). pose proof Ls as (Sa & Sb & Sc & Sd).
    destruct (length (f0 :: ff) <=? length (r0 :: rf))%nat.
    + destruct (scan_level g (f0 :: ff) pred succ []) as [r|e] eqn:E;
        [|discriminate H].
      cbn [bind] in H.
      assert (Hlv : Forall (fun v => within pred v k) (f0 :: ff)).
      { eapply Forall_impl; [exact Pb|]. exact Pa. }
      pose proof (scan_level_layer g _ k _ _ _ _ Hap Hlv E) as Hr.
      destruct r as [p1 w1|p1 f1].
      * injection H as <- <- <-. destruct Hr as [Hw Hkw].
        exists (S k), j. split; [exact Hw|]. split; [by apply Sa|].
        intros p Hp. pose proof (meet_bound g s t pred succ k j p Hap Pd Sd Hp).
        lia.
      * destruct Hr as (new & -> & Hk & Hch & Hnew & Hap' & Hl).
        cbn [app] in H.
        eapply (IH p1 succ new (r0 :: rf) (S k) j);
          [exact Hu| |exact Ls|exact Hap'|exact H].
        by eapply layered_next.
    + destruct (scan_level g (r0 :: rf) succ pred []) as [r|e] eqn:E;
        [|discriminate H].
      cbn [bind] in H.
      assert (Hlv : Forall (fun v => within succ v j) (r0 :: rf)).
      { eapply Forall_impl; [exact Sb|]. exact Sa. }
      assert (Hap2 : apart succ pred).
      { intros x Hx Hx'. by apply (Hap x). }
      pose proof (scan_level_layer g _ j _ _ _ _ Hap2 Hlv E) as Hr.
      destruct r as [s1 w1|s1 f1].
      * injection H as <- <- <-. destruct Hr as [Hw Hkw].
        exists k, (S j). split; [by apply Pa|]. split; [exact Hw|].
        intros p Hp. pose proof (meet_bound g s t pred succ k j p Hap Pd Sd Hp).
        lia.
      * destruct Hr as (new & -> & Hk & Hch & Hnew & Hap' & Hl).
        cbn [app] in H.
        eapply (IH pred s1 (f0 :: ff) new k (S j));
          [exact Hu|exact Lp| | |exact H].
        -- by eapply layered_next.
        -- intros x Hx Hx'. by apply (Hap' x).
Qed.

End SearchShortest.

Section ShortestPaths.
Implicit Types (g : Graph) (m pred succ : Links).
Implicit Types (v w s t : string) (l p : list string).

Lemma follow_chain_inv fuel : forall m w l,
  follow fuel m (Some w) = Ok l -> chain m w l.
Proof.
  induction fuel as [|fuel IH]; intros m w l H; [discriminate H|].
  cbn [follow] in H. destruct (m !! w) as [[v|]|] eqn:Ew; [| |discriminate H].
  - destruct (follow fuel m (Some v)) as [rest|] eqn:E; [|discriminate H].
    cbn [bind] in H. injection H as <-.
    apply chain_link with v; [exact Ew|by apply IH].
  - rewrite follow_None in H. cbn [bind] in H. injection H as <-.
    by apply chain_end.
Qed.

Lemma chain_unique m w l l' : chain m w l -> chain m w l' -> l = l'.
Proof.
  intros H. revert l'. induction H as [w Hw|w v l Hw Hc IH]; intros l' H'.
  - destruct H' as [w Hw'|w v' l' Hw' Hc']; [reflexivity|congruence].
  - destruct H' as [w Hw'|w v' l' Hw' Hc']; [congruence|].
    assert (v' = v) as -> by congruence. f_equal. by apply IH.
Qed.

(** The path the search returns is a shortest one: no path between the
    two nodes has fewer nodes. *)
Lemma shortest_path_shortest g s t p0 p :
  undirected g -> shortest_path g s t = Ok p0 -> path_from_to g s t p ->
  (length p0 <= length p)%nat.
Proof.
  intros Hu H Hp. unfold shortest_path, bidirectional_shortest_path in H.
  destruct (negb (has_node g s) || negb (has_node g t)); [discriminate H|].
  destruct (_bidirectional_pred_succ g s t) as [[[pred succ] w]|] eqn:E;
    [|discriminate H].
  cbn [bind] in H.
  destruct (follow (S (size pred)) pred (Some w)) as [back|] eqn:E1;
    [|discriminate H].
  cbn [bind] in H. destruct (succ !! w) as [nxt|] eqn:Ew; [|discriminate H].
  destruct (follow (S (size succ)) succ nxt) as [onward|] eqn:E2;
    [|discriminate H].
  cbn [bind] in H. injection H as <-.
  assert (Hmeet : exists k j,
            within pred w k /\ within succ w j
            /\ (k + j + 1 <= length p)%nat).
  { unfold _bidirectional_pred_succ in E.
    destruct (decide (t = s)) as [->|Hts].
    - injection E as <- <- <-. exists 0%nat, 0%nat.
      assert (Hs : within {[s := None]} s 0).
      { exists [s]. split; [|reflexivity]. apply chain_end.
        apply lookup_singleton_eq. }
      split; [exact Hs|]. split; [exact Hs|].
      destruct Hp as (Hh & _). destruct p; [discriminate Hh|].
      cbn [length]. lia.
    - assert (Hinit : forall x, layered g x {[x := None]} [x] 0).
      { intros x. split; [|split; [|split]].
        - intros y Hy. unfold known in Hy.
          destruct (decide (y = x)) as [->|Hne].
          + exists [x]. split; [|reflexivity]. apply chain_end.
            apply lookup_singleton_eq.
          + rewrite lookup_singleton_ne in Hy by done. by destruct Hy.
        - constructor; [apply known_singleton|constructor].
        - intros v v' Hv Hnf. unfold known in Hv.
          destruct (decide (v = x)) as [->|Hne]; [destruct Hnf; left|].
          rewrite lookup_singleton_ne in Hv by done. by destruct Hv.
        - intros y (q & (Hh & Hl & _) & Hlen).
          destruct q as [|a [|b q]]; [discriminate Hh| |cbn [length] in Hlen; lia].
          injection Hh as ->. injection Hl as <-. apply known_singleton. }
      assert (Hap : apart {[s := None]} ({[t := None]} : Links)).
      { intros x Hx Hx'. unfold known in *.
        destruct (decide (x = s)) as [->|Hxs].
        - rewrite lookup_singleton_ne in Hx' by done. by destruct Hx'.
        - rewrite lookup_singleton_ne in Hx by done. by destruct Hx. }
      destruct (search_layers g s t _ _ _ _ _ 0%nat 0%nat _ _ _ Hu
                  (Hinit s) (Hinit t) Hap E)
        as (k & j & Hk & Hj & Hb).
      exists k, j. split; [done|]. split; [done|]. by apply Hb. }
  destruct Hmeet as (k & j & (l1 & Hl1 & Hlen1) & (l2 & Hl2 & Hlen2) & Hb).
  apply follow_chain_inv in E1.
  rewrite (chain_unique _ _ _ _ E1 Hl1), length_app, length_reverse.
  destruct nxt as [v|].
  - destruct (chain_inv_link _ _ _ _ Hl2 Ew) as (l2' & -> & Hl2').
    apply follow_chain_inv in E2.
    rewrite (chain_unique _ _ _ _ E2 Hl2'). cbn [length] in Hlen2. lia.
  - rewrite follow_None in E2. injection E2 as <-. cbn [length]. lia.
Qed.

Lemma get_path_loop_routed g src alloc DES : forall acc r,
  get_path_loop g src alloc DES acc = Ok r ->
  Forall2 (fun des p => exists n, alloc !! des = Some n
                                  /\ shortest_path g src n = Ok p)
    (dst_idDES acc) (paths acc) ->
  Forall2 (fun des p => exists n, alloc !! des = Some n
                                  /\ shortest_path g src n = Ok p)
    (dst_idDES r) (paths r).
Proof.
  induction DES as [|des DES IH]; intros acc r H Hacc.
  - cbn [get_path_loop] in H. by injection H as <-.
  - cbn [get_path_loop] in H. destruct (alloc !! des) as [n|] eqn:En;
      [|discriminate H].
    destruct (shortest_path g src n) as [p|e] eqn:E.
    + apply (IH _ _ H). cbn [dst_idDES paths]. apply Forall2_app; [done|].
      constructor; [|constructor]. by exists n.
    + destruct e; try discriminate H. by apply (IH _ _ H).
Qed.

End ShortestPaths.

(** X18.  Every path the router returns is a shortest one: on an
    undirected graph, [paths[i]] leads from the source to the node hosting
    [dst_idDES[i]], and no path between these two nodes has fewer hops. *)
Theorem get_path_shortest (s : Sim) (app dst src : string)
    (alloc : gmap nat string)
    (alloc_mod : gmap string (gmap string (list nat))) (r : Routes) :
  undirected (G s) ->
  get_path s app dst src alloc alloc_mod = Ok r ->
  Forall2 (fun des path => exists n,
             alloc !! des = Some n
             /\ path_from_to (G s) src n path
             /\ forall p, path_from_to (G s) src n p ->
                  (length path <= length p)%nat)
    (dst_idDES r) (paths r).
Proof.
  intros Hu H. unfold get_path in H.
  destruct (alloc_mod !! app) as [modules|]; [|discriminate H].
  destruct (modules !! dst) as [DES|]; [|discriminate H].
  apply get_path_loop_routed in H; [|constructor].
  eapply Forall2_impl; [exact H|]. intros des path (n & Hn & Hp).
  exists n. split; [exact Hn|]. split; [by apply shortest_path_sound|].
  intros p Hpath. by apply (shortest_path_shortest (G s) src n path p).
Qed.

Lemma get_path_shortest_witness :
  exists r,
    get_path (sim Examples.moved) "SecureApp" "ClusterLeader" "area_leader"
      Examples.placement (Examples.deployed [4]%nat) = Ok r
    /\ Forall2 (fun des path => exists n,
                  Examples.placement !! des = Some n
                  /\ forall p,
                       path_from_to (G (sim Examples.moved)) "area_leader" n p ->
                       (length path <= length p)%nat)
         (dst_idDES r) (paths r).
Proof.
  destruct (get_path (sim Examples.moved) "SecureApp" "ClusterLeader"
              "area_leader" Examples.placement (Examples.deployed [4]%nat))
    as [r|e] eqn:E; [|vm_compute in E; discriminate].
  exists r. split; [reflexivity|].
  assert (Hu : undirected (G (sim Examples.moved)))
    by (apply symmetricb_undirected; vm_compute; reflexivity).
  eapply Forall2_impl; [exact (get_path_shortest _ _ _ _ _ _ _ Hu E)|].
  intros des path (n & Hn & _ & Hmin). exists n. split; [exact Hn|exact Hmin].
Defined.

